(** * seaice.core.profile: a shallow embedding

    The module [seaice/core/profile.py] resamples physical-property
    profiles of sea-ice cores.  This development embeds its operations as
    executable definitions and states properties of them.

    Conventions of the embedding.
    - A float is a rational or NaN ([fl], [None] is NaN).  Arithmetic is
      exact; rounding is not modelled.  A division by zero, which numpy
      evaluates to an infinity or to NaN, is NaN here.
    - A [DataFrame] is a list of column labels and a list of rows.  The row
      index of pandas is positional: labels are unique and rows keep their
      identity through a selection.
    - A call returns a log and an outcome.  Only records of level WARNING
      and above are kept, the threshold of Python's logging by default.
    - An outcome is a value or a Python exception.  [NotModelled] marks an
      input that leaves the fragment of numpy and pandas embedded here. *)

From Stdlib Require Import QArith Qabs Qminmax Lqa Lia Bool Arith List Ascii String.
From Stdlib Require Import Sorted Permutation DecimalString DecimalNat.
From Stdlib Require DecimalFacts.
Import ListNotations.

Set Implicit Arguments.

(* ================================================================== *)
(** * Floats with NaN *)

Module Num.

Local Open Scope Q_scope.

(** [TOL = 1e-6] (module constant). *)
Definition TOL : Q := 1 # 1000000.

Definition fl : Type := option Q.
Definition nan : fl := None.

Definition isnan (x : fl) : bool :=
  match x with None => true | Some _ => false end.

Definition Qltb (x y : Q) : bool := negb (Qle_bool y x).

(** [x * l] for a float [x] and a finite [l]. *)
Definition fmulq (x : fl) (l : Q) : fl := option_map (fun v => v * l) x.

(** [np.nansum([x, y], axis=0)], one component: NaN counts as zero. *)
Definition nz (x : fl) : Q := match x with Some v => v | None => 0 end.
Definition nansum2 (x y : fl) : fl := Some (nz x + nz y).

Fixpoint map2 {A B C} (f : A -> B -> C) (l : list A) (l' : list B) : list C :=
  match l, l' with
  | x :: t, y :: t' => f x y :: map2 f t t'
  | _, _ => []
  end.

Definition vnansum (X Y : list fl) : list fl := map2 nansum2 X Y.

(** [x / y]; a zero divisor gives NaN. *)
Definition fdiv (x y : fl) : fl :=
  match x, y with
  | Some a, Some b => if Qeq_bool b 0 then None else Some (a / b)
  | _, _ => None
  end.

(** [l * mask] for a boolean mask: [l * True = l], [l * False = 0]. *)
Definition qmask (l : Q) (b : bool) : fl := Some (l * (if b then 1 else 0)).

(** Equality of floats up to the representation of the rational;
    NaN is related to NaN only. *)
Definition fl_eq (x y : fl) : Prop :=
  match x, y with
  | Some a, Some b => a == b
  | None, None => True
  | _, _ => False
  end.

End Num.

(* ================================================================== *)
(** * Outcomes and the log *)

Module Py.

Inductive exc : Set :=
| SyntaxError | NameError | TypeError | IndexError | KeyError
| AttributeError | ValueError | UnboundLocalError | NotModelled.

Inductive outcome (A : Type) : Type :=
| Ret (a : A)
| Raise (e : exc).
Arguments Ret {A} a.
Arguments Raise {A} e.

Inductive level : Set := WARNING | ERROR.

(** One [logger.warning] or [logger.error] call. *)
Record record : Set := Log { lvl : level; msg : string }.

(** A computation: the records it logged, then how it ended. *)
Definition M (A : Type) : Type := (list record * outcome A)%type.

Definition ret {A} (a : A) : M A := ([], Ret a).
Definition raise {A} (e : exc) : M A := ([], Raise e).
Definition warning (s : string) : M unit := ([Log WARNING s], Ret tt).
Definition error (s : string) : M unit := ([Log ERROR s], Ret tt).

Definition bind {A B} (m : M A) (f : A -> M B) : M B :=
  match m with
  | (l, Ret a) => let (l', r) := f a in (l ++ l', r)
  | (l, Raise e) => (l, Raise e)
  end.

Definition lift {A} (o : outcome A) : M A := ([], o).

Definition obind {A B} (o : outcome A) (f : A -> outcome B) : outcome B :=
  match o with Ret a => f a | Raise e => Raise e end.

Definition from_option {A} (e : exc) (o : option A) : outcome A :=
  match o with Some a => Ret a | None => Raise e end.

(** [for x in l: st = body(x, st)], stopping at the first exception. *)
Fixpoint for_each {A St} (l : list A) (body : A -> St -> M St) (st : St) : M St :=
  match l with
  | [] => ret st
  | x :: t => bind (body x st) (for_each t body)
  end.

Fixpoint ofor_each {A St} (l : list A) (body : A -> St -> outcome St) (st : St)
  : outcome St :=
  match l with
  | [] => Ret st
  | x :: t => obind (body x st) (ofor_each t body)
  end.

End Py.

Declare Scope py_scope.
Notation "x <- m ;; k" := (Py.bind m (fun x => k))
  (at level 61, m at next level, right associativity) : py_scope.
Notation "m ;;; k" := (Py.bind m (fun _ => k))
  (at level 61, right associativity) : py_scope.
Notation "x <~ o ;; k" := (Py.obind o (fun x => k))
  (at level 61, o at next level, right associativity) : py_scope.

(* ================================================================== *)
(** * Data frames of profile rows *)

Module Frame.

Import Num.
Local Open Scope string_scope.

(** A cell read through a column label. *)
Inductive cell : Type :=
| Str (s : string)
| Num (x : fl).

(** One row of a profile or of a stack of profiles.  The columns the
    module addresses by name are fields; every other column (one per
    measured property, the weights) is an entry of [props].  A field whose
    column is absent from the frame is not read. *)
Record Row : Type := mkRow {
  name : string;
  variable : string;
  v_ref : string;
  ice_thickness : fl;
  core_length : fl;          (* column 'length' *)
  y_low : fl;
  y_mid : fl;
  y_sup : fl;
  props : list (string * fl)
}.

Record DataFrame : Type := mkFrame {
  columns : list string;
  rows : list Row
}.

(** [key in df.keys()] *)
Definition has_col (df : DataFrame) (k : string) : bool :=
  existsb (String.eqb k) (columns df).

(** [df.empty]: an axis of length zero. *)
Definition empty (df : DataFrame) : bool :=
  match columns df, rows df with
  | [], _ | _, [] => true
  | _, _ => false
  end.

Fixpoint lookup (k : string) (l : list (string * fl)) : fl :=
  match l with
  | [] => nan
  | (k', v) :: t => if String.eqb k k' then v else lookup k t
  end.

Fixpoint assign (k : string) (v : fl) (l : list (string * fl)) : list (string * fl) :=
  match l with
  | [] => [(k, v)]
  | (k', v') :: t => if String.eqb k k' then (k, v) :: t else (k', v') :: assign k v t
  end.

Definition remove_key (k : string) (l : list (string * fl)) : list (string * fl) :=
  filter (fun kv => negb (String.eqb k (fst kv))) l.

Definition prop (k : string) (r : Row) : fl := lookup k (props r).

Definition set_prop (k : string) (v : fl) (r : Row) : Row :=
  mkRow (name r) (variable r) (v_ref r) (ice_thickness r) (core_length r)
        (y_low r) (y_mid r) (y_sup r) (assign k v (props r)).

Definition set_props (f : list (string * fl) -> list (string * fl)) (r : Row) : Row :=
  mkRow (name r) (variable r) (v_ref r) (ice_thickness r) (core_length r)
        (y_low r) (y_mid r) (y_sup r) (f (props r)).

Definition set_variable (s : string) (r : Row) : Row :=
  mkRow (name r) s (v_ref r) (ice_thickness r) (core_length r)
        (y_low r) (y_mid r) (y_sup r) (props r).

Definition set_depths (lo mi su : fl) (r : Row) : Row :=
  mkRow (name r) (variable r) (v_ref r) (ice_thickness r) (core_length r)
        lo mi su (props r).

Definition set_y_mid (mi : fl) (r : Row) : Row :=
  set_depths (y_low r) mi (y_sup r) r.

Definition set_v_ref (s : string) (r : Row) : Row :=
  mkRow (name r) (variable r) s (ice_thickness r) (core_length r)
        (y_low r) (y_mid r) (y_sup r) (props r).

(** [df[k]] of one row. *)
Definition cell_of (k : string) (r : Row) : cell :=
  if String.eqb k "name" then Str (name r)
  else if String.eqb k "variable" then Str (variable r)
  else if String.eqb k "v_ref" then Str (v_ref r)
  else if String.eqb k "ice_thickness" then Num (ice_thickness r)
  else if String.eqb k "length" then Num (core_length r)
  else if String.eqb k "y_low" then Num (y_low r)
  else if String.eqb k "y_mid" then Num (y_mid r)
  else if String.eqb k "y_sup" then Num (y_sup r)
  else Num (prop k r).

(** Python's [!=] on two cells.  NaN differs from everything. *)
Definition cell_neq (a b : cell) : bool :=
  match a, b with
  | Str s, Str s' => negb (String.eqb s s')
  | Num (Some x), Num (Some y) => negb (Qeq_bool x y)
  | _, _ => true
  end.

(** [pd.unique]: the distinct values in order of first appearance. *)
Fixpoint unique (l : list string) : list string :=
  match l with
  | [] => []
  | x :: t => x :: filter (fun y => negb (String.eqb y x)) (unique t)
  end.

(** [df.variable.unique()] *)
Definition groups (df : DataFrame) : list string := unique (map variable (rows df)).

(** [df[df.variable == g]], the rows. *)
Definition group_rows (g : string) (l : list Row) : list Row :=
  filter (fun r => String.eqb (variable r) g) l.

(** [s.split(', ')] *)
Fixpoint split_aux (s : string) (acc : string) : list string :=
  match s with
  | EmptyString => [acc]
  | String "," (String " " rest) => acc :: split_aux rest EmptyString
  | String c rest => split_aux rest (acc ++ String c EmptyString)
  end.
Definition split (s : string) : list string := split_aux s EmptyString.

(** [', '.join(l)] *)
Definition join (l : list string) : string := String.concat ", " l.

(** [Profile.get_property] (and its deprecated alias [get_variable]):
    the properties of every variable group, in order. *)
Definition get_property (df : DataFrame) : option (list string) :=
  if has_col df "variable"
  then Some (flat_map split (groups df))
  else None.

Definition mem (x : string) (l : list string) : bool := existsb (String.eqb x) l.

End Frame.

(* ================================================================== *)
(** * The step resampler (section-sampled profiles) *)

Module Step.

Import Num Py.
Local Open Scope Q_scope.

(** One line of the array [yx]: the two bound columns, then one value per
    resampled variable ([yx[i, n_s0:n_s1]], with [n_s0 = 2]). *)
Record srow : Type := mkS { c0 : Q; c1 : Q; vals : list fl }.

Definition dummy : srow := mkS 0 0 [].

(** [yx[i]] *)
Definition at_ (yx : list srow) (i : nat) : srow := nth i yx dummy.

(** [numpy.flatnonzero] of a mask. *)
Fixpoint flatnonzero_from (i : nat) (mask : list bool) : list nat :=
  match mask with
  | [] => []
  | b :: t => if b then i :: flatnonzero_from (S i) t else flatnonzero_from (S i) t
  end.
Definition flatnonzero (mask : list bool) : list nat := flatnonzero_from 0 mask.

(** [numpy.unique] on indices: sorted, without repetition. *)
Fixpoint insert_uniq (x : nat) (l : list nat) : list nat :=
  match l with
  | [] => [x]
  | y :: t =>
      if Nat.ltb x y then x :: l
      else if Nat.eqb x y then l
      else y :: insert_uniq x t
  end.
Definition np_unique (l : list nat) : list nat := fold_right insert_uniq [] l.

(** [numpy.unique] on depths. *)
Fixpoint insert_uniqQ (x : Q) (l : list Q) : list Q :=
  match l with
  | [] => [x]
  | y :: t =>
      if Qltb x y then x :: l
      else if Qeq_bool x y then l
      else y :: insert_uniqQ x t
  end.
Definition np_uniqueQ (l : list Q) : list Q := fold_right insert_uniqQ [] l.

(** [numpy.diff] *)
Fixpoint diff (l : list Q) : list Q :=
  match l with
  | x :: ((y :: _) as t) => (y - x) :: diff t
  | _ => []
  end.

(** The three masks of a target bin [[b0, b1]] and the selection [a]
    (lines 371-374). *)
Definition straddles (e : Q) (r : srow) : bool :=
  Qltb (c0 r - e) (- TOL) && Qltb (e - c1 r) (- TOL).
Definition inside (b0 b1 : Q) (r : srow) : bool :=
  Qle_bool (b0 - c0 r) TOL && Qle_bool (c1 r - b1) TOL.

Definition select (yx : list srow) (b0 b1 : Q) : list nat :=
  let a := flatnonzero (map (straddles b0) yx) in
  let a := a ++ flatnonzero (map (inside b0 b1) yx) in
  let a := a ++ flatnonzero (map (straddles b1) yx) in
  np_unique a.

(** The accumulators of one bin. *)
Record acc : Type := mkAcc {
  S_ : list fl;      (* S *)
  L_ : list fl;      (* L *)
  L_nan : list fl;
  a_ii : nat
}.

(** [l * ~np.isnan(S_temp)] and [l * np.isnan(S_temp)] *)
Definition valid_len (l : Q) (S_temp : list fl) : list fl :=
  map (fun s => qmask l (negb (isnan s))) S_temp.
Definition nan_len (l : Q) (S_temp : list fl) : list fl :=
  map (fun s => qmask l (isnan s)) S_temp.

(** The body shared by the [while] loop and the last section:
    [S_temp = v * l], then the three sums. *)
Definition add_piece (st : acc) (v : list fl) (l : Q) : acc :=
  let S_temp := map (fun x => fmulq x l) v in
  mkAcc (vnansum (S_ st) S_temp)
        (vnansum (L_ st) (valid_len l S_temp))
        (vnansum (L_nan st) (nan_len l S_temp))
        (a_ii st).

(** The body for a first section that starts before the bin (lines
    387-394): [L_nan] is summed from the new [L], and [a_ii] advances. *)
Definition add_first (st : acc) (v : list fl) (l : Q) : acc :=
  let S_temp := map (fun x => fmulq x l) v in
  let L' := vnansum (L_ st) (valid_len l S_temp) in
  mkAcc (vnansum (S_ st) S_temp) L' (vnansum L' (nan_len l S_temp)) (S (a_ii st)).

Definition next (st : acc) : acc :=
  mkAcc (S_ st) (L_ st) (L_nan st) (S (a_ii st)).

(** The [while] loop of lines 395-402.  [a_ii] grows at each turn and
    stays below [len(a) - 1], so [len(a)] turns are enough. *)
Fixpoint while_mid (fuel : nat) (yx : list srow) (a : list nat)
    (n_bins ii_bin : nat) (b1 : Q) (st : acc) : acc :=
  match fuel with
  | O => st
  | S fuel' =>
      let r := at_ yx (nth (a_ii st) a O) in
      if Nat.leb (ii_bin + 1) (n_bins - 1)
         && Nat.ltb (a_ii st) (List.length a - 1)
         && Qltb (c1 r - b1) (- TOL)
      then while_mid fuel' yx a n_bins ii_bin b1
             (next (add_piece st (vals r) (c1 r - c0 r)))
      else st
  end.

(** What one target bin emits: the value and the weight of every
    variable, and the two boundaries pushed on [y_step]. *)
Record emitted : Type := mkE {
  x_e : list fl;
  w_e : list fl;
  lo_e : Q;
  hi_e : Q
}.

(** Lines 381-435 for the bin [ii_bin], once [a] is known non-empty. *)
Definition bin_body (yx : list srow) (y_bins : list Q) (n_var : nat)
    (fill_extremity : bool) (ii_bin : nat) (a : list nat) : emitted :=
  let b0 := nth ii_bin y_bins 0 in
  let b1 := nth (ii_bin + 1) y_bins 0 in
  let st := mkAcc (repeat nan n_var) (repeat (Some 0) n_var)
                  (repeat (Some 0) n_var) O in
  let r := at_ yx (nth (a_ii st) a O) in
  let st :=
    if Qltb (c0 r - b0) (- TOL)
    then add_first st (vals r) (c1 r - b0)
    else st in
  let st := while_mid (List.length a) yx a (List.length y_bins) ii_bin b1 st in
  let st :=
    if Nat.ltb (a_ii st) (List.length a) then
      let r := at_ yx (nth (a_ii st) a O) in
      if Qltb (- TOL) (c1 r - b1)
      then add_piece st (vals r) (b1 - c0 r)
      else if Qltb (c1 r - b1) (- TOL)
      then add_piece st (vals r) (c1 r - c0 r)
      else st
    else st in
  let w := map (fun l => fdiv l (Some (b1 - b0))) (L_ st) in
  let L := map (fun l => match l with
                         | Some q => if Qeq_bool q 0 then nan else l
                         | None => l
                         end) (L_ st) in
  let S := map2 fdiv (S_ st) L in
  let first := at_ yx (nth O a O) in
  let last_ := at_ yx (last a O) in
  if Qltb TOL (c0 first - b0) && negb fill_extremity
  then mkE S w (c0 first) b1
  else if Qltb (c1 last_ - b1) (- TOL) && negb fill_extremity
  then mkE S w b0 (c1 last_)
  else mkE S w b0 b1.

(** One turn of the loop over the bins (lines 370-435): nothing is
    emitted for a bin that selects no section. *)
Definition bin_step (yx : list srow) (y_bins : list Q) (n_var : nat)
    (fill_extremity : bool) (ii_bin : nat) : option emitted :=
  let a := select yx (nth ii_bin y_bins 0) (nth (ii_bin + 1) y_bins 0) in
  match a with
  | [] => None
  | _ => Some (bin_body yx y_bins n_var fill_extremity ii_bin a)
  end.

(** The whole loop: the emitted bins in order. *)
Definition bins_loop (yx : list srow) (y_bins : list Q) (n_var : nat)
    (fill_extremity : bool) : list emitted :=
  flat_map (fun ii_bin =>
              match bin_step yx y_bins n_var fill_extremity ii_bin with
              | Some e => [e]
              | None => []
              end)
           (seq 0 (List.length y_bins - 1)).

(** Lines 323-329: an all-NaN section is inserted where two consecutive
    sections do not meet.  The loop variable [row] survives the loop (and
    the previous variable group): with a single section the loop does not
    run and [yx[row+1]] reads the stale or unbound [row]. *)
Fixpoint fill_sections (n_var : nat) (yx : list srow) : list srow :=
  match yx with
  | r :: ((r' :: _) as t) =>
      if Qltb TOL (Qabs (c1 r - c0 r'))
      then r :: mkS (c1 r) (c0 r') (repeat nan n_var) :: fill_sections n_var t
      else r :: fill_sections n_var t
  | _ => []
  end.

Definition insert_missing (n_var : nat) (row : option nat) (yx : list srow)
  : outcome (list srow * option nat) :=
  let n := List.length yx in
  let row' := match n with
              | O | S O => row
              | S (S k) => Some k
              end in
  match row' with
  | None => Raise UnboundLocalError
  | Some k =>
      match nth_error yx (k + 1) with
      | None => Raise IndexError
      | Some r => Ret (fill_sections n_var yx ++ [r], row')
      end
  end.

(** Lines 354-367: a descending sequence is reversed. *)
Definition all_neg (l : list Q) : bool := forallb (fun d => Qltb d 0) l.

Definition ascend_bins (y_bins : list Q) : list Q :=
  if all_neg (diff y_bins) then rev y_bins else y_bins.

Definition ascend_rows (yx : list srow) : list srow :=
  if all_neg (diff (map c0 yx)) then rev yx else yx.

(** One output section (lines 440-448): bounds, midpoint, then the
    weights and the values of the variables. *)
Record section : Type := mkSec {
  s_low : Q; s_mid : Q; s_sup : Q;
  s_w : list fl;
  s_x : list fl
}.

Fixpoint sections_of (u : list Q) (es : list emitted) : list section :=
  match u, es with
  | lo :: ((hi :: _) as t), e :: es' =>
      mkSec lo (lo + (hi - lo) / 2) hi (w_e e) (x_e e) :: sections_of t es'
  | _, _ => []
  end.

(** [numpy.vstack] needs as many boundaries, less one, as emitted bins;
    with no bin at all the stacked arrays are flat and the frame gets
    five columns, which fits a single variable only. *)
Definition assemble (n_var : nat) (es : list emitted) : outcome (list section) :=
  let y_step := flat_map (fun e => [lo_e e; hi_e e]) es in
  let u := np_uniqueQ y_step in
  match es with
  | [] => if Nat.eqb n_var 1 then Ret [] else Raise ValueError
  | _ => if Nat.eqb (List.length u - 1) (List.length es)
         then Ret (sections_of u es)
         else Raise ValueError
  end.

End Step.

(* ================================================================== *)
(** * The continuous resampler (point-sampled profiles) *)

Module Cont.

Import Num Py.
Local Open Scope Q_scope.
Local Open Scope py_scope.

(** [sort_values] / [sort_index] on a finite key, ascending. *)
Section Sorting.
Context {A : Type} (key : A -> Q).

Fixpoint insert_by (x : A) (l : list A) : list A :=
  match l with
  | [] => [x]
  | y :: t => if Qltb (key x) (key y) then x :: l else y :: insert_by x t
  end.

Definition sort_by (l : list A) : list A := fold_right insert_by [] (rev l).

End Sorting.

(** Float arithmetic, NaN propagating. *)
Definition fadd (x y : fl) : fl :=
  match x, y with Some a, Some b => Some (a + b) | _, _ => None end.
Definition fsub (x y : fl) : fl :=
  match x, y with Some a, Some b => Some (a - b) | _, _ => None end.

(** [numpy.interp(x, xp, fp, left=nan, right=nan)] at one abscissa, for
    increasing [xp]; [pts] pairs [xp] with [fp]. *)
Fixpoint interp_in (x : Q) (pts : list (Q * fl)) : fl :=
  match pts with
  | [] => nan
  | [(_, f0)] => f0
  | (x0, f0) :: (((x1, f1) :: _) as t) =>
      if Qltb x x1 then
        if Qeq_bool x x0 then f0
        else fadd (fmulq (fdiv (fsub f1 f0) (Some (x1 - x0))) (x - x0)) f0
      else interp_in x t
  end.

Definition last_x (pts : list (Q * fl)) : Q := fst (last pts (0, nan)).
Definition first_x (pts : list (Q * fl)) : Q := fst (hd (0, nan) pts).

Definition np_interp (x : Q) (pts : list (Q * fl)) : fl :=
  if Qltb x (first_x pts) then nan
  else if Qltb (last_x pts) x then nan
  else interp_in x pts.

(** A line of [yx] or of [y2x]: the depth (the index) and one value per
    variable. *)
Definition line : Type := (Q * list fl)%type.

(** [yx[_var]] paired with the index, for the variable of rank [j]. *)
Definition column (j : nat) (yx : list line) : list (Q * fl) :=
  map (fun l => (fst l, nth j (snd l) nan)) yx.

(** Lines 261-264: every variable interpolated at every target depth. *)
Definition interpolate (n_var : nat) (yx : list line) (y2 : list Q) : list line :=
  map (fun y => (y, map (fun j => np_interp y (column j yx)) (seq 0 n_var))) y2.

(** [abs(y - index) < 1e-6] *)
Definition near (index y : Q) : bool := Qltb (Qabs (y - index)) TOL.

(** An assignment [y2x.loc[mask, _variables] = values], [values] having
    one line per source line at the depth: a single line is broadcast,
    several lines must be as many as the target lines selected. *)
Fixpoint assign_lines (mask : Q -> bool) (values : list (list fl)) (y2x : list line)
  : list line :=
  match y2x with
  | [] => []
  | (y, v) :: t =>
      if mask y then
        match values with
        | v' :: rest => (y, v') :: assign_lines mask rest t
        | [] => (y, v) :: assign_lines mask values t
        end
      else (y, v) :: assign_lines mask values t
  end.

Definition set_lines (mask : Q -> bool) (values : list (list fl)) (y2x : list line)
  : outcome (list line) :=
  let k := List.length (filter (fun l => mask (fst l)) y2x) in
  match values with
  | [v] => Ret (map (fun l => if mask (fst l) then (fst l, v) else l) y2x)
  | _ => if Nat.eqb (List.length values) k
         then Ret (assign_lines mask values y2x)
         else Raise ValueError
  end.

(** [yx.loc[yx.index == index, _variables].values] *)
Definition values_at (index : Q) (yx : list line) : list (list fl) :=
  map snd (filter (fun l => Qeq_bool (fst l) index) yx).

(** Lines 265-266: a target depth that meets a source depth takes the
    source values. *)
Definition copy_exact (yx : list line) (y2x : list line) : outcome (list line) :=
  ofor_each (map fst yx)
            (fun index y2x => set_lines (near index) (values_at index yx) y2x)
            y2x.

(** [yx.index[0]] and [yx.index[-1]] *)
Definition first_depth (yx : list line) : Q := fst (hd (0, []) yx).
Definition last_depth (yx : list line) : Q := fst (last yx (0, [])).

(** Line 269 *)
Definition weight_of (yx : list line) (y : Q) : Q :=
  if Qle_bool (first_depth yx - TOL) y && Qle_bool y (last_depth yx + TOL)
  then 1 else 0.

(** Lines 272-277 for one extremum [index] of the source: when no target
    depth meets it, [y2x.loc[index, _variables] = ...] writes the line
    labelled [index], appending it when the label is new, and one more
    weight 0 is appended. *)
Definition add_extremum (yx : list line) (y2 : list Q) (index : Q)
    (st : list line * list Q) : outcome (list line * list Q) :=
  let (y2x, w) := st in
  if negb (existsb (near index) y2) then
    if existsb (fun l => Qeq_bool (fst l) index) y2x then
      y2x' <~ set_lines (fun y => Qeq_bool y index) (values_at index yx) y2x ;;
      Ret (y2x', w ++ [0])
    else
      match values_at index yx with
      | [v] => Ret (y2x ++ [(index, v)], w ++ [0])
      | _ => Raise ValueError
      end
  else Ret st.

(** One output line: depth, values, weight. *)
Record point : Type := mkP { p_y : Q; p_x : list fl; p_w : Q }.

(** Lines 260-282 on a non-empty sorted source [yx]. *)
Definition resample (n_var : nat) (yx : list line) (y_mid : list Q)
  : outcome (list point) :=
  match yx with
  | [] => Raise ValueError
  | _ =>
      let y2 := y_mid in
      let y2x := interpolate n_var yx y2 in
      y2x <~ copy_exact yx y2x ;;
      let w := map (weight_of yx) y_mid in
      st <~ add_extremum yx y2 (first_depth yx) (y2x, w) ;;
      st <~ add_extremum yx y2 (last_depth yx) st ;;
      let (y2x, w) := st in
      if Nat.eqb (List.length w) (List.length y2x)
      then Ret (sort_by p_y (map2 (fun l w => mkP (fst l) (snd l) w) y2x w))
      else Raise ValueError
  end.

End Cont.

(* ================================================================== *)
(** * discretize_profile *)

Module Discretize.

Import Num Py Frame.
Local Open Scope string_scope.
Local Open Scope list_scope.
Local Open Scope py_scope.

(** Module constant [subvariable_dict]. *)
Definition subvariable_dict : list (string * list string) :=
  [("conductivity", ["conductivity measurement temperature"])].

(** [subvariable_dict[v]] when [v in subvariable_dict], else nothing. *)
Definition subvariables (v : string) : list string :=
  match find (fun kv => String.eqb v (fst kv)) subvariable_dict with
  | Some kv => snd kv
  | None => []
  end.

(** [is_continuous] *)
Definition is_continuous (profile : DataFrame) : bool :=
  if has_col profile "y_low"
     && forallb (fun r => isnan (y_low r)) (rows profile)
     && negb (match rows profile with [] => true | _ => false end)
  then true
  else if negb (has_col profile "y_low") then true
  else false.

(** Lines 234-252: the variables to resample and those to drop. *)
Definition classify_one (st : list string * list string) (_variable : string)
  : list string * list string :=
  let (_variables, _del_variables) := st in
  if negb (mem _variable ["conductivity"]) then
    let _variables :=
      if negb (mem _variable _variables) then _variables ++ [_variable]
      else _variables in
    (_variables ++ subvariables _variable, _del_variables)
  else
    (_variables, (_del_variables ++ [_variable]) ++ subvariables _variable).

Definition classify (properties : list string) : list string * list string :=
  fold_left classify_one properties ([], []).

(** The warning of line 247, once per property that is not resampled. *)
Definition classify_log (properties : list string) : M unit :=
  for_each properties
    (fun v _ => if mem v ["conductivity"]
                then warning (v ++ " variable cannot be discretized")%string
                else ret tt) tt.

Fixpoint dropna (l : list fl) : list Q :=
  match l with
  | [] => []
  | Some q :: t => q :: dropna t
  | None :: t => dropna t
  end.

Definition halves (l : list Q) : list Q := map (fun d => (d / 2)%Q) l.

(** Lines 209-225: the target edges and midpoints. *)
Definition targets (profile : DataFrame) (y_bins y_mid : option (list Q))
  : outcome (list Q * list Q) :=
  match y_bins, y_mid with
  | None, None =>
      if has_col profile "y_low" && has_col profile "y_sup"
         && has_col profile "y_mid"
      then Ret (Step.np_uniqueQ (dropna (map y_low (rows profile))
                                 ++ dropna (map y_sup (rows profile))),
                Step.np_uniqueQ (dropna (map Frame.y_mid (rows profile))))
      else Raise AttributeError
  | None, Some y_mid =>
      let y_mid := Cont.sort_by (fun y => y) y_mid in
      let dy := halves (Step.diff y_mid) in
      match y_mid, dy with
      | m0 :: _, d0 :: _ =>
          let y_bins := ((m0 - d0) :: map2 Qplus (removelast y_mid) dy)
                        ++ [last y_mid 0 + last dy 0] in
          let y_bins := match y_bins with
                        | b :: t => if Qltb b 0 then 0%Q :: t else y_bins
                        | [] => y_bins
                        end in
          Ret (y_bins, y_mid)
      | _, _ => Raise IndexError
      end
  | Some y_bins, _ =>
      Ret (y_bins, map2 Qplus (halves (Step.diff y_bins)) (removelast y_bins))
  end%Q.

(** [temp.update(other)] on the property columns: NaN does not
    overwrite. *)
Definition update_props (other l : list (string * fl)) : list (string * fl) :=
  fold_left (fun l kv => if isnan (snd kv) then l else assign (fst kv) (snd kv) l)
            other l.

(** The attributes of the first row of the group, broadcast on every
    output row: the depth columns and the variables are dropped, the tag
    [variable] becomes the resampled variables. *)
Definition static_row (first : Row) (_variables _del_variables : list string) : Row :=
  mkRow (name first) (join _variables) (v_ref first)
        (ice_thickness first) (core_length first) nan nan nan
        (filter (fun kv => negb (mem (fst kv) (_variables ++ _del_variables)))
                (props first)).

Definition all_cols (profile : DataFrame) (l : list string) : bool :=
  forallb (has_col profile) l.

(** Lines 260-296, the continuous branch for one group. *)
Definition continuous_group (profile : DataFrame) (grp : list Row)
    (_variables _del_variables : list string) (y_mid : list Q)
  : outcome (list Row) :=
  if negb (all_cols profile ("y_mid" :: _variables)) then Raise KeyError else
  match _variables with [] => Raise NotModelled | _ =>
  match dropna (map Frame.y_mid grp) with
  | depths =>
    if negb (Nat.eqb (List.length depths) (List.length grp)) then Raise NotModelled else
    let yx := Cont.sort_by fst
                (map2 (fun d r => (d, map (fun v => prop v r) _variables)) depths grp) in
    pts <~ Cont.resample (List.length _variables) yx y_mid ;;
    if negb (all_cols profile (_variables ++ _del_variables)) then Raise KeyError else
    match grp with
    | [] => Raise IndexError
    | first :: _ =>
        let st := static_row first _variables _del_variables in
        Ret (map (fun p =>
                    let num := update_props (combine _variables (Cont.p_x p)) [] in
                    let num := assign "weight" (Some (Cont.p_w p)) num in
                    set_props (fun _ => update_props (props st) num)
                      (set_depths nan (Some (Cont.p_y p)) nan st)) pts)
    end
  end end.

Definition bounds (r : Row) : option (Q * Q) :=
  match y_low r, y_sup r with
  | Some lo, Some su => Some (lo, su)
  | _, _ => None
  end.

Fixpoint all_some {A} (l : list (option A)) : option (list A) :=
  match l with
  | [] => Some []
  | Some a :: t => option_map (cons a) (all_some t)
  | None :: _ => None
  end.

(** Lines 311-320: the array [yx], sorted on [y_low].  A profile
    referenced to the bottom keeps the column order [y_sup, y_low] unless
    its first section has [y_sup > y_low]. *)
Definition matrix (v_ref : string) (grp : list Row) (_variables : list string)
  : outcome (list Step.srow) :=
  match all_some (map bounds grp) with
  | None => Raise NotModelled
  | Some bs =>
      let lines := Cont.sort_by (fun l => fst (fst l))
                     (map2 (fun b r => (b, map (fun v => prop v r) _variables)) bs grp) in
      let direct := map (fun l => Step.mkS (fst (fst l)) (snd (fst l)) (snd l)) lines in
      let swapped := map (fun l => Step.mkS (snd (fst l)) (fst (fst l)) (snd l)) lines in
      if String.eqb v_ref "bottom" then
        match lines with
        | l :: _ => if Qltb (fst (fst l)) (snd (fst l)) then Ret direct else Ret swapped
        | [] => Ret direct
        end
      else Ret direct
  end.

(** What the loop over the variable groups carries: the rows appended so
    far, the target edges (reversed in place when descending) and the
    Python variable [row] of the section loop. *)
Record state : Type := mkSt {
  out : list Row;
  out_cols : list string;
  bins : list Q;
  row_var : option nat
}.

(** Lines 308-460, the step branch for one group. *)
Definition step_group (profile : DataFrame) (v_ref : string) (grp : list Row)
    (_variables _del_variables : list string) (fill_extremity : bool) (st : state)
  : outcome (list Row * list Q * option nat) :=
  let n_var := List.length _variables in
  if negb (all_cols profile ("y_low" :: "y_sup" :: _variables)) then Raise KeyError else
  yx <~ matrix v_ref grp _variables ;;
  filled <~ Step.insert_missing n_var (row_var st) yx ;;
  let (yx, row) := filled in
  let y_bins := Step.ascend_bins (bins st) in
  let yx := Step.ascend_rows yx in
  secs <~ Step.assemble n_var (Step.bins_loop yx y_bins n_var fill_extremity) ;;
  if negb (all_cols profile ("y_mid" :: _variables ++ _del_variables))
  then Raise KeyError else
  match grp with
  | [] => Raise IndexError
  | first :: _ =>
      let static := static_row first _variables _del_variables in
      let w_variables := map (fun v => ("w_" ++ v)%string) _variables in
      Ret (map (fun s =>
                  let num := update_props (combine w_variables (Step.s_w s)) [] in
                  let num := update_props (combine _variables (Step.s_x s)) num in
                  set_props (fun _ => update_props (props static) num)
                    (set_depths (Some (Step.s_low s)) (Some (Step.s_mid s))
                                (Some (Step.s_sup s)) static)) secs,
           y_bins, row)
  end.

(** [DataFrame.append(temp, sort=False)] on the column labels. *)
Definition union_cols (l l' : list string) : list string :=
  fold_left (fun acc c => if mem c acc then acc else acc ++ [c]) l' l.

(** The body of the loop over [profile.variable.unique()]. *)
Definition group_body (profile : DataFrame) (v_ref : string) (y_mid : list Q)
    (fill_extremity : bool) (variable : string) (st : state) : M state :=
  let grp := group_rows variable (rows profile) in
  let _profile := mkFrame (columns profile) grp in
  properties <- lift (from_option AttributeError (get_property _profile)) ;;
  classify_log properties ;;;
  let (_variables, _del_variables) := classify properties in
  if is_continuous _profile then
    temp <- lift (continuous_group profile grp _variables _del_variables y_mid) ;;
    ret (mkSt (out st ++ temp)
              (union_cols (out_cols st) (union_cols (columns profile) ["weight"]))
              (bins st) (row_var st))
  else
    res <- lift (step_group profile v_ref grp _variables _del_variables
                            fill_extremity st) ;;
    let '(temp, y_bins, row) := res in
    ret (mkSt (out st ++ temp)
              (union_cols (out_cols st)
                 (union_cols (columns profile) (map (fun v => ("w_" ++ v)%string) _variables)))
              y_bins row).

(** [discretize_profile(profile, y_bins, y_mid, fill_extremity=...)],
    with [display_figure] and [fill_gap] left at their default [False]. *)
Definition discretize_profile (profile : DataFrame) (y_bins y_mid : option (list Q))
    (fill_extremity : bool) : M DataFrame :=
  (if empty profile
   then warning "Discretization impossible, empty profile"
   else ret tt) ;;;
  v_ref <- lift (if has_col profile "v_ref"
                 then match rows profile with
                      | r :: _ => Ret (Frame.v_ref r)
                      | [] => Raise IndexError
                      end
                 else Raise AttributeError) ;;
  tg <- lift (targets profile y_bins y_mid) ;;
  let (y_bins, y_mid) := tg in
  (if has_col profile "variable" then ret tt else raise AttributeError) ;;;
  st <- for_each (groups profile)
          (group_body profile v_ref y_mid fill_extremity)
          (mkSt [] [] y_bins None) ;;
  ret (mkFrame (out_cols st) (out st)).

End Discretize.

(* ================================================================== *)
(** * The expressions [delete_profile] hands to [eval] *)

(** [delete_profile] builds the text of a Python expression and evaluates
    it.  This module embeds [eval] on the fragment of the expression
    grammar such a text can use: names, decimal numbers, attribute
    references, subscriptions, parentheses, [!=] and [|], with the
    precedence of Python ([|] binds tighter than [!=]).  A text outside
    the fragment is a [SyntaxError] here. *)

Module Expr.

Import Num Py Frame.
Local Open Scope string_scope.
Local Open Scope list_scope.

Inductive token : Type :=
| TLPAR | TRPAR | TDOT | TNEQ | TBAR | TLBRACK | TRBRACK
| TNAME (s : string)
| TKEYWORD (s : string)
| TNUM (n : nat).

Definition in_range (lo hi : nat) (c : ascii) : bool :=
  Nat.leb lo (nat_of_ascii c) && Nat.leb (nat_of_ascii c) hi.

Definition is_digit (c : ascii) : bool := in_range 48 57 c.
Definition is_start (c : ascii) : bool :=
  in_range 97 122 c || in_range 65 90 c || Ascii.eqb c "_".
Definition is_part (c : ascii) : bool := is_start c || is_digit c.

Definition keywords : list string :=
  ["False"; "None"; "True"; "and"; "as"; "assert"; "async"; "await"; "break";
   "class"; "continue"; "def"; "del"; "elif"; "else"; "except"; "finally";
   "for"; "from"; "global"; "if"; "import"; "in"; "is"; "lambda"; "nonlocal";
   "not"; "or"; "pass"; "raise"; "return"; "try"; "while"; "with"; "yield"].

Definition name_token (s : string) : token :=
  if mem s keywords then TKEYWORD s else TNAME s.

Definition num_token (s : string) : option token :=
  option_map (fun d => TNUM (Nat.of_uint d)) (NilEmpty.uint_of_string s).

(** The scanner: what it is in the middle of. *)
Inductive lstate : Type :=
| LIdle
| LName (acc : string)
| LNum (acc : string)
| LBang.

Definition snoc (s : string) (c : ascii) : string := (s ++ String c EmptyString)%string.

Definition idle_step (c : ascii) : option (list token * lstate) :=
  if Ascii.eqb c " " then Some ([], LIdle)
  else if is_start c then Some ([], LName (String c EmptyString))
  else if is_digit c then Some ([], LNum (String c EmptyString))
  else if Ascii.eqb c "(" then Some ([TLPAR], LIdle)
  else if Ascii.eqb c ")" then Some ([TRPAR], LIdle)
  else if Ascii.eqb c "." then Some ([TDOT], LIdle)
  else if Ascii.eqb c "|" then Some ([TBAR], LIdle)
  else if Ascii.eqb c "[" then Some ([TLBRACK], LIdle)
  else if Ascii.eqb c "]" then Some ([TRBRACK], LIdle)
  else if Ascii.eqb c "!" then Some ([], LBang)
  else None.

Definition after (t : token) (r : option (list token * lstate))
  : option (list token * lstate) :=
  option_map (fun p => (t :: fst p, snd p)) r.

Definition lstep (st : lstate) (c : ascii) : option (list token * lstate) :=
  match st with
  | LIdle => idle_step c
  | LName acc =>
      if is_part c then Some ([], LName (snoc acc c))
      else after (name_token acc) (idle_step c)
  | LNum acc =>
      if is_digit c then Some ([], LNum (snoc acc c))
      else if is_start c then None
      else match num_token acc with
           | Some t => after t (idle_step c)
           | None => None
           end
  | LBang => if Ascii.eqb c "=" then Some ([TNEQ], LIdle) else None
  end.

Definition flush (st : lstate) : option (list token) :=
  match st with
  | LIdle => Some []
  | LName acc => Some [name_token acc]
  | LNum acc => option_map (fun t => [t]) (num_token acc)
  | LBang => None
  end.

(** Scanning a piece of text from a state: the tokens completed and the
    state reached. *)
Fixpoint scan (st : lstate) (s : string) : option (list token * lstate) :=
  match s with
  | EmptyString => Some ([], st)
  | String c s' =>
      match lstep st c with
      | None => None
      | Some (ts, st') =>
          option_map (fun p => (ts ++ fst p, snd p)) (scan st' s')
      end
  end.

Definition lex (s : string) : option (list token) :=
  match scan LIdle s with
  | None => None
  | Some (ts, st) => option_map (app ts) (flush st)
  end.

Inductive expr : Type :=
| EName (s : string)
| ENum (n : nat)
| EAttr (e : expr) (s : string)
| EIndex (e i : expr)
| ENeq (l r : expr)
| EOr (l r : expr).

(** The parser reads the tokens once, with a stack of the enclosing
    brackets.  In each bracket level: the left operand of a pending [!=],
    the [|]-chain read so far, the primary being read, and whether a dot
    awaits its name. *)
Record level : Type := mkL {
  cmp_left : option expr;
  or_left : option expr;
  cur : option expr;
  dotted : bool
}.

Inductive bracket : Type := Paren | Subscript.

Record pstate : Type := mkPS {
  top : level;
  enclosing : list (bracket * level)
}.

Definition fresh : level := mkL None None None false.

Definition mk_or (l : option expr) (e : expr) : expr :=
  match l with None => e | Some l => EOr l e end.

(** The expression of a completed bracket level. *)
Definition close (c : level) : option expr :=
  match dotted c, cur c with
  | false, Some e =>
      let b := mk_or (or_left c) e in
      Some (match cmp_left c with None => b | Some l => ENeq l b end)
  | _, _ => None
  end.

Definition with_cur (c : level) (e : option expr) : level :=
  mkL (cmp_left c) (or_left c) e false.

Definition pstep (st : pstate) (t : token) : option pstate :=
  let c := top st in
  if dotted c then
    match t, cur c with
    | TNAME s, Some e => Some (mkPS (with_cur c (Some (EAttr e s))) (enclosing st))
    | _, _ => None
    end
  else
    match t, cur c with
    | TNAME s, None => Some (mkPS (with_cur c (Some (EName s))) (enclosing st))
    | TNUM n, None => Some (mkPS (with_cur c (Some (ENum n))) (enclosing st))
    | TDOT, Some e => Some (mkPS (mkL (cmp_left c) (or_left c) (Some e) true) (enclosing st))
    | TLPAR, None => Some (mkPS fresh ((Paren, c) :: enclosing st))
    | TLBRACK, Some _ => Some (mkPS fresh ((Subscript, c) :: enclosing st))
    | TRPAR, Some _ =>
        match close c, enclosing st with
        | Some v, (Paren, c') :: rest => Some (mkPS (with_cur c' (Some v)) rest)
        | _, _ => None
        end
    | TRBRACK, Some _ =>
        match close c, enclosing st with
        | Some v, (Subscript, c') :: rest =>
            match cur c' with
            | Some e => Some (mkPS (with_cur c' (Some (EIndex e v))) rest)
            | None => None
            end
        | _, _ => None
        end
    | TBAR, Some e =>
        Some (mkPS (mkL (cmp_left c) (Some (mk_or (or_left c) e)) None false)
                   (enclosing st))
    | TNEQ, Some e =>
        match cmp_left c with
        | None => Some (mkPS (mkL (Some (mk_or (or_left c) e)) None None false)
                             (enclosing st))
        | Some _ => None
        end
    | _, _ => None
    end.

Fixpoint psteps (st : pstate) (ts : list token) : option pstate :=
  match ts with
  | [] => Some st
  | t :: ts' => match pstep st t with
                | Some st' => psteps st' ts'
                | None => None
                end
  end.

Definition parse (ts : list token) : option expr :=
  match psteps (mkPS fresh []) ts with
  | Some (mkPS c []) => close c
  | _ => None
  end.

(** What an expression evaluates to, with [ics_stack] and [ii_var] in
    scope. *)
Inductive value : Type :=
| VFrame (df : DataFrame)
| VList (l : list cell)
| VInt (n : nat)
| VCell (c : cell)
| VSeries (l : list cell)
| VMask (l : list bool).

Fixpoint eval_expr (ics_stack : DataFrame) (ii_var : list cell) (e : expr)
  : outcome value :=
  match e with
  | EName s =>
      if String.eqb s "ics_stack" then Ret (VFrame ics_stack)
      else if String.eqb s "ii_var" then Ret (VList ii_var)
      else Raise NameError
  | ENum n => Ret (VInt n)
  | EAttr e k =>
      obind (eval_expr ics_stack ii_var e) (fun v =>
        match v with
        | VFrame df =>
            if has_col df k then Ret (VSeries (map (cell_of k) (rows df)))
            else Raise AttributeError
        | _ => Raise NotModelled
        end)
  | EIndex e i =>
      obind (eval_expr ics_stack ii_var e) (fun v =>
      obind (eval_expr ics_stack ii_var i) (fun vi =>
        match v, vi with
        | VList l, VInt n => from_option IndexError (option_map VCell (nth_error l n))
        | _, _ => Raise NotModelled
        end))
  | ENeq l r =>
      obind (eval_expr ics_stack ii_var l) (fun vl =>
      obind (eval_expr ics_stack ii_var r) (fun vr =>
        match vl, vr with
        | VSeries s, VCell c => Ret (VMask (map (fun x => cell_neq x c) s))
        | _, _ => Raise NotModelled
        end))
  | EOr l r =>
      obind (eval_expr ics_stack ii_var l) (fun vl =>
      obind (eval_expr ics_stack ii_var r) (fun vr =>
        match vl, vr with
        | VMask m, VMask m' => Ret (VMask (map2 orb m m'))
        | _, _ => Raise NotModelled
        end))
  end.

(** [eval(text)] *)
Definition py_eval (text : string) (ics_stack : DataFrame) (ii_var : list cell)
  : outcome value :=
  match lex text with
  | None => Raise SyntaxError
  | Some ts =>
      match parse ts with
      | None => Raise SyntaxError
      | Some e => eval_expr ics_stack ii_var e
      end
  end.

(** [df.loc[mask]] for a boolean mask. *)
Fixpoint keep {A} (mask : list bool) (l : list A) : list A :=
  match mask, l with
  | b :: m, x :: t => if b then x :: keep m t else keep m t
  | _, _ => []
  end.

Definition loc (df : DataFrame) (v : value) : outcome DataFrame :=
  match v with
  | VMask m => Ret (mkFrame (columns df) (keep m (rows df)))
  | _ => Raise NotModelled
  end.

End Expr.

(* ================================================================== *)
(** * Selection, deletion, orientation, uniformisation *)

Module Ops.

Import Num Py Frame.
Local Open Scope string_scope.
Local Open Scope list_scope.
Local Open Scope py_scope.

(** ['%d' % ii] *)
Definition fmt_d (ii : nat) : string := NilEmpty.string_of_uint (Nat.to_uint ii).

(** [s[:-4]] *)
Definition drop_last4 (s : string) : string :=
  substring 0 (String.length s - 4) s.

(** The three variables of the loop of [delete_profile]. *)
Record sel : Type := mkSel {
  str_select : string;
  ii_var : list cell;
  ii : nat
}.

Definition delete_profile_step (ics_stack : DataFrame) (st : sel)
    (kv : string * cell) : sel :=
  let ii_key := fst kv in
  if has_col ics_stack ii_key then
    mkSel (str_select st ++ "ics_stack." ++ ii_key ++ "!=ii_var["
             ++ fmt_d (ii st) ++ "]) | (")%string
          (ii_var st ++ [snd kv])
          (S (ii st))
  else st.

(** [delete_profile(ics_stack, variable_dict)]; the dictionary is the list
    of its items in insertion order. *)
Definition delete_profile (ics_stack : DataFrame) (variable_dict : list (string * cell))
  : outcome DataFrame :=
  let st := fold_left (delete_profile_step ics_stack) variable_dict
                      (mkSel "(" [] 0) in
  let str_select := drop_last4 (str_select st) in
  v <~ Expr.py_eval str_select ics_stack (ii_var st) ;;
  Expr.loc ics_stack v.

(** [list.remove(x)]: the first occurrence goes. *)
Fixpoint remove_first (x : string) (l : list string) : list string :=
  match l with
  | [] => []
  | y :: t => if String.eqb y x then t else y :: remove_first x t
  end.

(** [df.drop(c, axis=1, inplace=True)] *)
Definition drop (c : string) (df : DataFrame) : outcome DataFrame :=
  if has_col df c
  then Ret (mkFrame (filter (fun c' => negb (String.eqb c' c)) (columns df))
                    (map (set_props (remove_key c)) (rows df)))
  else Raise KeyError.

(** Lines 547-551: for each group whose tag holds [variable], the
    statement [ics_stack['variable'] = ...] writes the column. *)
Definition retag (variable : string) (ics_stack : DataFrame) : DataFrame :=
  fold_left
    (fun df group =>
       let new_group := split group in
       if mem variable new_group
       then mkFrame (columns df)
                    (map (set_variable (join (remove_first variable new_group)))
                         (rows df))
       else df)
    (groups ics_stack) ics_stack.

Definition delete_variable (variable : string) (ics_stack : DataFrame)
  : outcome DataFrame :=
  ics_stack <~
    (if has_col ics_stack variable then
       properties <~ from_option TypeError (get_property ics_stack) ;;
       if mem variable properties then
         ics_stack <~ drop variable ics_stack ;;
         ofor_each (Discretize.subvariables variable) drop ics_stack
       else Ret ics_stack
     else Ret ics_stack) ;;
  if has_col ics_stack "variable"
  then Ret (retag variable ics_stack)
  else Raise AttributeError.

(** [delete_variables(ics_stack, variables2del)]; a single name stands
    for the list of that name.  The final [dropna] is not in place and its
    result is discarded. *)
Definition delete_variables (ics_stack : DataFrame) (variables2del : list string)
  : outcome DataFrame :=
  ofor_each variables2del delete_variable ics_stack.

(** Lines 502-509: the ice thickness of the group, else its length. *)
Definition core_len (profile : DataFrame) (grp : list Row) : option Q :=
  if has_col profile "ice_thickness"
     && negb (forallb (fun r => isnan (ice_thickness r)) grp)
  then hd_error (Discretize.dropna (map ice_thickness grp))
  else if has_col profile "length"
          && negb (forallb (fun r => isnan (core_length r)) grp)
  then hd_error (Discretize.dropna (map core_length grp))
  else None.

(** [lc - x] *)
Definition from_length (lc : Q) (x : fl) : fl := option_map (fun x => (lc - x)%Q) x.

(** Lines 520-524 on one row of the group: [new_df] then
    [profile.update(new_df)]. *)
Definition reorient (lc : Q) (r : Row) : Row :=
  mkRow (name r) (Frame.variable r) "bottom" (ice_thickness r) (core_length r)
        (from_length lc (y_low r)) (from_length lc (y_mid r))
        (from_length lc (y_sup r)) (props r).

Definition missing_length_msg (profile : DataFrame) (v_ref : string) : string :=
  ("Mising core length or ice thickness, impossible to set profile orientation to "
     ++ v_ref ++ ".                    Deleting profile"
     ++ (if has_col profile "name"
         then " (" ++ match rows profile with r :: _ => name r | [] => "" end ++ ")"
         else ""))%string.

(** The body of the loop of [set_profile_orientation] for one group. *)
Definition orient_group (v_ref : string) (variable : string) (profile : DataFrame)
  : M DataFrame :=
  let grp := group_rows variable (rows profile) in
  (if has_col profile "v_ref" then ret tt else raise AttributeError) ;;;
  (if Nat.ltb 1 (List.length (unique (map Frame.v_ref grp)))
   then error "vertical reference for profile are not consistent"
   else ret tt) ;;;
  current <- lift (from_option IndexError (hd_error (unique (map Frame.v_ref grp)))) ;;
  if negb (String.eqb current v_ref) then
    match core_len profile grp with
    | None =>
        warning (missing_length_msg profile v_ref) ;;;
        lift (delete_profile profile [("variable", Str variable)])
    | Some lc =>
        if Discretize.all_cols profile ["y_low"; "y_mid"; "y_sup"]
        then ret (mkFrame (columns profile)
                    (map (fun r => if String.eqb (Frame.variable r) variable
                                   then reorient lc r else r)
                         (rows profile)))
        else raise KeyError
    end
  else ret profile.

(** [set_profile_orientation(profile, v_ref)].  The groups are those of
    the profile on entry; the body runs on the profile as it stands. *)
Definition set_profile_orientation (profile : DataFrame) (v_ref : string)
  : M DataFrame :=
  (if has_col profile "variable" then ret tt else raise AttributeError) ;;;
  for_each (groups profile) (orient_group v_ref) profile.

(** [x + y / 2], as lines 661 and 671 write the derived depth. *)
Definition low_plus_half_sup (r : Row) : fl :=
  Cont.fadd (y_low r) (option_map (fun y => (y / 2)%Q) (y_sup r)).

(** Lines 657-664: the target depths. *)
Definition target_depths (profile_target : DataFrame) : outcome (list Q) :=
  if negb (has_col profile_target "y_mid") then Raise AttributeError else
  if negb (Discretize.is_continuous profile_target) then
    if negb (forallb (fun r => isnan (y_mid r)) (rows profile_target))
    then Ret (Discretize.dropna (map y_mid (rows profile_target)))
    else if has_col profile_target "y_sup"
    then Ret (Discretize.dropna (map low_plus_half_sup (rows profile_target)))
    else Raise AttributeError
  else Ret (Discretize.dropna (map y_mid (rows profile_target))).

Definition sort_fl (key : Row -> fl) (l : list Row) : list Row :=
  Cont.sort_by (fun r => nz (key r)) (filter (fun r => negb (isnan (key r))) l)
  ++ filter (fun r => isnan (key r)) l.

(** Lines 666-671: the source rows, sorted, with their depths. *)
Definition source_rows (profile : DataFrame) : outcome (list Row) :=
  if Discretize.is_continuous profile then
    if has_col profile "y_mid" then Ret (sort_fl y_mid (rows profile))
    else Raise KeyError
  else
    let sorted := sort_fl y_low (rows profile) in
    if negb (has_col profile "y_mid") then Raise AttributeError else
    if existsb (fun r => isnan (y_mid r)) sorted then
      if negb (has_col profile "y_sup") then Raise AttributeError else
      let derived := Discretize.dropna (map low_plus_half_sup sorted) in
      if Nat.eqb (List.length derived) (List.length sorted)
      then Ret (map2 (fun r y => set_y_mid (Some y) r) sorted derived)
      else Raise ValueError
    else Ret sorted.

Fixpoint increasing (l : list Q) : bool :=
  match l with
  | x :: ((y :: _) as t) => Qle_bool x y && increasing t
  | _ => true
  end.

(** One row of the frame [uniformize_section] builds on line 677. *)
Record resampled : Type := mkR {
  u_value : fl;
  u_y_mid : Q;
  u_variable : string
}.

(** [uniformize_section(profile, profile_target)], up to line 677: the
    columns the frame is created with.  The attribute columns copied
    afterwards from the target are not embedded. *)
Definition uniformize_section (profile profile_target : DataFrame)
  : outcome (list resampled) :=
  y_mid <~ target_depths profile_target ;;
  source <~ source_rows profile ;;
  if negb (has_col profile "variable") then Raise AttributeError else
  variable <~ from_option IndexError (hd_error (unique (map Frame.variable source))) ;;
  if negb (has_col profile variable) then Raise KeyError else
  match source with
  | [] => Raise ValueError
  | _ =>
      let xp := Discretize.dropna (map Frame.y_mid source) in
      if negb (Nat.eqb (List.length xp) (List.length source) && increasing xp)
      then Raise NotModelled
      else
        let pts := map2 (fun x r => (x, prop variable r)) xp source in
        Ret (map (fun y => mkR (Cont.np_interp y pts) y variable) y_mid)
  end.

End Ops.

(* ================================================================== *)
(** * Methods of Profile, select_variable, s_nan *)

Module Methods.

Import Num Py Frame.
Local Open Scope string_scope.
Local Open Scope list_scope.
Local Open Scope py_scope.

(** [self['variable'] = s]: the column is written on every row, and
    created when the frame has none. *)
Definition write_variable (s : string) (self : DataFrame) : DataFrame :=
  mkFrame (if has_col self "variable" then columns self
           else columns self ++ ["variable"])
          (map (set_variable s) (rows self)).

(** The body of the loop of [Profile.delete_property] (lines 123-130),
    on the frame and the list [new_property]. *)
Definition delete_property_step (prop : string) (st : DataFrame * list string)
  : outcome (DataFrame * list string) :=
  let (self, new_property) := st in
  current <~ from_option TypeError (get_property self) ;;
  if mem prop current then
    self <~ Ops.drop prop self ;;
    if negb (mem prop new_property) then Raise ValueError else
    let new_property := Ops.remove_first prop new_property in
    self <~ ofor_each (Discretize.subvariables prop) Ops.drop self ;;
    Ret (self, new_property)
  else Ret st.

(** [Profile.delete_property(property)]; a single name stands for the
    list of that name.  Without a column [variable] the list
    [new_property] is [None], which neither [in] nor [join] accepts. *)
Definition delete_property (self : DataFrame) (property : list string)
  : outcome DataFrame :=
  match get_property self with
  | None => Raise TypeError
  | Some new_property =>
      st <~ ofor_each property delete_property_step (self, new_property) ;;
      Ret (write_variable (join (snd st)) (fst st))
  end.

(** [self[prop].isnull().all()] *)
Definition null_cell (c : cell) : bool :=
  match c with
  | Str _ => false
  | Num x => isnan x
  end.

Definition all_null (prop : string) (self : DataFrame) : bool :=
  forallb (fun r => null_cell (cell_of prop r)) (rows self).

(** [self.drop(columns=empty, axis=1, inplace=True)] *)
Definition drop_columns (cs : list string) (self : DataFrame) : outcome DataFrame :=
  if forallb (has_col self) cs
  then Ret (mkFrame (filter (fun c => negb (mem c cs)) (columns self))
                    (map (set_props (filter (fun kv => negb (mem (fst kv) cs))))
                         (rows self)))
  else Raise KeyError.

(** [Profile.drop_empty_property()] *)
Definition drop_empty_property (self : DataFrame) : outcome DataFrame :=
  properties <~ from_option TypeError (get_property self) ;;
  if negb (forallb (has_col self) properties) then Raise KeyError else
  let empty := filter (fun prop => all_null prop self) properties in
  let kept := filter (fun prop => negb (mem prop empty)) properties in
  drop_columns empty (write_variable (join kept) self).

(** [x - h_ref] on one depth. *)
Definition lower (h_ref : Q) (x : fl) : fl := option_map (fun x => (x - h_ref)%Q) x.

(** Lines 157-161 on one row. *)
Definition shift (h_ref : Q) (r : Row) : Row :=
  set_depths (lower h_ref (y_low r)) (lower h_ref (y_mid r)) (lower h_ref (y_sup r)) r.

(** [Profile.set_vertical_reference(h_ref, new_v_ref)].  The result is
    the same with [inplace] set or not.  When no reference is given and
    those of the profile disagree, the orientation is asked for the
    reference [None]; this path is not embedded. *)
Definition set_vertical_reference (profile : DataFrame) (h_ref : option Q)
    (new_v_ref : option string) : M DataFrame :=
  new_v_ref <-
    match new_v_ref with
    | Some v => ret (Some v)
    | None =>
        if negb (has_col profile "v_ref") then raise AttributeError else
        let refs := unique (map v_ref (rows profile)) in
        if Nat.ltb 1 (List.length refs)
        then error "vertical reference for profile are not consistent" ;;; ret None
        else v <- lift (from_option IndexError (hd_error refs)) ;; ret (Some v)
    end ;;
  match new_v_ref with
  | None => raise NotModelled
  | Some v =>
      new_profile <- Ops.set_profile_orientation profile v ;;
      match h_ref with
      | None => ret new_profile
      | Some h =>
          if Discretize.all_cols new_profile ["y_low"; "y_mid"; "y_sup"]
          then ret (mkFrame (columns new_profile) (map (shift h) (rows new_profile)))
          else raise KeyError
      end
  end.

(** The body of the loop of [select_variable]. *)
Definition select_variable_step (variable : string) (group : string)
    (ics_stack : DataFrame) : outcome DataFrame :=
  let variable_group := split group in
  if mem variable variable_group then
    if negb (has_col ics_stack "variable") then Raise AttributeError else
    let ics_stack := mkFrame (columns ics_stack) (group_rows group (rows ics_stack)) in
    properties <~ from_option TypeError (get_property ics_stack) ;;
    let variables2del :=
      filter (fun _var => negb (String.eqb _var variable)) properties in
    Ops.delete_variables ics_stack variables2del
  else Ret ics_stack.

(** [select_variable(ics_stack, variable)]: the groups are those of the
    stack on entry. *)
Definition select_variable (ics_stack : DataFrame) (variable : string)
  : outcome DataFrame :=
  if has_col ics_stack "variable"
  then ofor_each (groups ics_stack) (select_variable_step variable) ics_stack
  else Raise AttributeError.

(** [s_nan(yx, ii_yx, fill_gap)], deprecated.  [col] is the column
    [yx[:, 2]]; the index is taken within the array. *)
Section Gap.
Variable col : list fl.

Definition at_2 (i : nat) : fl := nth i col nan.

(** The first loop: down from [l] while the value is NaN, not below 0. *)
Fixpoint scan_down (l : nat) : nat :=
  match l with
  | O => O
  | S l' => if isnan (at_2 l) then scan_down l' else l
  end.

(** The second loop: up from [s] while the value is NaN, not beyond the
    last index. *)
Fixpoint scan_up (fuel s : nat) : nat :=
  match fuel with
  | O => s
  | S fuel' =>
      if Nat.ltb s (List.length col - 1) && isnan (at_2 s)
      then scan_up fuel' (S s)
      else s
  end.

Definition s_nan (ii_yx : nat) (fill_gap : bool) : outcome fl :=
  if negb (Nat.ltb ii_yx (List.length col)) then Raise IndexError else
  if isnan (at_2 ii_yx) && fill_gap then
    let ii_yx_l := scan_down (ii_yx - 1) in
    let s_l := if Nat.ltb 0 ii_yx_l then at_2 ii_yx_l else nan in
    let ii_yx_s := scan_up (List.length col) ii_yx in
    let s_s := at_2 ii_yx_s in
    Ret (fdiv (Cont.fadd s_s s_l) (Some 2%Q))
  else Ret (at_2 ii_yx).

End Gap.

End Methods.

(* ================================================================== *)
(** * Inputs and predicates the statements use *)

Module Cases.

Import Num Py Frame.
Local Open Scope string_scope.
Local Open Scope list_scope.
Local Open Scope Q_scope.



(** The warning an empty profile is met with. *)
Definition empty_warning : record :=
  Log WARNING "Discretization impossible, empty profile".

(** A profile with the columns of a section profile and no row. *)
Definition no_rows : DataFrame :=
  mkFrame ["name"; "variable"; "v_ref"; "y_low"; "y_mid"; "y_sup"; "salinity"] [].

(** A core of salinity referenced to the bottom, of length 10, with one
    section [0, 10]. *)
Definition bottom_core : DataFrame :=
  mkFrame ["name"; "variable"; "v_ref"; "length"; "y_low"; "y_mid"; "y_sup";
           "salinity"]
    [ mkRow "core1" "salinity" "bottom" nan (Some 10)
            (Some 0) (Some 5) (Some 10) [("salinity", Some 5)] ].

(** A stack of two variable groups, one row each. *)
Definition two_groups : DataFrame :=
  mkFrame ["name"; "variable"; "v_ref"; "y_low"; "y_mid"; "y_sup";
           "temperature"; "salinity"]
    [ mkRow "core1" "temperature" "top" nan nan nan (Some 5) nan
            [("temperature", Some (-5))];
      mkRow "core1" "salinity" "top" nan nan (Some 0) (Some 5) (Some 10)
            [("salinity", Some 5)] ].

(** A section profile whose midpoints are missing: one section
    [10, 20]. *)
Definition no_midpoint : DataFrame :=
  mkFrame ["name"; "variable"; "v_ref"; "y_low"; "y_mid"; "y_sup"; "salinity"]
    [ mkRow "core1" "salinity" "top" nan nan (Some 10) nan (Some 20)
            [("salinity", Some 5)] ].

(** A column label that Python reads as one name: a letter or an
    underscore, then letters, digits and underscores, and not a keyword. *)
Fixpoint all_chars (p : ascii -> bool) (s : string) : bool :=
  match s with
  | EmptyString => true
  | String c s' => p c && all_chars p s'
  end.

Definition is_identifier (s : string) : bool :=
  match s with
  | EmptyString => false
  | String c s' => Expr.is_start c && all_chars Expr.is_part s'
  end && negb (mem s Expr.keywords).

(** The criteria [delete_profile] takes into account: those whose key is
    a column of the stack. *)
Definition usable (ics_stack : DataFrame) (variable_dict : list (string * cell))
  : list (string * cell) :=
  filter (fun kv => has_col ics_stack (fst kv)) variable_dict.

(** The row differs from the given value on one criterion at least. *)
Definition differs (criteria : list (string * cell)) (r : Row) : bool :=
  existsb (fun kv => cell_neq (cell_of (fst kv) r) (snd kv)) criteria.


(** The reference of a variable group as [set_profile_orientation] reads
    it: that of its first row. *)
Definition current_ref (g : string) (l : list Row) : option string :=
  hd_error (map v_ref (group_rows g l)).

(** The group exists and its reference is not the requested one. *)
Definition must_reorient (v_ref g : string) (l : list Row) : bool :=
  match current_ref g l with
  | Some c => negb (String.eqb c v_ref)
  | None => false
  end.

(** Neither an ice thickness nor a length is available for the group: the
    column is absent or holds NaN on every row of the group. *)
Definition lacks_length (profile : DataFrame) (g : string) : bool :=
  (negb (has_col profile "ice_thickness")
   || forallb (fun r => isnan (ice_thickness r)) (group_rows g (rows profile)))
  && (negb (has_col profile "length")
      || forallb (fun r => isnan (core_length r)) (group_rows g (rows profile))).

Definition unorientable (profile : DataFrame) (v_ref g : string) : bool :=
  must_reorient v_ref g (rows profile) && lacks_length profile g.

(** What a reorientation leaves untouched in a row. *)
Definition identity (r : Row)
  : string * string * fl * fl * list (string * fl) :=
  (name r, variable r, ice_thickness r, core_length r, props r).

(** A core of two groups referenced to the bottom: salinity has no
    length, temperature has one. *)
Definition half_measured : DataFrame :=
  mkFrame ["name"; "variable"; "v_ref"; "length"; "y_low"; "y_mid"; "y_sup";
           "temperature"; "salinity"]
    [ mkRow "core1" "salinity" "bottom" nan nan (Some 0) (Some 5) (Some 10)
            [("salinity", Some 5)];
      mkRow "core1" "temperature" "bottom" nan (Some 20) nan (Some 5) nan
            [("temperature", Some (-5))];
      mkRow "core1" "salinity" "bottom" nan nan (Some 10) (Some 15) (Some 20)
            [("salinity", Some 7)] ].

(** [lo] is the least, [hi] the greatest, of the depths [ds]. *)
Definition is_min (lo : Q) (ds : list Q) : Prop :=
  In lo ds /\ forall d, In d ds -> lo <= d.
Definition is_max (hi : Q) (ds : list Q) : Prop :=
  In hi ds /\ forall d, In d ds -> d <= hi.

Definition all_nan (v : list fl) : Prop := Forall (fun x => x = nan) v.

(** A temperature profile measured at the depths 0, 10 and 20. *)
Definition three_points : list Cont.line :=
  [(10, [Some (-4)]); (0, [Some (-2)]); (20, [Some (-6)])].

(** The length a section shares with the bin [[b0, b1]]. *)
Definition overlap (b0 b1 : Q) (r : Step.srow) : Q :=
  Qmax 0 (Qmin (Step.c1 r) b1 - Qmax (Step.c0 r) b0).

(** The section carries a value, not NaN, for the variable of rank [j]. *)
Definition valid (j : nat) (r : Step.srow) : bool :=
  negb (isnan (nth j (Step.vals r) nan)).

(** The length of the bin covered by the sections, whatever they hold. *)
Definition covered (b0 b1 : Q) (yx : list Step.srow) : Q :=
  fold_right (fun r s => overlap b0 b1 r + s) 0 yx.

(** The length of the bin covered by sections that hold a value for the
    variable of rank [j]. *)
Definition covered_valid (j : nat) (b0 b1 : Q) (yx : list Step.srow) : Q :=
  fold_right (fun r s => (if valid j r then overlap b0 b1 r else 0) + s) 0 yx.

(** A depth that is a bin edge or lies more than the tolerance from it. *)
Definition clear_of (e y : Q) : Prop := y == e \/ y < e - TOL \/ e + TOL < y.

Definition aligned (b0 b1 : Q) (r : Step.srow) : Prop :=
  clear_of b0 (Step.c0 r) /\ clear_of b0 (Step.c1 r)
  /\ clear_of b1 (Step.c0 r) /\ clear_of b1 (Step.c1 r).

(** Sections in order, none reaching into the next. *)
Definition before (r r' : Step.srow) : Prop := Step.c1 r <= Step.c0 r'.




End Cases.

(* ================================================================== *)
(** * Floats: comparison *)

Module NumFacts.

Import Num.
Local Open Scope Q_scope.

Lemma Qltb_lt x y : Qltb x y = true <-> x < y.
Proof.
  unfold Qltb. rewrite negb_true_iff.
  split; intro H.
  - apply Qnot_le_lt. intro Hle. apply Qle_bool_iff in Hle. congruence.
  - destruct (Qle_bool y x) eqn:E; [|reflexivity].
    apply Qle_bool_iff in E. exfalso. apply (Qlt_not_le _ _ H E).
Qed.

Lemma Qltb_ge x y : Qltb x y = false <-> y <= x.
Proof.
  unfold Qltb. rewrite negb_false_iff. apply Qle_bool_iff.
Qed.

End NumFacts.

(* ================================================================== *)
(** * The weight of a bin in the step resampling *)

Module StepFacts.
Import Num Py Step NumFacts.
Local Open Scope list_scope.

(** ** The selection of a bin *)

Section Indices.
Local Open Scope nat_scope.

Ltac in_cases :=
  let H := fresh in
  (split; intro H; cbn in *; repeat (destruct H as [H|H]); subst; auto).

Lemma insert_uniq_In x y l : In y (insert_uniq x l) <-> y = x \/ In y l.
Proof.
  induction l as [|z l IH]; cbn [insert_uniq]; [in_cases|].
  destruct (Nat.ltb x z); [in_cases|].
  destruct (Nat.eqb x z) eqn:E.
  - apply Nat.eqb_eq in E. subst z. in_cases.
  - cbn [In]. rewrite IH. in_cases.
Qed.

Lemma insert_uniq_sorted x l :
  StronglySorted lt l -> StronglySorted lt (insert_uniq x l).
Proof.
  induction 1 as [|z l Hs IH Hz]; cbn [insert_uniq]; [repeat constructor|].
  destruct (Nat.ltb x z) eqn:E1.
  - apply Nat.ltb_lt in E1. constructor; [now constructor|].
    constructor; [exact E1|]. rewrite Forall_forall in *. intros y Hy.
    specialize (Hz y Hy). lia.
  - destruct (Nat.eqb x z) eqn:E2; [now constructor|].
    apply Nat.ltb_ge in E1. apply Nat.eqb_neq in E2.
    constructor; [exact IH|]. rewrite Forall_forall in *. intros y Hy.
    apply insert_uniq_In in Hy as [->|Hy]; [lia | now apply Hz].
Qed.

Lemma np_unique_In y l : In y (np_unique l) <-> In y l.
Proof.
  unfold np_unique. induction l as [|x l IH]; cbn [fold_right]; [tauto|].
  rewrite insert_uniq_In, IH. in_cases.
Qed.

Lemma np_unique_sorted l : StronglySorted lt (np_unique l).
Proof.
  unfold np_unique. induction l as [|x l IH]; cbn [fold_right]; [constructor|].
  now apply insert_uniq_sorted.
Qed.

Lemma sorted_unique_eq (l1 : list nat) : forall l2,
  StronglySorted lt l1 -> StronglySorted lt l2 ->
  (forall x, In x l1 <-> In x l2) -> l1 = l2.
Proof.
  induction l1 as [|a l1 IH]; intros [|b l2] H1 H2 Hin.
  - reflexivity.
  - exfalso. apply (proj2 (Hin b)). now left.
  - exfalso. apply (proj1 (Hin a)). now left.
  - inversion H1 as [|? ? H1' Ha]; inversion H2 as [|? ? H2' Hb]; subst.
    rewrite Forall_forall in Ha, Hb.
    assert (a = b).
    { destruct (proj1 (Hin a) (or_introl eq_refl)) as [E|Ea]; [now symmetry|].
      destruct (proj2 (Hin b) (or_introl eq_refl)) as [E|Eb]; [assumption|].
      specialize (Ha b Eb). specialize (Hb a Ea). lia. }
    subst b. f_equal. apply IH; try assumption.
    intro x. split; intro Hx.
    + destruct (proj1 (Hin x) (or_intror Hx)) as [E|Hx']; [|assumption].
      subst x. specialize (Ha a Hx). lia.
    + destruct (proj2 (Hin x) (or_intror Hx)) as [E|Hx']; [|assumption].
      subst x. specialize (Hb a Hx). lia.
Qed.

Lemma flatnonzero_from_In mask : forall i k,
  In k (flatnonzero_from i mask)
  <-> i <= k < i + List.length mask /\ nth (k - i) mask false = true.
Proof.
  induction mask as [|b mask IH]; intros i k; cbn [flatnonzero_from List.length].
  - cbn. split; [tauto | lia].
  - assert (Hstep : In k (flatnonzero_from (S i) mask)
                    <-> i < k < i + S (List.length mask)
                        /\ nth (k - i) (b :: mask) false = true).
    { rewrite IH. split; intros [Hr Hn]; (split; [lia|]).
      - replace (k - i) with (S (k - S i)) by lia. exact Hn.
      - replace (k - i) with (S (k - S i)) in Hn by lia. exact Hn. }
    destruct b.
    + cbn [In]. rewrite Hstep. split.
      * intros [<-|[Hr Hn]]; [|split; [lia | exact Hn]].
        split; [lia|]. now rewrite Nat.sub_diag.
      * intros [Hr Hn]. destruct (Nat.eq_dec i k) as [E|E]; [now left|].
        right. split; [lia | exact Hn].
    + rewrite Hstep. split; intros [Hr Hn]; (split; [lia | exact Hn]) || idtac.
      destruct (Nat.eq_dec i k) as [E|E].
      * subst k. rewrite Nat.sub_diag in Hn. discriminate Hn.
      * split; [lia | exact Hn].
Qed.

Lemma seq_sorted n : forall i, StronglySorted lt (seq i n).
Proof.
  induction n as [|n IH]; intro i; cbn; [constructor|].
  constructor; [apply IH|]. apply Forall_forall. intros k Hk.
  apply in_seq in Hk. lia.
Qed.

Lemma filter_sorted {A} (R : A -> A -> Prop) (p : A -> bool) l :
  StronglySorted R l -> StronglySorted R (filter p l).
Proof.
  induction 1 as [|x l Hs IH Hx]; cbn; [constructor|].
  destruct (p x); [|exact IH]. constructor; [exact IH|].
  rewrite Forall_forall in *. intros y Hy. apply filter_In in Hy as [Hy _].
  now apply Hx.
Qed.

Lemma nth_map_in {A B} (f : A -> B) (l : list A) k d d' :
  k < List.length l -> nth k (map f l) d' = f (nth k l d).
Proof.
  intro H. rewrite (nth_indep _ d' (f d)) by now rewrite length_map.
  apply map_nth.
Qed.

Lemma map_nth_all {A} (l : list A) d :
  map (fun i => nth i l d) (seq 0 (List.length l)) = l.
Proof.
  induction l as [|x l IH]; [reflexivity|].
  cbn [List.length seq map nth]. f_equal.
  rewrite <- seq_shift, map_map. exact IH.
Qed.

Lemma filter_map_comm {A B} (f : A -> B) (p : B -> bool) (l : list A) :
  filter p (map f l) = map f (filter (fun x => p (f x)) l).
Proof.
  induction l as [|x l IH]; cbn; [reflexivity|].
  destruct (p (f x)); cbn; now rewrite IH.
Qed.

(** The test of lines 371-373 on one section. *)
Definition selected (b0 b1 : Q) (r : srow) : bool :=
  straddles b0 r || inside b0 b1 r || straddles b1 r.

Lemma flatnonzero_In (f : srow -> bool) (yx : list srow) k :
  In k (flatnonzero (map f yx)) <-> k < List.length yx /\ f (at_ yx k) = true.
Proof.
  unfold flatnonzero. rewrite flatnonzero_from_In, length_map, Nat.sub_0_r.
  split; intros [Hk Hf]; (split; [lia|]).
  - rewrite (@nth_map_in _ _ f yx k dummy false) in Hf by lia. exact Hf.
  - rewrite (@nth_map_in _ _ f yx k dummy false) by lia. exact Hf.
Qed.

Lemma select_filter yx b0 b1 :
  select yx b0 b1
  = filter (fun i => selected b0 b1 (at_ yx i)) (seq 0 (List.length yx)).
Proof.
  apply sorted_unique_eq.
  - apply np_unique_sorted.
  - apply filter_sorted, seq_sorted.
  - intro k. unfold select. rewrite np_unique_In, !in_app_iff, !flatnonzero_In.
    rewrite filter_In, in_seq. unfold selected.
    destruct (straddles b0 (at_ yx k)), (inside b0 b1 (at_ yx k)),
             (straddles b1 (at_ yx k)); cbn; intuition (try lia; try discriminate).
Qed.

Lemma select_rows yx b0 b1 :
  map (at_ yx) (select yx b0 b1) = filter (selected b0 b1) yx.
Proof.
  rewrite select_filter, <- filter_map_comm. unfold at_.
  now rewrite map_nth_all.
Qed.

End Indices.
(** ** The accumulation, read on the selected sections *)

Section Rows.
Local Open Scope Q_scope.

Variables (b0 b1 : Q).

(** The [while] loop on the sections still to visit: it stops on the
    last one, or on one that reaches the end of the bin. *)
Fixpoint walk (rows : list srow) (st : acc) : acc :=
  match rows with
  | r :: ((_ :: _) as t) =>
      if Qltb (c1 r - b1) (- TOL)
      then walk t (next (add_piece st (vals r) (c1 r - c0 r)))
      else st
  | _ => st
  end.

(** The number of turns of the loop. *)
Fixpoint steps (rows : list srow) : nat :=
  match rows with
  | r :: ((_ :: _) as t) => if Qltb (c1 r - b1) (- TOL) then S (steps t) else O
  | _ => O
  end.

(** Lines 405-419 on the section the loop stopped on. *)
Definition last_piece (r : srow) (st : acc) : acc :=
  if Qltb (- TOL) (c1 r - b1) then add_piece st (vals r) (b1 - c0 r)
  else if Qltb (c1 r - b1) (- TOL) then add_piece st (vals r) (c1 r - c0 r)
  else st.

Definition finish (rows : list srow) (st : acc) : acc :=
  match skipn (steps rows) rows with
  | r :: _ => last_piece r (walk rows st)
  | [] => walk rows st
  end.

Definition start (n_var : nat) : acc :=
  mkAcc (repeat nan n_var) (repeat (Some 0) n_var) (repeat (Some 0) n_var) O.

(** The accumulators of the bin after lines 381-419. *)
Definition rows_state (n_var : nat) (R : list srow) : acc :=
  match R with
  | [] => start n_var
  | r0 :: X =>
      if Qltb (c0 r0 - b0) (- TOL)
      then finish X (add_first (start n_var) (vals r0) (c1 r0 - b0))
      else finish R (start n_var)
  end.

Lemma walk_cons r r' t st :
  walk (r :: r' :: t) st
  = if Qltb (c1 r - b1) (- TOL)
    then walk (r' :: t) (next (add_piece st (vals r) (c1 r - c0 r)))
    else st.
Proof. reflexivity. Qed.

Lemma steps_cons r r' t :
  steps (r :: r' :: t)
  = if Qltb (c1 r - b1) (- TOL) then S (steps (r' :: t)) else O.
Proof. reflexivity. Qed.

Lemma walk_index rows : forall st,
  a_ii (walk rows st) = (a_ii st + steps rows)%nat.
Proof.
  induction rows as [|r rows IH]; intro st; [cbn; lia|].
  destruct rows as [|r' t]; [cbn; lia|]. rewrite walk_cons, steps_cons.
  destruct (Qltb (c1 r - b1) (- TOL)); [|lia].
  rewrite IH. cbn [next add_piece a_ii]. lia.
Qed.

Lemma skipn_cons_inv {A} (l : list A) : forall k x t d,
  skipn k l = x :: t ->
  nth k l d = x /\ skipn (S k) l = t /\ (k < List.length l)%nat.
Proof.
  induction l as [|y l IH]; intros k x t d H.
  - destruct k; discriminate H.
  - destruct k as [|k].
    + cbn in H. injection H as -> ->. cbn. repeat split. lia.
    + cbn [skipn] in H. destruct (IH k x t d H) as (Hn & Hs & Hl).
      cbn [nth List.length]. repeat split; [exact Hn | exact Hs | lia].
Qed.

Lemma skipn_nil_inv {A} (l : list A) : forall k,
  skipn k l = [] -> (List.length l <= k)%nat.
Proof.
  induction l as [|y l IH]; intros k H; [cbn; lia|].
  destruct k; [discriminate H|]. cbn [skipn] in H. cbn. apply IH in H. lia.
Qed.

Lemma while_walk yx a n_bins ii_bin : forall fuel st,
  (ii_bin + 1 <= n_bins - 1)%nat ->
  (List.length a - a_ii st <= fuel)%nat ->
  while_mid fuel yx a n_bins ii_bin b1 st
  = walk (map (at_ yx) (skipn (a_ii st) a)) st.
Proof.
  induction fuel as [|fuel IH]; intros st Hg Hf.
  - cbn [while_mid]. rewrite skipn_all2 by lia. reflexivity.
  - cbn [while_mid]. apply Nat.leb_le in Hg. rewrite Hg. cbn [andb].
    destruct (skipn (a_ii st) a) as [|x [|y t]] eqn:E.
    + apply skipn_nil_inv in E.
      replace (Nat.ltb (a_ii st) (List.length a - 1)) with false; [reflexivity|].
      symmetry. apply Nat.ltb_ge. lia.
    + destruct (skipn_cons_inv _ _ 0%nat E) as (_ & Hs & Hl).
      apply skipn_nil_inv in Hs.
      replace (Nat.ltb (a_ii st) (List.length a - 1)) with false; [reflexivity|].
      symmetry. apply Nat.ltb_ge. lia.
    + destruct (skipn_cons_inv _ _ 0%nat E) as (Hn & Hs & Hl).
      destruct (skipn_cons_inv _ _ 0%nat Hs) as (_ & _ & Hl').
      replace (Nat.ltb (a_ii st) (List.length a - 1)) with true
        by (symmetry; apply Nat.ltb_lt; lia).
      rewrite Hn. cbn [andb map]. rewrite walk_cons.
      destruct (Qltb (c1 (at_ yx x) - b1) (- TOL)); [|reflexivity].
      rewrite IH.
      * cbn [next add_piece a_ii]. rewrite Hs. reflexivity.
      * apply Nat.leb_le. exact Hg.
      * cbn [next add_piece a_ii]. lia.
Qed.

Lemma body_tail yx a n_bins ii_bin st1 :
  (ii_bin + 1 <= n_bins - 1)%nat ->
  let st2 := while_mid (List.length a) yx a n_bins ii_bin b1 st1 in
  (if Nat.ltb (a_ii st2) (List.length a)
   then last_piece (at_ yx (nth (a_ii st2) a O)) st2
   else st2)
  = finish (map (at_ yx) (skipn (a_ii st1) a)) st1.
Proof.
  intros Hg st2. unfold st2. rewrite while_walk by (try assumption; lia).
  unfold finish. rewrite walk_index.
  set (X := map (at_ yx) (skipn (a_ii st1) a)).
  set (s := steps X).
  assert (HX : skipn s X = map (at_ yx) (skipn (a_ii st1 + s) a)).
  { unfold X. rewrite skipn_map, skipn_skipn. f_equal. f_equal. lia. }
  rewrite HX. destruct (skipn (a_ii st1 + s) a) as [|x t] eqn:E.
  - apply skipn_nil_inv in E. cbn [map].
    replace (Nat.ltb (a_ii st1 + s) (List.length a)) with false; [reflexivity|].
    symmetry. apply Nat.ltb_ge. exact E.
  - destruct (skipn_cons_inv _ _ 0%nat E) as (Hn & _ & Hl). cbn [map].
    replace (Nat.ltb (a_ii st1 + s) (List.length a)) with true
      by (symmetry; apply Nat.ltb_lt; exact Hl).
    now rewrite Hn.
Qed.

End Rows.

Lemma bin_state yx y_bins n_var ii_bin i0 a' :
  (ii_bin + 1 < List.length y_bins)%nat ->
  let b0 := nth ii_bin y_bins 0 in
  let b1 := nth (ii_bin + 1) y_bins 0 in
  let a := i0 :: a' in
  let st1 :=
    if Qltb (c0 (at_ yx i0) - b0) (- TOL)
    then add_first (start n_var) (vals (at_ yx i0)) (c1 (at_ yx i0) - b0)
    else start n_var in
  let st2 := while_mid (List.length a) yx a (List.length y_bins) ii_bin b1 st1 in
  (if Nat.ltb (a_ii st2) (List.length a)
   then last_piece b1 (at_ yx (nth (a_ii st2) a O)) st2
   else st2)
  = rows_state b0 b1 n_var (map (at_ yx) a).
Proof.
  intros Hlen b0 b1 a st1 st2. unfold st2.
  rewrite (@body_tail b1 yx a (List.length y_bins) ii_bin st1) by lia.
  unfold st1, a, rows_state. cbn [map].
  destruct (Qltb (c0 (at_ yx i0) - b0) (- TOL)); reflexivity.
Qed.

Lemma bin_body_weights yx y_bins n_var fill_extremity ii_bin a :
  a <> [] -> (ii_bin + 1 < List.length y_bins)%nat ->
  w_e (bin_body yx y_bins n_var fill_extremity ii_bin a)
  = map (fun l => fdiv l (Some (nth (ii_bin + 1) y_bins 0 - nth ii_bin y_bins 0)%Q))
        (L_ (rows_state (nth ii_bin y_bins 0) (nth (ii_bin + 1) y_bins 0) n_var
                        (map (at_ yx) a))).
Proof.
  intros Ha Hlen. destruct a as [|i0 a']; [congruence|].
  rewrite <- (@bin_state yx y_bins n_var ii_bin i0 a' Hlen).
  unfold bin_body. cbv zeta.
  match goal with
  | |- w_e (if ?c then _ else if ?c' then _ else _) = _ => destruct c, c'
  end; reflexivity.
Qed.

(** ** The length summed for one variable *)

Section Lengths.
Import Cases.
Local Open Scope Q_scope.

Variables (b0 b1 : Q) (j : nat).

(** The accumulator [L] holds [q] for the variable of rank [j]. *)
Definition holds (st : acc) (q : Q) : Prop :=
  exists q', nth_error (L_ st) j = Some (Some q') /\ q' == q.

(** What a section of length [l] adds to [L]. *)
Definition share (v : list fl) (l : Q) : Q :=
  if negb (isnan (nth j v nan)) then l else 0.

Lemma holds_eq st q q' : holds st q -> q == q' -> holds st q'.
Proof.
  intros (x & Hx & E) E'. exists x. split; [exact Hx|]. now rewrite E.
Qed.

Lemma nth_error_map2 {A B C} (f : A -> B -> C) : forall l l' k x y,
  nth_error l k = Some x -> nth_error l' k = Some y ->
  nth_error (map2 f l l') k = Some (f x y).
Proof.
  induction l as [|a l IH]; intros [|b l'] [|k] x y Hx Hy;
    try discriminate; cbn in *.
  - congruence.
  - now apply IH.
Qed.

Lemma nth_error_nth_some {A} (l : list A) k d :
  (k < List.length l)%nat -> nth_error l k = Some (nth k l d).
Proof.
  revert k. induction l as [|a l IH]; intros [|k] H; cbn in *; try lia.
  - reflexivity.
  - apply IH. lia.
Qed.

Lemma valid_len_nth v l :
  (j < List.length v)%nat ->
  exists q, nth_error (valid_len l (map (fun x => fmulq x l) v)) j = Some (Some q)
            /\ q == share v l.
Proof.
  intro H. unfold valid_len. rewrite map_map.
  exists (l * (if negb (isnan (fmulq (nth j v nan) l)) then 1 else 0)). split.
  - rewrite (@nth_error_nth_some _ _ j (qmask l (negb (isnan (fmulq nan l)))))
      by now rewrite length_map.
    f_equal. unfold qmask.
    rewrite (@nth_map_in _ _ (fun x => Some (l * (if negb (isnan (fmulq x l)) then 1 else 0)))
               v j nan) by exact H.
    reflexivity.
  - unfold share. destruct (nth j v nan); cbn; ring.
Qed.

Lemma add_piece_holds st v l q :
  holds st q -> (j < List.length v)%nat ->
  holds (add_piece st v l) (q + share v l).
Proof.
  intros (x & Hx & E) Hv. destruct (@valid_len_nth v l Hv) as (y & Hy & Ey).
  exists (x + y). split.
  - cbn [add_piece L_]. unfold vnansum.
    rewrite (nth_error_map2 nansum2 _ _ _ Hx Hy). reflexivity.
  - now rewrite E, Ey.
Qed.

Lemma add_first_holds st v l q :
  holds st q -> (j < List.length v)%nat ->
  holds (add_first st v l) (q + share v l).
Proof.
  intros (x & Hx & E) Hv. destruct (@valid_len_nth v l Hv) as (y & Hy & Ey).
  exists (x + y). split.
  - cbn [add_first L_]. unfold vnansum.
    rewrite (nth_error_map2 nansum2 _ _ _ Hx Hy). reflexivity.
  - now rewrite E, Ey.
Qed.

Lemma next_holds st q : holds st q -> holds (next st) q.
Proof. exact (fun H => H). Qed.

Lemma start_holds n_var : (j < n_var)%nat -> holds (start n_var) 0.
Proof.
  intro H. exists 0. split; [|reflexivity]. cbn [start L_].
  rewrite (@nth_error_nth_some _ _ j (Some 0)) by now rewrite repeat_length.
  f_equal. apply nth_repeat.
Qed.

Ltac split_minmax :=
  unfold overlap in *;
  repeat match goal with
  | H : context [Qmax 0 ?d] |- _ =>
      lazymatch goal with
      | _ : Qmax 0 d == _ |- _ => fail
      | _ => destruct (Q.max_spec 0 d) as [[? ?]|[? ?]]
      end
  | |- context [Qmax 0 ?d] =>
      lazymatch goal with
      | _ : Qmax 0 d == _ |- _ => fail
      | _ => destruct (Q.max_spec 0 d) as [[? ?]|[? ?]]
      end
  end;
  repeat match goal with
  | _ : context [Qmin ?a ?b] |- _ =>
      lazymatch goal with
      | _ : Qmin a b == _ |- _ => fail
      | _ => destruct (Q.min_spec a b) as [[? ?]|[? ?]]
      end
  | _ : context [Qmax ?a ?b] |- _ =>
      lazymatch goal with
      | _ : Qmax a b == _ |- _ => fail
      | _ => destruct (Q.max_spec a b) as [[? ?]|[? ?]]
      end
  end.

Lemma overlap_pos r : 0 < overlap b0 b1 r -> c0 r < b1 /\ b0 < c1 r.
Proof. intro H. split_minmax; split; lra. Qed.

Lemma overlap_inner r :
  b0 <= c0 r -> c0 r <= c1 r -> c1 r <= b1 -> overlap b0 b1 r == c1 r - c0 r.
Proof. intros. split_minmax; lra. Qed.

Lemma overlap_tail r :
  b0 <= c0 r -> c0 r <= b1 -> b1 <= c1 r -> overlap b0 b1 r == b1 - c0 r.
Proof. intros. split_minmax; lra. Qed.

Lemma overlap_head r :
  c0 r <= b0 -> b0 <= c1 r -> c1 r <= b1 -> overlap b0 b1 r == c1 r - b0.
Proof. intros. split_minmax; lra. Qed.

Lemma overlap_none r :
  c0 r <= c1 r -> (b1 <= c0 r \/ c1 r <= b0) -> b0 <= b1 -> overlap b0 b1 r == 0.
Proof. intros ? [?|?] ?; split_minmax; lra. Qed.

(** The part of a section that counts for the variable. *)
Definition counted (r : srow) : Q := if valid j r then overlap b0 b1 r else 0.

Lemma share_counted r l : overlap b0 b1 r == l -> share (vals r) l == counted r.
Proof.
  intro H. unfold share, counted, valid.
  destruct (negb (isnan (nth j (vals r) nan))); [now symmetry | reflexivity].
Qed.

Lemma piece_holds st r l q :
  holds st q -> (j < List.length (vals r))%nat -> overlap b0 b1 r == l ->
  holds (add_piece st (vals r) l) (q + counted r).
Proof.
  intros H Hj Hl. apply (holds_eq (@add_piece_holds st (vals r) l q H Hj)).
  now rewrite (@share_counted r l Hl).
Qed.

Lemma first_holds st r l q :
  holds st q -> (j < List.length (vals r))%nat -> overlap b0 b1 r == l ->
  holds (add_first st (vals r) l) (q + counted r).
Proof.
  intros H Hj Hl. apply (holds_eq (@add_first_holds st (vals r) l q H Hj)).
  now rewrite (@share_counted r l Hl).
Qed.

(** A section met from the start of the bin on. *)
Definition interior (r : srow) : Prop :=
  b0 <= c0 r /\ c0 r < b1 /\ c0 r < c1 r /\ clear_of b1 (c1 r)
  /\ (j < List.length (vals r))%nat.

Lemma last_piece_holds r st q :
  interior r -> holds st q -> holds (last_piece b1 r st) (q + counted r).
Proof.
  intros (H0 & H1 & H01 & Hc & Hj) H. unfold last_piece.
  destruct (Qltb (- TOL) (c1 r - b1)) eqn:E1.
  - apply Qltb_lt in E1. apply (@piece_holds st r _ q H Hj). apply overlap_tail; try lra.
    unfold clear_of, TOL in *. lra.
  - apply Qltb_ge in E1. destruct (Qltb (c1 r - b1) (- TOL)) eqn:E2.
    + apply Qltb_lt in E2. apply (@piece_holds st r _ q H Hj). apply overlap_inner; try lra.
      unfold TOL in *. lra.
    + apply Qltb_ge in E2. exfalso. unfold clear_of, TOL in *. lra.
Qed.

Lemma finish_step r r' t st :
  Qltb (c1 r - b1) (- TOL) = true ->
  finish b1 (r :: r' :: t) st
  = finish b1 (r' :: t) (next (add_piece st (vals r) (c1 r - c0 r))).
Proof.
  intro H. unfold finish. rewrite steps_cons, walk_cons, H. reflexivity.
Qed.

Lemma covered_valid_cons r X :
  covered_valid j b0 b1 (r :: X) = counted r + covered_valid j b0 b1 X.
Proof. reflexivity. Qed.

Lemma finish_holds X :
  StronglySorted before X -> Forall interior X ->
  forall st q, holds st q ->
  holds (finish b1 X st) (q + covered_valid j b0 b1 X).
Proof.
  induction X as [|r X IH]; intros Hs Hi st q H.
  - apply (holds_eq H). cbn. ring.
  - inversion Hs as [|? ? Hs' Hb]; subst. inversion Hi as [|? ? Hr Hi']; subst.
    destruct X as [|r' t].
    + change (finish b1 [r] st) with (last_piece b1 r st).
      apply (holds_eq (@last_piece_holds r st q Hr H)).
      rewrite covered_valid_cons. cbn [covered_valid fold_right]. ring.
    + assert (Hlt : c1 r < b1 - TOL).
      { inversion Hb as [|? ? Hrr' _]; subst. inversion Hi' as [|? ? Hr' _]; subst.
        destruct Hr as (_ & _ & _ & Hc & _). destruct Hr' as (_ & H1' & _).
        unfold before, clear_of, TOL in *. lra. }
      rewrite finish_step by (apply Qltb_lt; lra).
      destruct Hr as (H0 & H1 & H01 & Hc & Hj).
      assert (H' : holds (next (add_piece st (vals r) (c1 r - c0 r))) (q + counted r)).
      { apply next_holds, (@piece_holds st r _ q H Hj). apply overlap_inner; try lra.
        unfold TOL in *. lra. }
      apply (holds_eq (@IH Hs' Hi' _ _ H')).
      rewrite (covered_valid_cons r). ring.
Qed.

(** What is asked of a section: it has a length, its bounds are bin
    edges or clear of them, it does not hold the whole bin strictly
    inside, and it carries [n_var] values. *)
Definition regular (n_var : nat) (r : srow) : Prop :=
  c0 r < c1 r /\ aligned b0 b1 r /\ ~ (c0 r < b0 /\ b1 < c1 r)
  /\ List.length (vals r) = n_var.

Lemma Qle_bool_false x y : Qle_bool x y = false -> y < x.
Proof.
  intro H. apply Qnot_le_lt. intro Hle. apply Qle_bool_iff in Hle. congruence.
Qed.

Ltac to_Q :=
  repeat match goal with
  | H : _ || _ = true |- _ => apply orb_true_iff in H; destruct H as [H|H]
  | H : _ && _ = true |- _ => apply andb_true_iff in H; destruct H as [? ?]
  | H : _ || _ = false |- _ => apply orb_false_iff in H; destruct H as [? ?]
  | H : _ && _ = false |- _ => apply andb_false_iff in H; destruct H as [H|H]
  | H : Qltb _ _ = true |- _ => apply Qltb_lt in H
  | H : Qltb _ _ = false |- _ => apply Qltb_ge in H
  | H : Qle_bool _ _ = true |- _ => apply Qle_bool_iff in H
  | H : Qle_bool _ _ = false |- _ => apply Qle_bool_false in H
  end.

Ltac split_clear :=
  repeat match goal with
  | H : aligned _ _ _ |- _ => destruct H as (? & ? & ? & ?)
  | H : clear_of _ _ |- _ => destruct H as [H|[H|H]]
  end.

Lemma selected_meets n_var r :
  b0 < b1 -> regular n_var r -> selected b0 b1 r = true ->
  c0 r < b1 /\ b0 < c1 r.
Proof.
  intros Hb (Hl & Ha & _) H. unfold selected, straddles, inside in H.
  to_Q; split_clear; unfold TOL in *; split; lra.
Qed.

Lemma unselected_apart n_var r :
  b0 < b1 -> regular n_var r -> selected b0 b1 r = false ->
  overlap b0 b1 r == 0.
Proof.
  intros Hb (Hl & Ha & _) H. apply overlap_none; try lra.
  unfold selected, straddles, inside in H.
  destruct (Qlt_le_dec (c0 r) b1) as [H1|H1]; [|now left].
  destruct (Qlt_le_dec b0 (c1 r)) as [H2|H2]; [|now right].
  exfalso. to_Q; split_clear; unfold TOL in *; lra.
Qed.

Lemma covered_valid_selected n_var yx :
  b0 < b1 -> Forall (regular n_var) yx ->
  covered_valid j b0 b1 (filter (selected b0 b1) yx) == covered_valid j b0 b1 yx.
Proof.
  intros Hb. induction 1 as [|r yx Hr _ IH]; [reflexivity|].
  cbn [filter]. destruct (selected b0 b1 r) eqn:E.
  - rewrite !covered_valid_cons, IH. reflexivity.
  - rewrite covered_valid_cons, IH. unfold counted.
    pose proof (@unselected_apart n_var r Hb Hr E) as Hz.
    destruct (valid j r); lra.
Qed.

Lemma rows_state_holds n_var R :
  (j < n_var)%nat -> b0 < b1 ->
  StronglySorted before R ->
  Forall (fun r => regular n_var r /\ selected b0 b1 r = true) R ->
  holds (rows_state b0 b1 n_var R) (covered_valid j b0 b1 R).
Proof.
  intros Hj Hb Hs HR.
  assert (Hmeet : Forall (fun r => c0 r < c1 r /\ c0 r < b1 /\ b0 < c1 r
                                   /\ clear_of b1 (c1 r)
                                   /\ (j < List.length (vals r))%nat) R).
  { eapply Forall_impl; [|exact HR]. cbn beta. intros r (Hr & Hsel).
    destruct (@selected_meets n_var r Hb Hr Hsel) as (H1 & H2).
    destruct Hr as (Hl & (_ & _ & _ & Hc) & _ & Hn).
    repeat split; try assumption. lia. }
  destruct R as [|r0 X]; [apply (holds_eq (start_holds Hj)); reflexivity|].
  inversion Hs as [|? ? Hs' Hb0]; subst.
  inversion HR as [|? ? (Hr0 & _) _]; subst.
  inversion Hmeet as [|? ? (Hl0 & H10 & H20 & Hc0 & Hj0) HX]; subst.
  assert (Hafter : Forall (fun r => c1 r0 <= c0 r) X) by exact Hb0.
  unfold rows_state. destruct (Qltb (c0 r0 - b0) (- TOL)) eqn:E.
  - apply Qltb_lt in E.
    assert (H0 : holds (add_first (start n_var) (vals r0) (c1 r0 - b0))
                       (0 + counted r0)).
    { apply (@first_holds (start n_var) r0 _ 0 (start_holds Hj) Hj0).
      destruct Hr0 as (_ & _ & Hnc & _).
      apply overlap_head; unfold TOL in *; lra. }
    assert (Hint : Forall interior X).
    { rewrite Forall_forall in *. intros r Hr.
      destruct (HX r Hr) as (? & ? & ? & ? & ?). specialize (Hafter r Hr).
      repeat split; try assumption. lra. }
    apply (holds_eq (@finish_holds X Hs' Hint _ _ H0)).
    rewrite covered_valid_cons. ring.
  - apply Qltb_ge in E.
    assert (H00 : b0 <= c0 r0).
    { destruct Hr0 as (_ & (Hc & _) & _). unfold clear_of, TOL in *. lra. }
    assert (Hint : Forall interior (r0 :: X)).
    { constructor; [repeat split; assumption|].
      rewrite Forall_forall in *. intros r Hr.
      destruct (HX r Hr) as (? & ? & ? & ? & ?). specialize (Hafter r Hr).
      repeat split; try assumption. lra. }
    apply (holds_eq (@finish_holds (r0 :: X) Hs Hint _ _ (start_holds Hj))).
    ring.
Qed.

End Lengths.

Section Weight.
Import Frame Discretize Cases.
Local Open Scope Q_scope.

Lemma selected_of_overlap b0 b1 n_var r :
  b0 < b1 -> regular b0 b1 n_var r -> 0 < overlap b0 b1 r ->
  selected b0 b1 r = true.
Proof.
  intros Hb Hr Hpos. destruct (selected b0 b1 r) eqn:E; [reflexivity|].
  pose proof (@unselected_apart b0 b1 n_var r Hb Hr E). lra.
Qed.




End Weight.

End StepFacts.

(* ================================================================== *)
(** * The value and the weight of a bin *)

Module BinFacts.
Import Num Py Step NumFacts StepFacts Cases.
Local Open Scope list_scope.
Local Open Scope Q_scope.

(** ** The sum [S] of one variable over the sections of a bin *)

Section Values.

Variables (b0 b1 : Q) (j : nat).

(** The value a section holds for the variable, NaN read as zero, as
    [numpy.nansum] does. *)
Definition held (r : srow) : Q := nz (nth j (vals r) nan).

(** The sum of the values over the bin, each on the length it shares
    with the bin. *)
Definition weighted (yx : list srow) : Q :=
  fold_right (fun r s => held r * overlap b0 b1 r + s) 0 yx.

(** The accumulator [S] amounts to [s]; it may still be NaN. *)
Definition amounts (st : acc) (s : Q) : Prop :=
  exists x, nth_error (S_ st) j = Some x /\ nz x == s.

(** The accumulator [S] is a number, [s]. *)
Definition summed (st : acc) (s : Q) : Prop :=
  exists x, nth_error (S_ st) j = Some (Some x) /\ x == s.

Lemma summed_amounts st s : summed st s -> amounts st s.
Proof. intros (x & Hx & E). exists (Some x). now split. Qed.

Lemma summed_eq st s s' : summed st s -> s == s' -> summed st s'.
Proof. intros (x & Hx & E) E'. exists x. split; [exact Hx | now rewrite E]. Qed.

Lemma scaled_nth (v : list fl) (l : Q) :
  (j < List.length v)%nat ->
  nth_error (map (fun x => fmulq x l) v) j = Some (fmulq (nth j v nan) l).
Proof.
  intro H. erewrite map_nth_error; [reflexivity|].
  now apply nth_error_nth_some.
Qed.

Lemma nz_fmulq x l : nz (fmulq x l) == nz x * l.
Proof. destruct x; cbn; ring. Qed.

Lemma add_piece_summed st r l s :
  amounts st s -> (j < List.length (vals r))%nat ->
  summed (add_piece st (vals r) l) (s + held r * l).
Proof.
  intros (x & Hx & E) Hj. eexists. split.
  - cbn [add_piece S_]. unfold vnansum.
    rewrite (nth_error_map2 nansum2 _ _ _ Hx (@scaled_nth (vals r) l Hj)).
    reflexivity.
  - rewrite nz_fmulq, E. reflexivity.
Qed.

Lemma add_first_summed st r l s :
  amounts st s -> (j < List.length (vals r))%nat ->
  summed (add_first st (vals r) l) (s + held r * l).
Proof.
  intros (x & Hx & E) Hj. eexists. split.
  - cbn [add_first S_]. unfold vnansum.
    rewrite (nth_error_map2 nansum2 _ _ _ Hx (@scaled_nth (vals r) l Hj)).
    reflexivity.
  - rewrite nz_fmulq, E. reflexivity.
Qed.

Lemma start_amounts n_var : (j < n_var)%nat -> amounts (start n_var) 0.
Proof.
  intro H. exists nan. split; [|reflexivity]. cbn [start S_].
  rewrite (@nth_error_nth_some _ _ j nan) by now rewrite repeat_length.
  f_equal. apply nth_repeat.
Qed.

Lemma piece_summed st r l s :
  amounts st s -> (j < List.length (vals r))%nat -> overlap b0 b1 r == l ->
  summed (add_piece st (vals r) l) (s + held r * overlap b0 b1 r).
Proof.
  intros H Hj Hl. apply (summed_eq (@add_piece_summed st r l s H Hj)).
  rewrite Hl. reflexivity.
Qed.

Lemma last_piece_summed r st s :
  interior b0 b1 j r -> amounts st s ->
  summed (last_piece b1 r st) (s + held r * overlap b0 b1 r).
Proof.
  intros (H0 & H1 & H01 & Hc & Hj) H. unfold last_piece.
  destruct (Qltb (- TOL) (c1 r - b1)) eqn:E1.
  - apply Qltb_lt in E1. apply (@piece_summed st r _ s H Hj).
    apply overlap_tail; try lra. unfold clear_of, TOL in *. lra.
  - apply Qltb_ge in E1. destruct (Qltb (c1 r - b1) (- TOL)) eqn:E2.
    + apply Qltb_lt in E2. apply (@piece_summed st r _ s H Hj).
      apply overlap_inner; try lra. unfold TOL in *. lra.
    + apply Qltb_ge in E2. exfalso. unfold clear_of, TOL in *. lra.
Qed.

Lemma weighted_cons r X :
  weighted (r :: X) = held r * overlap b0 b1 r + weighted X.
Proof. reflexivity. Qed.

Lemma finish_summed X :
  StronglySorted before X -> Forall (interior b0 b1 j) X ->
  forall st s, amounts st s -> X <> [] \/ summed st s ->
  summed (finish b1 X st) (s + weighted X).
Proof.
  induction X as [|r X IH]; intros Hs Hi st s H Hne.
  - destruct Hne as [Hne|Hne]; [congruence|].
    apply (summed_eq Hne). cbn. ring.
  - inversion Hs as [|? ? Hs' Hb]; subst. inversion Hi as [|? ? Hr Hi']; subst.
    destruct X as [|r' t].
    + change (finish b1 [r] st) with (last_piece b1 r st).
      apply (summed_eq (@last_piece_summed r st s Hr H)).
      rewrite weighted_cons. cbn [weighted fold_right]. ring.
    + assert (Hlt : c1 r < b1 - TOL).
      { inversion Hb as [|? ? Hrr' _]; subst. inversion Hi' as [|? ? Hr' _]; subst.
        destruct Hr as (_ & _ & _ & Hc & _). destruct Hr' as (_ & H1' & _).
        unfold before, clear_of, TOL in *. lra. }
      rewrite finish_step by (apply Qltb_lt; lra).
      destruct Hr as (H0 & H1 & H01 & Hc & Hj).
      assert (H' : summed (next (add_piece st (vals r) (c1 r - c0 r)))
                          (s + held r * overlap b0 b1 r)).
      { apply (@piece_summed st r _ s H Hj). apply overlap_inner; try lra.
        unfold TOL in *. lra. }
      apply (summed_eq (@IH Hs' Hi' _ _ (summed_amounts H') (or_intror H'))).
      rewrite (weighted_cons r). ring.
Qed.

Lemma rows_state_summed n_var R :
  (j < n_var)%nat -> b0 < b1 -> R <> [] ->
  StronglySorted before R ->
  Forall (fun r => regular b0 b1 n_var r /\ selected b0 b1 r = true) R ->
  summed (rows_state b0 b1 n_var R) (weighted R).
Proof.
  intros Hj Hb Hne Hs HR.
  assert (Hmeet : Forall (fun r => c0 r < c1 r /\ c0 r < b1 /\ b0 < c1 r
                                   /\ clear_of b1 (c1 r)
                                   /\ (j < List.length (vals r))%nat) R).
  { eapply Forall_impl; [|exact HR]. cbn beta. intros r (Hr & Hsel).
    destruct (@selected_meets b0 b1 n_var r Hb Hr Hsel) as (H1 & H2).
    destruct Hr as (Hl & (_ & _ & _ & Hc) & _ & Hn).
    repeat split; try assumption. lia. }
  destruct R as [|r0 X]; [congruence|].
  inversion Hs as [|? ? Hs' Hb0]; subst.
  inversion HR as [|? ? (Hr0 & _) _]; subst.
  inversion Hmeet as [|? ? (Hl0 & H10 & H20 & Hc0 & Hj0) HX]; subst.
  assert (Hafter : Forall (fun r => c1 r0 <= c0 r) X) by exact Hb0.
  pose proof (start_amounts Hj) as Hstart.
  unfold rows_state. destruct (Qltb (c0 r0 - b0) (- TOL)) eqn:E.
  - apply Qltb_lt in E.
    assert (H0 : summed (add_first (start n_var) (vals r0) (c1 r0 - b0))
                        (0 + held r0 * overlap b0 b1 r0)).
    { apply (summed_eq (@add_first_summed (start n_var) r0 _ 0 Hstart Hj0)).
      destruct Hr0 as (_ & _ & Hnc & _).
      rewrite (@overlap_head b0 b1 r0); [reflexivity| | |]; unfold TOL in *; lra. }
    assert (Hint : Forall (interior b0 b1 j) X).
    { rewrite Forall_forall in *. intros r Hr.
      destruct (HX r Hr) as (? & ? & ? & ? & ?). specialize (Hafter r Hr).
      repeat split; try assumption. lra. }
    apply (summed_eq (@finish_summed X Hs' Hint _ _ (summed_amounts H0)
                        (or_intror H0))).
    rewrite weighted_cons. ring.
  - apply Qltb_ge in E.
    assert (H00 : b0 <= c0 r0).
    { destruct Hr0 as (_ & (Hc & _) & _). unfold clear_of, TOL in *. lra. }
    assert (Hint : Forall (interior b0 b1 j) (r0 :: X)).
    { constructor; [repeat split; assumption|].
      rewrite Forall_forall in *. intros r Hr.
      destruct (HX r Hr) as (? & ? & ? & ? & ?). specialize (Hafter r Hr).
      repeat split; try assumption. lra. }
    apply (summed_eq (@finish_summed (r0 :: X) Hs Hint _ _ Hstart
                        (or_introl (fun E : r0 :: X = [] => nil_cons (eq_sym E))))).
    ring.
Qed.

End Values.

(** ** What a bin emits *)

(** [L[L == 0] = np.nan] on one component. *)
Definition zero_to_nan (l : fl) : fl :=
  match l with
  | Some q => if Qeq_bool q 0 then nan else l
  | None => l
  end.

Lemma bin_body_values yx y_bins n_var fill_extremity ii_bin a :
  a <> [] -> (ii_bin + 1 < List.length y_bins)%nat ->
  let st := rows_state (nth ii_bin y_bins 0) (nth (ii_bin + 1) y_bins 0) n_var
                       (map (at_ yx) a) in
  x_e (bin_body yx y_bins n_var fill_extremity ii_bin a)
  = map2 fdiv (S_ st) (map zero_to_nan (L_ st)).
Proof.
  intros Ha Hlen st. unfold st. destruct a as [|i0 a']; [congruence|].
  rewrite <- (@bin_state yx y_bins n_var ii_bin i0 a' Hlen).
  unfold bin_body. cbv zeta.
  match goal with
  | |- x_e (if ?c then _ else if ?c' then _ else _) = _ => destruct c, c'
  end; reflexivity.
Qed.

Lemma Qeq_bool_eq x y z : x == y -> Qeq_bool x z = Qeq_bool y z.
Proof.
  intro E. destruct (Qeq_bool y z) eqn:Ey.
  - apply Qeq_bool_iff. apply Qeq_bool_iff in Ey. now rewrite E.
  - destruct (Qeq_bool x z) eqn:Ex; [|reflexivity].
    apply Qeq_bool_iff in Ex. rewrite E in Ex. apply Qeq_bool_iff in Ex. congruence.
Qed.

(** The value the bin holds for a variable of mean [s / l] over a
    length [l]: NaN when the length is zero. *)
Definition mean_over (s l : Q) : fl :=
  if Qeq_bool l 0 then nan else Some (s / l).

(** What is asked of the sections; see [StepFacts.regular]. *)
Definition regular_all (b0 b1 : Q) (n_var : nat) (yx : list srow) : Prop :=
  StronglySorted before yx
  /\ Forall (fun r => c0 r < c1 r /\ aligned b0 b1 r
                      /\ ~ (c0 r < b0 /\ b1 < c1 r)
                      /\ List.length (vals r) = n_var) yx.

Lemma bin_emits yx y_bins n_var fill_extremity ii_bin j :
  let b0 := nth ii_bin y_bins 0 in
  let b1 := nth (ii_bin + 1) y_bins 0 in
  (ii_bin + 1 < List.length y_bins)%nat -> b0 < b1 ->
  regular_all b0 b1 n_var yx ->
  Exists (fun r => 0 < overlap b0 b1 r) yx ->
  (j < n_var)%nat ->
  exists e w,
    bin_step yx y_bins n_var fill_extremity ii_bin = Some e
    /\ nth j (w_e e) nan = Some w
    /\ w == covered_valid j b0 b1 yx / (b1 - b0)
    /\ fl_eq (nth j (x_e e) nan)
             (mean_over (weighted b0 b1 j yx) (covered_valid j b0 b1 yx)).
Proof.
  intros b0 b1 Hlen Hb (Hs & Hr) He Hj.
  change (Forall (regular b0 b1 n_var) yx) in Hr.
  pose proof (select_rows yx b0 b1) as Ha.
  set (a := select yx b0 b1) in *.
  assert (Hf : filter (selected b0 b1) yx <> []).
  { apply Exists_exists in He as (r & Hin & Hpos). intro E.
    assert (Hin' : In r (filter (selected b0 b1) yx)).
    { apply filter_In. split; [exact Hin|]. rewrite Forall_forall in Hr.
      exact (@selected_of_overlap b0 b1 n_var r Hb (Hr r Hin) Hpos). }
    rewrite E in Hin'. destruct Hin'. }
  assert (Hne : a <> []).
  { intro E. rewrite E in Ha. cbn [map] in Ha. now apply Hf. }
  assert (HR : Forall (fun r => regular b0 b1 n_var r /\ selected b0 b1 r = true)
                      (filter (selected b0 b1) yx)).
  { rewrite Forall_forall in *. intros r Hin. apply filter_In in Hin as [Hin Hsel].
    split; [now apply Hr | exact Hsel]. }
  pose proof (filter_sorted (selected b0 b1) Hs) as Hs'.
  destruct (@rows_state_holds b0 b1 j n_var _ Hj Hb Hs' HR) as (l & Hl & El).
  destruct (@rows_state_summed b0 b1 j n_var _ Hj Hb Hf Hs' HR) as (s & Hsum & Es).
  rewrite (@covered_valid_selected b0 b1 j n_var yx Hb Hr) in El.
  assert (Ew : weighted b0 b1 j (filter (selected b0 b1) yx) == weighted b0 b1 j yx).
  { clear - Hb Hr. induction Hr as [|r yx Hr _ IH]; [reflexivity|].
    cbn [filter]. destruct (selected b0 b1 r) eqn:E.
    - rewrite !weighted_cons, IH. reflexivity.
    - rewrite weighted_cons, IH.
      rewrite (@unselected_apart b0 b1 n_var r Hb Hr E). ring. }
  rewrite Ew in Es.
  exists (bin_body yx y_bins n_var fill_extremity ii_bin a), (l / (b1 - b0)).
  split; [|split; [|split]].
  - unfold bin_step. fold b0 b1 a. destruct a; [congruence | reflexivity].
  - rewrite (@bin_body_weights yx y_bins n_var fill_extremity ii_bin a Hne Hlen).
    fold b0 b1. rewrite Ha. apply nth_error_nth.
    rewrite (map_nth_error _ _ _ Hl). cbn [fdiv].
    destruct (Qeq_bool (b1 - b0) 0) eqn:E; [|reflexivity].
    apply Qeq_bool_iff in E. lra.
  - rewrite El. reflexivity.
  - rewrite (@bin_body_values yx y_bins n_var fill_extremity ii_bin a Hne Hlen).
    fold b0 b1. rewrite Ha.
    rewrite (@nth_error_nth _ _ j _ nan
               (nth_error_map2 fdiv _ _ _ Hsum (map_nth_error zero_to_nan _ _ Hl))).
    unfold mean_over, zero_to_nan. rewrite <- (Qeq_bool_eq 0 El).
    destruct (Qeq_bool l 0) eqn:E0; cbn [fdiv fl_eq]; [exact I|].
    rewrite E0. cbn [fl_eq]. rewrite Es, El. reflexivity.
Qed.

Ltac minmax :=
  repeat match goal with
  | |- context [Qmax ?a ?b] =>
      lazymatch goal with
      | _ : Qmax a b == _ |- _ => fail
      | _ => destruct (Q.max_spec a b) as [[? ?]|[? ?]]
      end
  | |- context [Qmin ?a ?b] =>
      lazymatch goal with
      | _ : Qmin a b == _ |- _ => fail
      | _ => destruct (Q.min_spec a b) as [[? ?]|[? ?]]
      end
  | _ : context [Qmax ?a ?b] |- _ =>
      lazymatch goal with
      | _ : Qmax a b == _ |- _ => fail
      | _ => destruct (Q.max_spec a b) as [[? ?]|[? ?]]
      end
  | _ : context [Qmin ?a ?b] |- _ =>
      lazymatch goal with
      | _ : Qmin a b == _ |- _ => fail
      | _ => destruct (Q.min_spec a b) as [[? ?]|[? ?]]
      end
  end.

Lemma overlap_nonneg b0 b1 r : 0 <= overlap b0 b1 r.
Proof. unfold overlap. minmax; lra. Qed.

Lemma covered_valid_bounds j b0 b1 yx :
  0 <= covered_valid j b0 b1 yx <= covered b0 b1 yx.
Proof.
  induction yx as [|r yx IH]; [cbn; lra|].
  cbn [covered_valid covered fold_right].
  fold (covered_valid j b0 b1 yx). fold (covered b0 b1 yx).
  pose proof (overlap_nonneg b0 b1 r). destruct (valid j r); lra.
Qed.

(** Sections in order share with the bin no more than what is left of
    it from the start of the first one. *)
Lemma covered_room b0 b1 yx :
  StronglySorted before yx -> Forall (fun r => c0 r <= c1 r) yx ->
  covered b0 b1 yx
  <= match yx with
     | [] => 0
     | r :: _ => Qmax 0 (b1 - Qmax (c0 r) b0)
     end.
Proof.
  induction yx as [|r yx IH]; intros Hs Hl; [cbn; lra|].
  inversion Hs as [|? ? Hs' Hb]; subst. inversion Hl as [|? ? Hr Hl']; subst.
  specialize (IH Hs' Hl'). cbn [covered fold_right]. fold (covered b0 b1 yx).
  destruct yx as [|r' t].
  - cbn [covered fold_right]. unfold overlap. minmax; lra.
  - inversion Hb as [|? ? Hrr' _]; subst. unfold before in Hrr'.
    unfold overlap. minmax; lra.
Qed.

Lemma covered_le_width b0 b1 yx :
  b0 <= b1 ->
  StronglySorted before yx -> Forall (fun r => c0 r <= c1 r) yx ->
  covered b0 b1 yx <= b1 - b0.
Proof.
  intros Hb Hs Hl. pose proof (covered_room b0 b1 Hs Hl) as H.
  destruct yx as [|r t]; [lra|]. minmax; lra.
Qed.

(** Two sections [0, 10] and [10, 20] holding 4 and 8. *)
Definition two_values : list srow := [mkS 0 10 [Some 4]; mkS 10 20 [Some 8]].

Lemma two_values_regular : regular_all 5 15 1 two_values.
Proof.
  unfold regular_all, two_values, aligned, clear_of, TOL. split.
  - repeat constructor. unfold before. cbn. lra.
  - repeat (constructor; [cbn [c0 c1 vals List.length]; repeat split; lra|]).
    constructor.
Qed.

(** The value of a bin.  For sections in order that do not reach into
    one another, each with a length, with bounds that are edges of the
    bin or further than the tolerance from them, none holding the whole
    bin strictly inside: the value a bin that overlaps a section emits
    for a variable is the mean of the values the sections hold for it,
    each weighted by the length it shares with the bin, sections holding
    NaN left out; it is NaN when no such section holds a value. *)
Theorem bin_value_is_weighted_mean :
  forall yx y_bins n_var fill_extremity ii_bin j,
    let b0 := nth ii_bin y_bins 0 in
    let b1 := nth (ii_bin + 1) y_bins 0 in
    (ii_bin + 1 < List.length y_bins)%nat -> b0 < b1 ->
    regular_all b0 b1 n_var yx ->
    Exists (fun r => 0 < overlap b0 b1 r) yx ->
    (j < n_var)%nat ->
    exists e,
      bin_step yx y_bins n_var fill_extremity ii_bin = Some e
      /\ fl_eq (nth j (x_e e) nan)
               (mean_over (weighted b0 b1 j yx) (covered_valid j b0 b1 yx)).
Proof.
  intros yx y_bins n_var fe ii_bin j b0 b1 Hlen Hb Hr He Hj.
  destruct (@bin_emits yx y_bins n_var fe ii_bin j Hlen Hb Hr He Hj)
    as (e & w & H1 & _ & _ & H4).
  exists e. split; assumption.
Qed.

Lemma bin_value_is_weighted_mean_witness :
  exists e,
    bin_step two_values [5; 15] 1 false 0 = Some e
    /\ fl_eq (nth 0 (x_e e) nan)
             (mean_over (weighted 5 15 0 two_values) (covered_valid 0 5 15 two_values)).
Proof.
  apply (@bin_value_is_weighted_mean two_values [5; 15] 1%nat false 0%nat 0%nat).
  - cbn. lia.
  - reflexivity.
  - exact two_values_regular.
  - left. reflexivity.
  - lia.
Defined.

(** The weight of a bin lies between 0 and 1, under the same conditions
    on the sections. *)
Theorem bin_weight_in_unit_interval :
  forall yx y_bins n_var fill_extremity ii_bin j,
    let b0 := nth ii_bin y_bins 0 in
    let b1 := nth (ii_bin + 1) y_bins 0 in
    (ii_bin + 1 < List.length y_bins)%nat -> b0 < b1 ->
    regular_all b0 b1 n_var yx ->
    Exists (fun r => 0 < overlap b0 b1 r) yx ->
    (j < n_var)%nat ->
    exists e w,
      bin_step yx y_bins n_var fill_extremity ii_bin = Some e
      /\ nth j (w_e e) nan = Some w
      /\ 0 <= w <= 1.
Proof.
  intros yx y_bins n_var fe ii_bin j b0 b1 Hlen Hb Hr He Hj.
  destruct (@bin_emits yx y_bins n_var fe ii_bin j Hlen Hb Hr He Hj)
    as (e & w & H1 & H2 & H3 & _).
  exists e, w. split; [exact H1|]. split; [exact H2|].
  destruct Hr as (Hs & Hr).
  assert (Hl : Forall (fun r => c0 r <= c1 r) yx).
  { eapply Forall_impl; [|exact Hr]. cbn beta. intros r (H & _). lra. }
  pose proof (covered_valid_bounds j b0 b1 yx) as [Hlo Hhi].
  pose proof (@covered_le_width b0 b1 yx (Qlt_le_weak _ _ Hb) Hs Hl) as Hw.
  change (w == covered_valid j b0 b1 yx / (b1 - b0)) in H3.
  clearbody b0 b1. rewrite H3. split.
  - apply Qle_shift_div_l; lra.
  - apply Qle_shift_div_r; lra.
Qed.

Lemma bin_weight_in_unit_interval_witness :
  exists e w,
    bin_step two_values [5; 15] 1 false 0 = Some e
    /\ nth 0 (w_e e) nan = Some w
    /\ 0 <= w <= 1.
Proof.
  apply (@bin_weight_in_unit_interval two_values [5; 15] 1%nat false 0%nat 0%nat).
  - cbn. lia.
  - reflexivity.
  - exact two_values_regular.
  - left. reflexivity.
  - lia.
Defined.

(** ** Bins that meet no section, bins inside a section *)

Ltac to_Q :=
  repeat match goal with
  | H : _ || _ = true |- _ => apply orb_true_iff in H; destruct H as [H|H]
  | H : _ && _ = true |- _ => apply andb_true_iff in H; destruct H as [? ?]
  | H : _ || _ = false |- _ => apply orb_false_iff in H; destruct H as [? ?]
  | H : _ && _ = false |- _ => apply andb_false_iff in H; destruct H as [H|H]
  | H : Qltb _ _ = true |- _ => apply Qltb_lt in H
  | H : Qltb _ _ = false |- _ => apply Qltb_ge in H
  | H : Qle_bool _ _ = true |- _ => apply Qle_bool_iff in H
  | H : Qle_bool _ _ = false |- _ => apply Qle_bool_false in H
  end.

Ltac split_clear :=
  repeat match goal with
  | H : aligned _ _ _ |- _ => destruct H as (? & ? & ? & ?)
  | H : clear_of _ _ |- _ => destruct H as [H|[H|H]]
  end.

(** A section with a length and bounds clear of the edges of the bin. *)
Definition placed (b0 b1 : Q) (r : srow) : Prop :=
  c0 r < c1 r /\ aligned b0 b1 r.

Lemma selected_iff_overlap b0 b1 r :
  b0 < b1 -> placed b0 b1 r ->
  (selected b0 b1 r = false <-> overlap b0 b1 r == 0).
Proof.
  intros Hb (Hl & Ha). split; intro H.
  - apply overlap_none; try lra.
    unfold selected, straddles, inside in H.
    destruct (Qlt_le_dec (c0 r) b1) as [H1|H1]; [|now left].
    destruct (Qlt_le_dec b0 (c1 r)) as [H2|H2]; [|now right].
    exfalso. to_Q; split_clear; unfold TOL in *; lra.
  - destruct (selected b0 b1 r) eqn:E; [|reflexivity]. exfalso.
    assert (Hpos : 0 < overlap b0 b1 r); [|lra].
    clear H. unfold selected, straddles, inside in E.
    assert (Hm : c0 r < b1 /\ b0 < c1 r)
      by (to_Q; split_clear; unfold TOL in *; split; lra).
    clear E Ha. destruct Hm. unfold overlap. minmax; lra.
Qed.

Lemma filter_nil_iff {A} (p : A -> bool) l :
  filter p l = [] <-> Forall (fun x => p x = false) l.
Proof.
  induction l as [|x l IH]; cbn; [split; [constructor | reflexivity]|].
  destruct (p x) eqn:E; split; intro H.
  - discriminate H.
  - inversion H; congruence.
  - constructor; [exact E | now apply IH].
  - inversion H; subst. now apply IH.
Qed.

Lemma bin_step_none yx y_bins n_var fill_extremity ii_bin :
  bin_step yx y_bins n_var fill_extremity ii_bin = None
  <-> filter (selected (nth ii_bin y_bins 0) (nth (ii_bin + 1) y_bins 0)) yx = [].
Proof.
  rewrite <- select_rows. unfold bin_step.
  destruct (select yx (nth ii_bin y_bins 0) (nth (ii_bin + 1) y_bins 0));
    cbn; split; intro H; try reflexivity; discriminate H.
Qed.

(** A bin with no section.  For sections that have a length and bounds
    that are edges of the bin or further than the tolerance from them:
    the bin emits nothing exactly when no section shares a length with
    it. *)
Theorem bin_without_section_is_skipped :
  forall yx y_bins n_var fill_extremity ii_bin,
    let b0 := nth ii_bin y_bins 0 in
    let b1 := nth (ii_bin + 1) y_bins 0 in
    b0 < b1 -> Forall (placed b0 b1) yx ->
    (bin_step yx y_bins n_var fill_extremity ii_bin = None
     <-> Forall (fun r => overlap b0 b1 r == 0) yx).
Proof.
  intros yx y_bins n_var fe ii_bin b0 b1 Hb Hp.
  rewrite bin_step_none, filter_nil_iff. fold b0 b1.
  rewrite !Forall_forall in *. split; intros H r Hr.
  - apply (@selected_iff_overlap b0 b1 r Hb (Hp r Hr)). now apply H.
  - apply (@selected_iff_overlap b0 b1 r Hb (Hp r Hr)). now apply H.
Qed.

Lemma bin_without_section_is_skipped_witness :
  bin_step two_values [30; 40] 1 false 0 = None
  <-> Forall (fun r => overlap 30 40 r == 0) two_values.
Proof.
  apply (@bin_without_section_is_skipped two_values [30; 40] 1%nat false 0%nat).
  - reflexivity.
  - unfold two_values, placed, aligned, clear_of, TOL. cbn [nth Nat.add].
    repeat (constructor; [cbn [c0 c1]; repeat split; lra|]). constructor.
Defined.

Lemma sorted_split {A} (R : A -> A -> Prop) (l1 : list A) x l2 :
  StronglySorted R (l1 ++ x :: l2) ->
  Forall (fun y => R y x) l1 /\ Forall (R x) l2.
Proof.
  induction l1 as [|y l1 IH]; cbn [app]; intro H; inversion H as [|? ? Hs Hf]; subst.
  - split; [constructor | exact Hf].
  - destruct (IH Hs) as [H1 H2]. split; [|exact H2].
    constructor; [|exact H1]. rewrite Forall_forall in Hf.
    apply Hf, in_or_app. right. now left.
Qed.

Lemma only_section_selected b0 b1 yx r :
  b0 < b1 ->
  StronglySorted before yx -> Forall (fun r => c0 r <= c1 r) yx ->
  In r yx -> c0 r < b0 - TOL -> b1 + TOL < c1 r ->
  filter (selected b0 b1) yx = [r].
Proof.
  intros Hb Hs Hl Hin H0 H1.
  destruct (in_split _ _ Hin) as (l1 & l2 & ->).
  destruct (@sorted_split _ before l1 r l2 Hs) as [Hbefore Hafter].
  apply Forall_app in Hl as [Hl1 Hl2]. inversion Hl2 as [|? ? _ Hl2']; subst.
  rewrite filter_app. cbn [filter].
  replace (filter (selected b0 b1) l1) with (@nil srow).
  replace (filter (selected b0 b1) l2) with (@nil srow).
  - replace (selected b0 b1 r) with true; [reflexivity|].
    symmetry. unfold selected, straddles.
    replace (Qltb (c0 r - b0) (- TOL)) with true
      by (symmetry; apply Qltb_lt; unfold TOL in *; lra).
    replace (Qltb (b0 - c1 r) (- TOL)) with true
      by (symmetry; apply Qltb_lt; unfold TOL in *; lra).
    reflexivity.
  - symmetry. apply filter_nil_iff. rewrite Forall_forall in *. intros y Hy.
    specialize (Hafter y Hy). specialize (Hl2' y Hy). unfold before in Hafter.
    destruct (selected b0 b1 y) eqn:E; [|reflexivity]. exfalso.
    unfold selected, straddles, inside in E. to_Q; unfold TOL in *; lra.
  - symmetry. apply filter_nil_iff. rewrite Forall_forall in *. intros y Hy.
    specialize (Hbefore y Hy). specialize (Hl1 y Hy). unfold before in Hbefore.
    destruct (selected b0 b1 y) eqn:E; [|reflexivity]. exfalso.
    unfold selected, straddles, inside in E. to_Q; unfold TOL in *; lra.
Qed.

(** A section [0, 30] holding 5. *)
Definition long_section : srow := mkS 0 30 [Some 5].

(** A bin inside a section.  For sections in order that do not reach
    into one another: when one section starts before the bin and ends
    after it, both by more than the tolerance, and holds the value [v],
    the bin emits [v], and its weight is the length from the start of
    the bin to the end of the section over the width of the bin, which
    is more than 1. *)
Theorem bin_inside_a_section :
  forall yx y_bins n_var fill_extremity ii_bin j r v,
    let b0 := nth ii_bin y_bins 0 in
    let b1 := nth (ii_bin + 1) y_bins 0 in
    (ii_bin + 1 < List.length y_bins)%nat -> b0 < b1 ->
    StronglySorted before yx -> Forall (fun r => c0 r <= c1 r) yx ->
    In r yx -> c0 r < b0 - TOL -> b1 + TOL < c1 r ->
    List.length (vals r) = n_var ->
    nth_error (vals r) j = Some (Some v) ->
    exists e w x,
      bin_step yx y_bins n_var fill_extremity ii_bin = Some e
      /\ nth j (w_e e) nan = Some w
      /\ w == (c1 r - b0) / (b1 - b0) /\ 1 < w
      /\ nth j (x_e e) nan = Some x /\ x == v.
Proof.
  intros yx y_bins n_var fe ii_bin j r v b0 b1 Hlen Hb Hs Hl Hin H0 H1 Hn Hv.
  pose proof (@only_section_selected b0 b1 yx r Hb Hs Hl Hin H0 H1) as Hsel.
  pose proof (select_rows yx b0 b1) as Ha. rewrite Hsel in Ha.
  set (a := select yx b0 b1) in *.
  assert (Hne : a <> []) by (intro E; rewrite E in Ha; discriminate Ha).
  assert (Hj : (j < n_var)%nat).
  { rewrite <- Hn. apply nth_error_Some. congruence. }
  assert (Hjr : (j < List.length (vals r))%nat) by lia.
  assert (Hst : rows_state b0 b1 n_var [r]
                = add_first (start n_var) (vals r) (c1 r - b0)).
  { unfold rows_state.
    replace (Qltb (c0 r - b0) (- TOL)) with true
      by (symmetry; apply Qltb_lt; unfold TOL in *; lra).
    reflexivity. }
  destruct (@add_first_holds j (start n_var) (vals r) (c1 r - b0) 0
              (start_holds Hj) Hjr) as (l & Hl' & El).
  destruct (@add_first_summed j (start n_var) r (c1 r - b0) 0
              (start_amounts Hj) Hjr) as (s & Hs' & Es).
  assert (Ev : nth j (vals r) nan = Some v) by (now apply nth_error_nth).
  unfold share in El. unfold held in Es. rewrite Ev in El, Es.
  cbn [isnan negb nz] in El, Es.
  assert (Hpos : 0 < l) by (rewrite El; unfold TOL in *; lra).
  exists (bin_body yx y_bins n_var fe ii_bin a), (l / (b1 - b0)), (s / l).
  split; [|split; [|split; [|split; [|split]]]].
  - unfold bin_step. fold b0 b1 a. destruct a; [congruence | reflexivity].
  - rewrite (@bin_body_weights yx y_bins n_var fe ii_bin a Hne Hlen).
    fold b0 b1. rewrite Ha, Hst. apply nth_error_nth.
    rewrite (map_nth_error _ _ _ Hl'). cbn [fdiv].
    destruct (Qeq_bool (b1 - b0) 0) eqn:E; [|reflexivity].
    apply Qeq_bool_iff in E. lra.
  - rewrite El. field. lra.
  - rewrite El. apply Qlt_shift_div_l; unfold TOL in *; lra.
  - rewrite (@bin_body_values yx y_bins n_var fe ii_bin a Hne Hlen).
    fold b0 b1. rewrite Ha, Hst. apply nth_error_nth.
    rewrite (nth_error_map2 fdiv _ _ _ Hs' (map_nth_error zero_to_nan _ _ Hl')).
    unfold zero_to_nan.
    destruct (Qeq_bool l 0) eqn:E; [apply Qeq_bool_iff in E; lra|].
    cbn [fdiv]. rewrite E. reflexivity.
  - rewrite Es, El. field. unfold TOL in *. lra.
Qed.

Lemma bin_inside_a_section_witness :
  exists e w x,
    bin_step [long_section] [10; 20] 1 false 0 = Some e
    /\ nth 0 (w_e e) nan = Some w
    /\ w == (30 - 10) / (20 - 10) /\ 1 < w
    /\ nth 0 (x_e e) nan = Some x /\ x == 5.
Proof.
  apply (@bin_inside_a_section [long_section] [10; 20] 1%nat false 0%nat 0%nat
           long_section 5).
  - cbn. lia.
  - reflexivity.
  - repeat constructor.
  - repeat constructor. cbn. lra.
  - now left.
  - unfold TOL. cbn. lra.
  - unfold TOL. cbn. lra.
  - reflexivity.
  - reflexivity.
Defined.

End BinFacts.

(* ================================================================== *)
(** * Gaps in the source and sections of the output *)

Module ShapeFacts.
Import Num Py Step NumFacts.
Local Open Scope list_scope.
Local Open Scope Q_scope.

(** ** The sections added where the source has a gap *)

(** Every section ends where the next one starts, up to the tolerance. *)
Fixpoint meets (yx : list srow) : Prop :=
  match yx with
  | r :: ((r' :: _) as t) => Qabs (c1 r - c0 r') <= TOL /\ meets t
  | _ => True
  end.

(** A section of NaN laid between two consecutive sections of [yx]. *)
Definition gap_of (n_var : nat) (yx : list srow) (g : srow) : Prop :=
  exists l1 r r' l2,
    yx = l1 ++ r :: r' :: l2
    /\ TOL < Qabs (c1 r - c0 r')
    /\ g = mkS (c1 r) (c0 r') (repeat nan n_var).

(** [yx_new] once the last section is appended. *)
Definition filled (n_var : nat) (yx : list srow) : list srow :=
  fill_sections n_var yx ++ [last yx dummy].

Lemma filled_one n_var r : filled n_var [r] = [r].
Proof. reflexivity. Qed.

Lemma filled_cons n_var r r' t :
  filled n_var (r :: r' :: t)
  = if Qltb TOL (Qabs (c1 r - c0 r'))
    then r :: mkS (c1 r) (c0 r') (repeat nan n_var) :: filled n_var (r' :: t)
    else r :: filled n_var (r' :: t).
Proof.
  unfold filled. cbn [fill_sections].
  change (last (r :: r' :: t) dummy) with (last (r' :: t) dummy).
  destruct (Qltb TOL (Qabs (c1 r - c0 r'))); reflexivity.
Qed.

Lemma filled_head n_var r t : exists t', filled n_var (r :: t) = r :: t'.
Proof.
  destruct t as [|r' t]; [now exists []|]. rewrite filled_cons.
  destruct (Qltb TOL (Qabs (c1 r - c0 r'))); eexists; reflexivity.
Qed.

Lemma Qabs_self x : Qabs (x - x) <= TOL.
Proof. apply Qabs_case; intro; unfold TOL; lra. Qed.

Lemma filled_meets n_var yx : meets (filled n_var yx).
Proof.
  induction yx as [|r yx IH]; [exact I|].
  destruct yx as [|r' t]; [exact I|]. rewrite filled_cons.
  destruct (filled_head n_var r' t) as (t' & E). rewrite E in *.
  destruct (Qltb TOL (Qabs (c1 r - c0 r'))) eqn:G.
  - cbn [meets c0 c1]. repeat split; try apply Qabs_self. exact IH.
  - apply Qltb_ge in G. cbn [meets]. split; [exact G | exact IH].
Qed.

Lemma filled_In n_var yx g :
  yx <> [] ->
  (In g (filled n_var yx) <-> In g yx \/ gap_of n_var yx g).
Proof.
  induction yx as [|r yx IH]; intro Hne; [congruence|].
  destruct yx as [|r' t].
  - rewrite filled_one. split; [now left|]. intros [H|H]; [exact H|].
    destruct H as (l1 & a & b & l2 & E & _). exfalso.
    destruct l1 as [|x [|y l1]]; discriminate E.
  - assert (IH' := IH (fun E : r' :: t = [] => nil_cons (eq_sym E))). clear IH.
    assert (Hshift : forall g, gap_of n_var (r' :: t) g -> gap_of n_var (r :: r' :: t) g).
    { intros g' (l1 & a & b & l2 & E & Hgap & Eg).
      exists (r :: l1), a, b, l2. rewrite E. repeat split; assumption. }
    assert (Hback : forall g, gap_of n_var (r :: r' :: t) g ->
              (TOL < Qabs (c1 r - c0 r') /\ g = mkS (c1 r) (c0 r') (repeat nan n_var))
              \/ gap_of n_var (r' :: t) g).
    { intros g' (l1 & a & b & l2 & E & Hgap & Eg). destruct l1 as [|x l1].
      - cbn [app] in E. injection E as -> -> ->. left. now split.
      - cbn [app] in E. injection E as -> E. right.
        exists l1, a, b, l2. repeat split; assumption. }
    rewrite filled_cons. destruct (Qltb TOL (Qabs (c1 r - c0 r'))) eqn:G.
    + apply Qltb_lt in G. cbn [In]. rewrite IH'. split.
      * intros [H|[H|[H|H]]]; [left; now left | | left; right; exact H | right; now apply Hshift].
        right. exists [], r, r', t. repeat split; [exact G | now symmetry].
      * intros [[H|H]|H]; [now left | right; right; now left |].
        destruct (Hback g H) as [[_ ->]|H']; [right; now left | right; right; now right].
    + apply Qltb_ge in G. cbn [In]. rewrite IH'. split.
      * intros [H|[H|H]]; [left; now left | left; right; exact H | right; now apply Hshift].
      * intros [[H|H]|H]; [now left | right; now left |].
        destruct (Hback g H) as [[F _]|H']; [lra | right; now right].
Qed.

Lemma nth_error_last {A} (l : list A) d :
  l <> [] -> nth_error l (List.length l - 1) = Some (last l d).
Proof.
  induction l as [|x l IH]; intro H; [congruence|].
  destruct l as [|y l]; [reflexivity|].
  change (last (x :: y :: l) d) with (last (y :: l) d).
  rewrite <- IH by discriminate. cbn [List.length].
  replace (S (S (List.length l)) - 1)%nat with (S (S (List.length l) - 1)) by lia.
  reflexivity.
Qed.

(** Two sections [0, 10] and [12, 20]: nothing was measured between 10
    and 12. *)
Definition with_gap : list srow := [mkS 0 10 [Some 4]; mkS 12 20 [Some 8]].

(** Missing sections.  A source of two sections or more passes lines
    323-329: in the result every section ends where the next one starts,
    up to the tolerance; its sections are those of the source and, for
    every two consecutive sections further apart than the tolerance, one
    section between them holding NaN for every variable. *)
Theorem missing_sections_are_filled :
  forall n_var row yx,
    (2 <= List.length yx)%nat ->
    exists yx',
      insert_missing n_var row yx = Ret (yx', Some (List.length yx - 2)%nat)
      /\ meets yx'
      /\ forall g, In g yx' <-> In g yx \/ gap_of n_var yx g.
Proof.
  intros n_var row yx Hlen. exists (filled n_var yx).
  assert (Hne : yx <> []) by (intro E; subst yx; cbn in Hlen; lia).
  split; [|split].
  - unfold insert_missing, filled.
    destruct (List.length yx) as [|[|k]] eqn:E; try lia.
    replace (k + 1)%nat with (List.length yx - 1)%nat by lia.
    rewrite (nth_error_last dummy Hne).
    replace (S (S k) - 2)%nat with k by lia. reflexivity.
  - apply filled_meets.
  - intro g. now apply filled_In.
Qed.

Lemma missing_sections_are_filled_witness :
  exists yx',
    insert_missing 1 None with_gap = Ret (yx', Some 0%nat)
    /\ meets yx'
    /\ forall g, In g yx' <-> In g with_gap \/ gap_of 1 with_gap g.
Proof.
  apply (@missing_sections_are_filled 1%nat None with_gap). cbn. lia.
Defined.

(** A single section.  With one section the loop of line 324 does not
    run and line 328 reads its variable [row]: unbound for the first
    variable group, left at [k] by an earlier group otherwise, and then
    out of range. *)
Lemma single_section_is_refused :
  forall n_var row r,
    insert_missing n_var row [r]
    = Raise (match row with None => UnboundLocalError | Some _ => IndexError end).
Proof.
  intros n_var [k|] r; [|reflexivity].
  unfold insert_missing. cbn [List.length].
  replace (nth_error [r] (k + 1)) with (@None srow); [reflexivity|].
  symmetry. apply nth_error_None. cbn. lia.
Qed.

(** ** The sections of the output *)

Lemma insert_uniqQ_In x z l : In z (insert_uniqQ x l) -> z = x \/ In z l.
Proof.
  induction l as [|y l IH]; cbn [insert_uniqQ].
  - intros [H|[]]. now left.
  - destruct (Qltb x y).
    + intros [H|H]; [now left | now right].
    + destruct (Qeq_bool x y); [now right|].
      intros [H|H]; [right; now left|].
      destruct (IH H) as [H'|H']; [now left | right; now right].
Qed.

Lemma insert_uniqQ_sorted x l :
  StronglySorted Qlt l -> StronglySorted Qlt (insert_uniqQ x l).
Proof.
  induction 1 as [|y l Hs IH Hy]; cbn [insert_uniqQ]; [repeat constructor|].
  destruct (Qltb x y) eqn:E1.
  - apply Qltb_lt in E1. constructor; [now constructor|].
    constructor; [exact E1|]. rewrite Forall_forall in *. intros z Hz.
    specialize (Hy z Hz). lra.
  - apply Qltb_ge in E1. destruct (Qeq_bool x y) eqn:E2; [now constructor|].
    assert (Hlt : y < x).
    { apply Qle_lt_or_eq in E1 as [H|H]; [exact H|].
      apply Qeq_sym, Qeq_bool_iff in H. congruence. }
    constructor; [exact IH|]. rewrite Forall_forall in *. intros z Hz.
    apply insert_uniqQ_In in Hz as [->|Hz]; [exact Hlt | now apply Hy].
Qed.

Lemma np_uniqueQ_sorted l : StronglySorted Qlt (np_uniqueQ l).
Proof.
  unfold np_uniqueQ. induction l as [|x l IH]; cbn [fold_right]; [constructor|].
  now apply insert_uniqQ_sorted.
Qed.

(** Every section ends exactly where the next one starts. *)
Fixpoint joined (l : list section) : Prop :=
  match l with
  | s :: ((s' :: _) as t) => s_sup s = s_low s' /\ joined t
  | _ => True
  end.

(** A section with a length, and its midpoint. *)
Definition proper (s : section) : Prop :=
  s_low s < s_sup s /\ s_mid s == (s_low s + s_sup s) / 2.

Lemma sections_of_cons lo hi t e es :
  sections_of (lo :: hi :: t) (e :: es)
  = mkSec lo (lo + (hi - lo) / 2) hi (w_e e) (x_e e) :: sections_of (hi :: t) es.
Proof. reflexivity. Qed.

Lemma sections_of_spec u : forall es,
  StronglySorted Qlt u -> (List.length u - 1 = List.length es)%nat ->
  List.length (sections_of u es) = List.length es
  /\ Forall proper (sections_of u es) /\ joined (sections_of u es)
  /\ map s_w (sections_of u es) = map w_e es
  /\ map s_x (sections_of u es) = map x_e es
  /\ (forall lo t, u = lo :: t -> es <> [] ->
      exists s t', sections_of u es = s :: t' /\ s_low s = lo).
Proof.
  induction u as [|lo u IH]; intros es Hs Hlen.
  - cbn in Hlen. destruct es; [|discriminate Hlen]. cbn.
    repeat split; try constructor. intros; discriminate.
  - destruct u as [|hi t].
    + cbn in Hlen. destruct es; [|discriminate Hlen]. cbn.
      repeat split; try constructor. intros; congruence.
    + destruct es as [|e es]; [cbn in Hlen; lia|].
      inversion Hs as [|? ? Hs' Hlo]; subst.
      assert (Hlen' : (List.length (hi :: t) - 1 = List.length es)%nat)
        by (cbn in *; lia).
      destruct (IH es Hs' Hlen') as (H1 & H2 & H3 & H4 & H5 & H6).
      rewrite sections_of_cons.
      repeat split.
      * cbn [List.length]. now rewrite H1.
      * constructor; [|exact H2]. unfold proper. cbn [s_low s_sup s_mid].
        inversion Hlo; subst. split; [assumption | field].
      * destruct es as [|e' es'].
        -- destruct t; exact I.
        -- destruct (H6 hi t eq_refl) as (s & t' & E & El); [discriminate|].
           rewrite E in *. cbn [joined s_sup]. split; [now symmetry | exact H3].
      * cbn [map s_w]. now rewrite H4.
      * cbn [map s_x]. now rewrite H5.
      * intros lo' t0 E _. injection E as <- _. eexists _, _. split; reflexivity.
Qed.

(** The rows of one group.  When the emitted bins assemble into
    sections, there is one section for each bin, in order, holding the
    values and the weights the bin emitted; every section has a length
    and its midpoint, and ends exactly where the next one starts. *)
Theorem assembled_sections_are_joined :
  forall n_var es secs,
    assemble n_var es = Ret secs ->
    List.length secs = List.length es
    /\ Forall proper secs /\ joined secs
    /\ map s_w secs = map w_e es /\ map s_x secs = map x_e es.
Proof.
  intros n_var es secs H. unfold assemble in H.
  destruct es as [|e es].
  - destruct (Nat.eqb n_var 1); [|discriminate H]. injection H as <-.
    repeat split; constructor.
  - set (u := np_uniqueQ (flat_map (fun e => [lo_e e; hi_e e]) (e :: es))) in *.
    destruct (Nat.eqb (List.length u - 1) (List.length (e :: es))) eqn:E;
      [|discriminate H].
    injection H as <-. apply Nat.eqb_eq in E.
    destruct (@sections_of_spec u (e :: es) (np_uniqueQ_sorted _) E)
      as (H1 & H2 & H3 & H4 & H5 & _).
    repeat split; assumption.
Qed.

Lemma assembled_sections_are_joined_witness :
  exists secs,
    assemble 1 [mkE [Some 5] [Some 1] 0 5; mkE [Some 6] [Some 1] 5 15] = Ret secs
    /\ List.length secs = 2%nat
    /\ Forall proper secs /\ joined secs
    /\ map s_w secs = [[Some 1]; [Some 1]] /\ map s_x secs = [[Some 5]; [Some 6]].
Proof.
  eexists. split; [vm_compute; reflexivity|].
  apply (@assembled_sections_are_joined 1%nat
           [mkE [Some 5] [Some 1] 0 5; mkE [Some 6] [Some 1] 5 15]).
  vm_compute. reflexivity.
Defined.

End ShapeFacts.

(* ================================================================== *)
(** * A profile of one section *)

Module GroupFacts.
Import Num Py Frame Discretize.
Local Open Scope string_scope.
Local Open Scope list_scope.

Lemma classify_log_returns properties :
  exists l, classify_log properties = (l, Ret tt).
Proof.
  unfold classify_log. induction properties as [|v t (l & IH)].
  - now exists [].
  - cbn [for_each]. destruct (mem v ["conductivity"]).
    + unfold warning, ret, bind in *. cbv beta iota. rewrite IH. eexists. reflexivity.
    + unfold warning, ret, bind in *. cbv beta iota. rewrite IH. eexists. reflexivity.
Qed.

Lemma matrix_single v_ref r _variables lo su :
  y_low r = Some lo -> y_sup r = Some su ->
  exists x, matrix v_ref [r] _variables = Ret [x].
Proof.
  intros Hlo Hsu. unfold matrix, bounds. cbn [map all_some]. rewrite Hlo, Hsu.
  cbn [option_map map2 Cont.sort_by rev app fold_right Cont.insert_by map].
  destruct (String.eqb v_ref "bottom"); [|eexists; reflexivity].
  cbn [fst snd]. destruct (Qltb lo su); eexists; reflexivity.
Qed.

Lemma has_col_columns profile k : has_col profile k = true -> columns profile <> [].
Proof. unfold has_col. destruct (columns profile); [discriminate | discriminate]. Qed.

Lemma group_body_single profile r v_ref y_mid fill_extremity st lo su :
  rows profile = [r] -> has_col profile "variable" = true ->
  y_low r = Some lo -> y_sup r = Some su ->
  all_cols profile ("y_low" :: "y_sup" :: fst (classify (split (variable r)))) = true ->
  row_var st = None ->
  exists log,
    group_body profile v_ref y_mid fill_extremity (variable r) st
    = (log, Raise UnboundLocalError).
Proof.
  intros Hrows Hvar Hlo Hsu Hcols Hrow. unfold group_body.
  rewrite Hrows. unfold group_rows. cbn [filter].
  rewrite String.eqb_refl.
  unfold get_property, has_col. cbn [columns]. fold (has_col profile "variable").
  rewrite Hvar. unfold groups. cbn [rows map unique filter flat_map].
  rewrite app_nil_r. cbn [from_option lift].
  destruct (classify_log_returns (split (variable r))) as (l & El).
  assert (Hc : is_continuous (mkFrame (columns profile) [r]) = false).
  { unfold is_continuous. cbn [rows forallb]. rewrite Hlo. cbn [isnan andb].
    rewrite andb_false_r.
    assert (H : has_col (mkFrame (columns profile) [r]) "y_low" = true).
    { unfold all_cols in Hcols. cbn [forallb] in Hcols.
      apply andb_true_iff in Hcols as [H _]. exact H. }
    rewrite H. reflexivity. }
  exists l. unfold lift. unfold bind at 1. cbv beta iota.
  rewrite El. unfold bind at 1. cbv beta iota.
  destruct (classify (split (variable r))) as [_variables _del_variables].
  cbn [fst] in Hcols. rewrite Hc.
  assert (Hs : step_group profile v_ref [r] _variables _del_variables
                          fill_extremity st = Raise UnboundLocalError).
  { unfold step_group. rewrite Hcols. cbn [negb].
    destruct (@matrix_single v_ref r _variables lo su Hlo Hsu) as (x & ->).
    cbn [obind]. rewrite Hrow. reflexivity. }
  rewrite Hs. unfold bind. cbn [app]. rewrite app_nil_r. reflexivity.
Qed.

(** A profile of salinity with the single section [0, 10]. *)
Definition one_section : DataFrame :=
  mkFrame ["name"; "variable"; "v_ref"; "y_low"; "y_mid"; "y_sup"; "salinity"]
    [ mkRow "core1" "salinity" "top" nan nan (Some 0) (Some 5) (Some 10)
            [("salinity", Some 5)] ].

(** A profile of one section.  On a profile that holds a single row,
    a section with both bounds, with the columns of its bounds and of
    its properties, [discretize_profile] raises whatever the target
    edges: with one section the loop of line 324 does not run, and line
    328 reads its variable [row], which is unbound. *)
Theorem one_section_profile_raises :
  forall profile r y_bins y_mid fill_extremity lo su,
    rows profile = [r] ->
    has_col profile "v_ref" = true -> has_col profile "variable" = true ->
    y_low r = Some lo -> y_sup r = Some su ->
    all_cols profile ("y_low" :: "y_sup" :: fst (classify (split (variable r)))) = true ->
    exists log,
      discretize_profile profile (Some y_bins) y_mid fill_extremity
      = (log, Raise UnboundLocalError).
Proof.
  intros profile r y_bins y_mid fe lo su Hrows Hv Hvar Hlo Hsu Hcols.
  unfold discretize_profile.
  assert (He : empty profile = false).
  { unfold empty. rewrite Hrows. pose proof (has_col_columns _ _ Hv).
    destruct (columns profile); [congruence | reflexivity]. }
  rewrite He, Hv, Hvar, Hrows. cbn [targets lift].
  unfold groups. rewrite Hrows. cbn [map unique filter for_each].
  destruct (@group_body_single profile r (v_ref r)
              (map2 Qplus (halves (Step.diff y_bins)) (removelast y_bins)) fe
              (mkSt [] [] y_bins None) lo su Hrows Hvar Hlo Hsu Hcols eq_refl)
    as (log & E).
  exists log. unfold bind, ret, lift. rewrite E. reflexivity.
Qed.
Lemma one_section_profile_raises_witness :
  exists log,
    discretize_profile one_section (Some [0; 10]%Q) None false
    = (log, Raise UnboundLocalError).
Proof.
  apply (@one_section_profile_raises one_section
           (mkRow "core1" "salinity" "top" nan nan (Some 0%Q) (Some 5%Q) (Some 10%Q)
                  [("salinity", Some 5%Q)]) [0; 10]%Q None false 0%Q 10%Q);
    reflexivity.
Defined.

End GroupFacts.

(* ================================================================== *)
(** * Properties of discretize_profile *)

Module DiscretizeFacts.

Import Num Py Frame Discretize Cases.
Local Open Scope string_scope.
Local Open Scope list_scope.
Local Open Scope Q_scope.


(** C3.  On an empty profile [discretize_profile] logs its warning and
    then raises: the reference is read from a profile that has no row, or
    no column. *)
Theorem C3_empty_profile_raises :
  forall profile y_bins y_mid fill_extremity,
    empty profile = true ->
    exists e,
      discretize_profile profile y_bins y_mid fill_extremity
      = ([empty_warning], Raise e).
Proof.
  intros profile y_bins y_mid fe Hempty.
  unfold discretize_profile. rewrite Hempty.
  destruct (has_col profile "v_ref") eqn:Hcol.
  - destruct profile as [cols rws]. unfold empty in Hempty. cbn in *.
    destruct rws as [|r rws].
    + exists IndexError. reflexivity.
    + destruct cols; [discriminate Hcol | discriminate Hempty].
  - exists AttributeError. reflexivity.
Qed.

Lemma C3_empty_profile_raises_witness :
  empty no_rows = true
  /\ exists e, discretize_profile no_rows (Some [0; 5]) None false
               = ([empty_warning], Raise e).
Proof.
  split; [reflexivity|].
  apply (C3_empty_profile_raises no_rows (Some [0; 5]) None false).
  reflexivity.
Defined.

End DiscretizeFacts.

(* ================================================================== *)
(** * Properties of the continuous resampler *)

Module ContFacts.
Import Num Py Cont NumFacts Cases.
Local Open Scope list_scope.
Local Open Scope Q_scope.

(** ** Sorting *)

Section SortFacts.
Context {A : Type} (key : A -> Q).

Definition key_le (a b : A) : Prop := key a <= key b.

Lemma insert_by_In x y l : In y (insert_by key x l) <-> y = x \/ In y l.
Proof.
  induction l as [|z l IH]; cbn.
  - intuition.
  - destruct (Qltb (key x) (key z)); cbn; [intuition|].
    rewrite IH. intuition.
Qed.

Lemma sort_by_In y l : In y (sort_by key l) <-> In y l.
Proof.
  unfold sort_by. rewrite (in_rev l). generalize (rev l) as l'.
  induction l' as [|x l' IH]; cbn; [tauto|].
  rewrite insert_by_In, IH. intuition.
Qed.

Lemma insert_by_sorted x l :
  StronglySorted key_le l -> StronglySorted key_le (insert_by key x l).
Proof.
  induction 1 as [|z l Hs IH Hz]; cbn.
  - constructor; constructor.
  - destruct (Qltb (key x) (key z)) eqn:E.
    + apply Qltb_lt in E. constructor; [constructor; assumption|].
      constructor; [unfold key_le; lra|].
      rewrite Forall_forall in *. intros y Hy. specialize (Hz y Hy).
      unfold key_le in *. lra.
    + apply Qltb_ge in E. constructor; [exact IH|].
      rewrite Forall_forall in *. intros y Hy. apply insert_by_In in Hy as [->|Hy].
      * exact E.
      * now apply Hz.
Qed.

Lemma sort_by_sorted l : StronglySorted key_le (sort_by key l).
Proof.
  unfold sort_by. generalize (rev l) as l'.
  induction l' as [|x l' IH]; cbn; [constructor | now apply insert_by_sorted].
Qed.

Lemma sorted_hd_le d l x :
  StronglySorted key_le l -> In x l -> key (hd d l) <= key x.
Proof.
  intros Hs Hx. destruct l as [|z l]; [destruct Hx|]. cbn.
  inversion Hs as [|? ? _ Hz]; subst. destruct Hx as [->|Hx]; [lra|].
  rewrite Forall_forall in Hz. now apply Hz.
Qed.

Lemma sorted_le_last d l x :
  StronglySorted key_le l -> In x l -> key x <= key (last l d).
Proof.
  induction 1 as [|z l Hs IH Hz]; intro Hx; [destruct Hx|].
  destruct l as [|z' l].
  - destruct Hx as [->|[]]. cbn. lra.
  - change (last (z :: z' :: l) d) with (last (z' :: l) d).
    destruct Hx as [->|Hx].
    + rewrite Forall_forall in Hz.
      assert (Hl : In (last (z' :: l) d) (z' :: l)).
      { apply (proj2 (in_rev _ _)). rewrite <- (rev_involutive (z' :: l)) at 1.
        destruct (rev (z' :: l)) as [|w t] eqn:Er.
        - apply (f_equal (@List.length A)) in Er. rewrite length_rev in Er.
          discriminate Er.
        - cbn [rev]. rewrite last_last. now left. }
      apply (Hz _ Hl).
    + now apply IH.
Qed.

End SortFacts.
(** ** Assignments on the lines *)

(** Same depth, and a line the mask leaves out is unchanged. *)
Definition kept (mask : Q -> bool) (a b : line) : Prop :=
  fst a = fst b /\ (mask (fst a) = false -> a = b).

Lemma assign_lines_kept mask l : forall values,
  Forall2 (kept mask) l (assign_lines mask values l).
Proof.
  induction l as [|[y v] l IH]; intro values; cbn; [constructor|].
  destruct (mask y) eqn:E.
  - destruct values as [|v' rest]; constructor; try apply IH;
      split; cbn; congruence.
  - constructor; [split; reflexivity | apply IH].
Qed.

Lemma broadcast_kept mask v (l : list line) :
  Forall2 (kept mask) l (map (fun a => if mask (fst a) then (fst a, v) else a) l).
Proof.
  induction l as [|a l IH]; cbn; constructor; [|exact IH].
  split; destruct (mask (fst a)); cbn; congruence.
Qed.

Lemma set_lines_kept mask values l l' :
  set_lines mask values l = Ret l' -> Forall2 (kept mask) l l'.
Proof.
  unfold set_lines. destruct values as [|v [|v' rest]].
  - destruct (Nat.eqb _ _); intro H; [|discriminate H].
    injection H as <-. apply assign_lines_kept.
  - intro H. injection H as <-. apply broadcast_kept.
  - destruct (Nat.eqb _ _); intro H; [|discriminate H].
    injection H as <-. apply assign_lines_kept.
Qed.

Lemma Forall2_compose {A} (R1 R2 R : A -> A -> Prop) (l1 l2 l3 : list A) :
  (forall a b c, R1 a b -> R2 b c -> R a c) ->
  Forall2 R1 l1 l2 -> Forall2 R2 l2 l3 -> Forall2 R l1 l3.
Proof.
  intros Hc H12. revert l3. induction H12 as [|a b l1 l2 Hab _ IH]; intros l3 H23.
  - inversion H23. constructor.
  - inversion H23 as [|? c ? l3' Hbc H23']; subst. constructor.
    + now apply (Hc a b c).
    + now apply IH.
Qed.

(** Same depth, and a line that meets none of the depths [idxs] is
    unchanged. *)
Definition apart (idxs : list Q) (a b : line) : Prop :=
  fst a = fst b /\ ((forall idx, In idx idxs -> near idx (fst a) = false) -> a = b).

Lemma copy_kept (yx : list line) idxs : forall l l',
  ofor_each idxs (fun index y2x => set_lines (near index) (values_at index yx) y2x) l
  = Ret l' ->
  Forall2 (apart idxs) l l'.
Proof.
  induction idxs as [|idx idxs IH]; intros l l' H.
  - cbn in H. injection H as <-. clear. induction l; constructor; [|assumption].
    split; reflexivity.
  - cbn [ofor_each] in H.
    destruct (set_lines (near idx) (values_at idx yx) l) as [l1|e] eqn:E;
      [|discriminate H].
    cbn [obind] in H. apply set_lines_kept in E. apply IH in H.
    apply (Forall2_compose (R1 := kept (near idx)) (R2 := apart idxs)) with (l2 := l1);
      [|assumption|assumption].
    intros a b c [Hab Hab'] [Hbc Hbc']. split; [congruence|].
    intro Hfar. rewrite Hab'.
    + apply Hbc'. intros i Hi. rewrite <- Hab. apply Hfar. now right.
    + apply Hfar. now left.
Qed.

(** A depth no target depth meets. *)
Definition far (y2 : list Q) (d : Q) : Prop :=
  forall y, In y y2 -> near d y = false.

Lemma Qeq_near y idx : Qeq_bool y idx = true -> near idx y = true.
Proof.
  intro H. apply Qeq_bool_iff in H. unfold near. apply Qltb_lt.
  assert (Hz : y - idx == 0) by lra.
  rewrite Hz. cbn. reflexivity.
Qed.

Lemma far_existsb y2 d : existsb (near d) y2 = false -> far y2 d.
Proof.
  intros H y Hy. destruct (near d y) eqn:E; [|reflexivity].
  assert (Hex : existsb (near d) y2 = true) by (apply existsb_exists; eauto).
  congruence.
Qed.

Lemma add_extremum_spec yx y2 index T A w y2x' w' :
  (forall t, In t T -> In (fst t) y2) ->
  Forall (fun a => far y2 (fst a)) A ->
  add_extremum yx y2 index (T ++ A, w) = Ret (y2x', w') ->
  exists A' Z,
    y2x' = T ++ A' /\ w' = w ++ Z
    /\ Forall (fun a => far y2 (fst a)) A'
    /\ Forall (fun z => z = 0) Z.
Proof.
  intros HT HA. unfold add_extremum.
  destruct (existsb (near index) y2) eqn:Enear; cbn [negb].
  - intro H. injection H as <- <-. exists A, []. rewrite app_nil_r.
    repeat split; [assumption | constructor].
  - apply far_existsb in Enear.
    destruct (existsb (fun l => Qeq_bool (fst l) index) (T ++ A)) eqn:Eex.
    + destruct (set_lines (fun y => Qeq_bool y index) (values_at index yx) (T ++ A))
        as [l1|e] eqn:E; cbn [obind]; intro H; [|discriminate H].
      injection H as <- <-. apply set_lines_kept in E.
      apply Forall2_app_inv_l in E as (T' & A' & HT' & HA' & ->).
      assert (T' = T) as ->.
      { clear - HT HT' Enear. induction HT' as [|a b T T' [Hab Hkeep] _ IH];
          [reflexivity|]. f_equal.
        - symmetry. apply Hkeep.
          destruct (Qeq_bool (fst a) index) eqn:Eq; [|reflexivity].
          apply Qeq_near in Eq. rewrite (Enear (fst a)) in Eq; [discriminate Eq|].
          apply HT. now left.
        - apply IH. intros t Ht. apply HT. now right. }
      exists A', [0]. repeat split; try (repeat constructor).
      clear - HA HA'. induction HA' as [|a b A A' [Hab _] _ IH]; [constructor|].
      inversion HA; subst. constructor; [now rewrite <- Hab | now apply IH].
    + destruct (values_at index yx) as [|v [|v' rest]]; intro H; try discriminate H.
      injection H as <- <-. exists (A ++ [(index, v)]), [0].
      rewrite app_assoc. repeat split; try (repeat constructor).
      apply Forall_app. split; [assumption|]. constructor; [exact Enear | constructor].
Qed.

(** ** The points of the output *)

Definition point_of (l : line) (w : Q) : point := mkP (fst l) (snd l) w.

Lemma map2_app {A B C} (f : A -> B -> C) l1 l2 m1 m2 :
  List.length l1 = List.length m1 ->
  map2 f (l1 ++ l2) (m1 ++ m2) = map2 f l1 m1 ++ map2 f l2 m2.
Proof.
  revert m1. induction l1 as [|x l1 IH]; intros [|y m1] H; try discriminate H.
  - reflexivity.
  - cbn. f_equal. apply IH. now injection H.
Qed.

Lemma target_points {R : line -> line -> Prop} (g : Q -> line) (wf : Q -> Q) y2 :
  forall T, Forall2 R (map g y2) T ->
    (forall p, In p (map2 point_of T (map wf y2)) ->
       exists y t, In y y2 /\ R (g y) t /\ p = point_of t (wf y))
    /\ (forall y, In y y2 ->
          exists t, R (g y) t /\ In (point_of t (wf y)) (map2 point_of T (map wf y2))).
Proof.
  induction y2 as [|y0 y2 IH]; intros T H; cbn [map] in H.
  - inversion H; subst. split; [intros p [] | intros y []].
  - inversion H as [|? t ? T' Ht HT']; subst.
    destruct (IH T' HT') as [IH1 IH2]. cbn [map map2]. split.
    + intros p [<-|Hp].
      * exists y0, t. repeat split; [now left | assumption].
      * destruct (IH1 p Hp) as (y & t' & Hy & Hr & ->).
        exists y, t'. repeat split; [now right | assumption].
    + intros y [<-|Hy].
      * exists t. split; [assumption | now left].
      * destruct (IH2 y Hy) as (t' & Hr & Hin). exists t'. split; [assumption | now right].
Qed.

Lemma interpolate_lines n_var yx y2 :
  interpolate n_var yx y2
  = map (fun y => (y, map (fun j => np_interp y (column j yx)) (seq 0 n_var))) y2.
Proof. reflexivity. Qed.

Lemma resample_parts n_var yx y_mid pts :
  resample n_var yx y_mid = Ret pts ->
  exists T A Z,
    Forall2 (apart (map fst yx)) (interpolate n_var yx y_mid) T
    /\ Forall (fun a => far y_mid (fst a)) A
    /\ Forall (fun z => z = 0) Z
    /\ forall p, In p pts <->
         In p (map2 point_of T (map (weight_of yx) y_mid) ++ map2 point_of A Z).
Proof.
  unfold resample. destruct yx as [|l0 yx0] eqn:Eyx; [discriminate|].
  rewrite <- Eyx. clear Eyx l0 yx0.
  destruct (copy_exact yx (interpolate n_var yx y_mid)) as [T|e] eqn:Ecopy;
    [|discriminate].
  cbn [obind]. apply copy_kept in Ecopy.
  assert (HT : forall t, In t T -> In (fst t) y_mid).
  { clear - Ecopy. rewrite interpolate_lines in Ecopy.
    revert T Ecopy. induction y_mid as [|y y2 IH]; intros T H; cbn [map] in H.
    - inversion H. intros t [].
    - inversion H as [|? t0 ? T' [Hfst _] HT']; subst. intros t [<-|Ht].
      + left. exact Hfst.
      + right. now apply (IH T'). }
  assert (Hlen : List.length T = List.length (map (weight_of yx) y_mid)).
  { apply Forall2_length in Ecopy. rewrite <- Ecopy.
    unfold interpolate. now rewrite !length_map. }
  match goal with
  | |- obind ?x _ = _ -> _ => destruct x as [[y2x1 w1]|e] eqn:E1; [|discriminate]
  end.
  cbn [obind].
  rewrite <- (app_nil_r T) in E1.
  apply (@add_extremum_spec yx y_mid _ T [] _ y2x1 w1 HT (Forall_nil _)) in E1
    as (A1 & Z1 & -> & -> & HA1 & HZ1).
  match goal with
  | |- obind ?x _ = _ -> _ => destruct x as [[y2x2 w2]|e] eqn:E2; [|discriminate]
  end.
  cbn [obind].
  apply (@add_extremum_spec yx y_mid _ T A1 _ y2x2 w2 HT HA1) in E2
    as (A2 & Z2 & -> & -> & HA2 & HZ2).
  destruct (Nat.eqb _ _); [|discriminate]. intro H. injection H as <-.
  exists T, A2, (Z1 ++ Z2). repeat split; try assumption.
  - apply Forall_app. now split.
  - rewrite sort_by_In. rewrite <- app_assoc, map2_app by exact Hlen. tauto.
  - rewrite sort_by_In. rewrite <- app_assoc, map2_app by exact Hlen. tauto.
Qed.

(** ** Outside and inside the source *)

Lemma first_x_column j (yx : list line) :
  first_x (column j yx) = first_depth yx.
Proof. destruct yx; reflexivity. Qed.

Lemma last_x_column j (yx : list line) :
  last_x (column j yx) = last_depth yx.
Proof.
  unfold last_x, last_depth, column. induction yx as [|a [|b yx] IH]; try reflexivity.
  exact IH.
Qed.

Lemma interp_outside j (yx : list line) y :
  y < first_depth yx \/ last_depth yx < y ->
  np_interp y (column j yx) = nan.
Proof.
  intro H. unfold np_interp. rewrite first_x_column, last_x_column.
  destruct (Qltb y (first_depth yx)) eqn:E1; [reflexivity|].
  destruct (Qltb (last_depth yx ) y) eqn:E2; [reflexivity|].
  apply Qltb_ge in E1, E2. lra.
Qed.

Lemma near_false idx y : TOL <= Qabs (y - idx) -> near idx y = false.
Proof. intro H. unfold near. now apply Qltb_ge. Qed.

Lemma near_same d y : d == y -> near d y = true.
Proof.
  intro H. unfold near. apply Qltb_lt.
  assert (Hz : y - d == 0) by lra. rewrite Hz. reflexivity.
Qed.

Lemma weight_inside yx y :
  first_depth yx - TOL <= y <= last_depth yx + TOL ->
  weight_of yx y = 1.
Proof.
  intros [H1 H2]. unfold weight_of.
  apply Qle_bool_iff in H1, H2. now rewrite H1, H2.
Qed.

Lemma weight_outside yx y :
  y < first_depth yx - TOL \/ last_depth yx + TOL < y ->
  weight_of yx y = 0.
Proof.
  intro H. unfold weight_of.
  destruct (Qle_bool (first_depth yx - TOL) y) eqn:E1; [|reflexivity].
  destruct (Qle_bool y (last_depth yx + TOL)) eqn:E2; [|reflexivity].
  apply Qle_bool_iff in E1, E2. lra.
Qed.

(** The first and the last depth of the sorted source are its least
    and its greatest depth. *)
Lemma sorted_extremes (lines : list line) lo hi :
  is_min lo (map fst lines) -> is_max hi (map fst lines) ->
  let yx := sort_by fst lines in
  first_depth yx == lo /\ last_depth yx == hi
  /\ forall idx, In idx (map fst yx) -> lo <= idx <= hi.
Proof.
  intros [Hlo Hmin] [Hhi Hmax] yx.
  assert (Hs : StronglySorted (key_le fst) yx) by apply sort_by_sorted.
  assert (Hin : forall x, In x yx <-> In x lines) by (intro x; apply sort_by_In).
  apply in_map_iff in Hlo as (xlo & Elo & Hxlo).
  apply in_map_iff in Hhi as (xhi & Ehi & Hxhi).
  assert (Hne : yx <> []).
  { intro E. apply Hin in Hxlo. rewrite E in Hxlo. exact Hxlo. }
  assert (Hhd : In (hd (0, []) yx) yx).
  { destruct yx; [congruence | now left]. }
  assert (Hlast : In (last yx (0, [])) yx).
  { destruct (exists_last Hne) as (l' & a & E). rewrite E, last_last.
    apply in_or_app. right. now left. }
  unfold first_depth, last_depth. repeat split.
  - apply Qle_antisym.
    + rewrite <- Elo. apply (sorted_hd_le (key := fst)); [exact Hs | now apply Hin].
    + apply Hmin. apply in_map. now apply Hin.
  - apply Qle_antisym.
    + apply Hmax. apply in_map. now apply Hin.
    + rewrite <- Ehi. apply (sorted_le_last (key := fst)); [exact Hs | now apply Hin].
  - apply in_map_iff in H as (x & <- & Hx). apply Hmin. apply in_map. now apply Hin.
  - apply in_map_iff in H as (x & <- & Hx). apply Hmax. apply in_map. now apply Hin.
Qed.

(** C9.  In the continuous resampling of a source sorted on its depths,
    of least depth [lo] and greatest depth [hi]: every target depth has
    its point in the output; a point at a target depth beyond [lo - TOL]
    or [hi + TOL] holds NaN for every variable and the weight 0; a point
    at a target depth within [lo - TOL, hi + TOL] has the weight 1. *)
Theorem C9_continuous_weights :
  forall n_var (lines : list line) y_mid pts lo hi,
    is_min lo (map fst lines) -> is_max hi (map fst lines) ->
    resample n_var (sort_by fst lines) y_mid = Ret pts ->
    forall y, In y y_mid ->
      (exists p, In p pts /\ p_y p = y)
      /\ forall p, In p pts -> p_y p == y ->
           ((y < lo - TOL \/ hi + TOL < y) -> all_nan (p_x p) /\ p_w p = 0)
           /\ (lo - TOL <= y <= hi + TOL -> p_w p = 1).
Proof.
  intros n_var lines y_mid pts lo hi Hlo Hhi Hres y Hy.
  destruct (@sorted_extremes lines lo hi Hlo Hhi) as (Elo & Ehi & Hbetween).
  set (yx := sort_by fst lines) in *.
  apply resample_parts in Hres as (T & A & Z & HT & HA & HZ & Hpts).
  rewrite interpolate_lines in HT.
  destruct (@target_points _ _ (weight_of yx) y_mid T HT) as [Hfrom Hto].
  split.
  - destruct (Hto y Hy) as (t & [Hfst _] & Hin). exists (point_of t (weight_of yx y)).
    split; [apply Hpts, in_or_app; now left | symmetry; exact Hfst].
  - intros p Hp Heq. apply Hpts, in_app_or in Hp as [Hp|Hp].
    + destruct (Hfrom p Hp) as (y' & t & Hy' & [Hfst Hkeep] & ->).
      cbn [fst snd] in Hfst, Hkeep. cbn [point_of p_y p_x p_w] in *.
      rewrite <- Hfst in Heq. split.
      * intro Hout. split.
        -- rewrite <- Hkeep.
           ++ cbn [snd]. unfold all_nan. apply Forall_forall. intros x Hx.
              apply in_map_iff in Hx as (j & <- & _). apply interp_outside.
              unfold TOL in *. lra.
           ++ intros idx Hidx. apply near_false. specialize (Hbetween idx Hidx).
              unfold TOL in *. apply Qabs_case; intro; lra.
        -- apply weight_outside. unfold TOL in *. lra.
      * intro Hin. apply weight_inside. unfold TOL in *. lra.
    + exfalso. clear - Hp HA Heq Hy.
      revert Z Hp. induction HA as [|a A Ha _ IH]; intros Z Hp.
      * destruct Hp.
      * destruct Z as [|z Z]; [destruct Hp|]. destruct Hp as [<-|Hp].
        -- cbn in Heq. pose proof (Ha y Hy) as Hfar.
           rewrite (near_same Heq) in Hfar. discriminate Hfar.
        -- now apply (IH Z).
Qed.

Lemma C9_continuous_weights_witness :
  exists pts,
    resample 1 (sort_by fst three_points) [-5; 0; 5; 25] = Ret pts
    /\ forall y, In y [-5; 0; 5; 25] ->
         (exists p, In p pts /\ p_y p = y)
         /\ forall p, In p pts -> p_y p == y ->
              ((y < 0 - TOL \/ 20 + TOL < y) -> all_nan (p_x p) /\ p_w p = 0)
              /\ (0 - TOL <= y <= 20 + TOL -> p_w p = 1).
Proof.
  eexists. split; [vm_compute; reflexivity|].
  apply (@C9_continuous_weights 1 three_points [-5; 0; 5; 25] _ 0 20).
  - split; [cbn; tauto|]. intros d [<-|[<-|[<-|[]]]]; vm_compute; discriminate.
  - split; [cbn; tauto|]. intros d [<-|[<-|[<-|[]]]]; vm_compute; discriminate.
  - vm_compute. reflexivity.
Defined.

End ContFacts.

(* ================================================================== *)
(** * The text built by delete_profile and its evaluation *)

Module ExprFacts.

Import Num Py Frame Expr Ops Cases.
Local Open Scope string_scope.
Local Open Scope list_scope.
Local Open Scope nat_scope.

Lemma string_app_assoc (a b c : string) : ((a ++ b) ++ c = a ++ b ++ c)%string.
Proof. induction a as [|x a IH]; cbn; [reflexivity | now rewrite IH]. Qed.

Lemma string_app_nil_r (a : string) : (a ++ "" = a)%string.
Proof. induction a as [|x a IH]; cbn; [reflexivity | now rewrite IH]. Qed.

Lemma string_length_app (a b : string) :
  String.length (a ++ b) = String.length a + String.length b.
Proof. induction a as [|x a IH]; cbn; [reflexivity | now rewrite IH]. Qed.

Lemma substring_prefix (a b : string) :
  substring 0 (String.length a) (a ++ b) = a.
Proof.
  induction a as [|x a IH]; cbn.
  - destruct b; reflexivity.
  - now rewrite IH.
Qed.

Lemma drop_last4_sep (a : string) : drop_last4 (a ++ " | (") = a.
Proof.
  unfold drop_last4. rewrite string_length_app. cbn [String.length].
  replace (String.length a + 4 - 4) with (String.length a) by lia.
  apply substring_prefix.
Qed.

(** ** The text *)

(** One comparison, closed, and the separator the loop leaves behind. *)
Definition body (k : string) (i : nat) : string :=
  ("ics_stack." ++ k ++ "!=ii_var[" ++ fmt_d i ++ "])")%string.

Fixpoint bodies (L : list (string * cell)) (i : nat) : string :=
  match L with
  | [] => ""
  | kv :: t => (body (fst kv) i ++ " | (" ++ bodies t (S i))%string
  end.

Fixpoint rest (L : list (string * cell)) (i : nat) : string :=
  match L with
  | [] => ""
  | kv :: t => (" | (" ++ body (fst kv) i ++ rest t (S i))%string
  end.

Lemma delete_profile_loop ics_stack variable_dict st :
  fold_left (delete_profile_step ics_stack) variable_dict st
  = mkSel (str_select st ++ bodies (usable ics_stack variable_dict) (ii st))
          (ii_var st ++ map snd (usable ics_stack variable_dict))
          (ii st + List.length (usable ics_stack variable_dict)).
Proof.
  revert st. induction variable_dict as [|kv t IH]; intros [s vs i].
  - cbn. now rewrite string_app_nil_r, app_nil_r, Nat.add_0_r.
  - cbn [fold_left]. rewrite IH. unfold delete_profile_step, usable.
    cbn [filter]. destruct (has_col ics_stack (fst kv)); cbn [str_select ii_var ii].
    + cbn [bodies map List.length]. unfold body. f_equal.
      * rewrite !string_app_assoc. cbn. reflexivity.
      * now rewrite <- app_assoc.
      * lia.
    + reflexivity.
Qed.

Lemma bodies_rest kv t i :
  bodies (kv :: t) i = ((body (fst kv) i ++ rest t (S i)) ++ " | (")%string.
Proof.
  revert kv i. induction t as [|kv' t IH]; intros kv i.
  - cbn [bodies rest]. now rewrite !string_app_nil_r.
  - cbn [bodies] in *. rewrite IH. cbn [rest].
    now rewrite !string_app_assoc.
Qed.

(** ** Scanning *)

Lemma scan_app st a b :
  scan st (a ++ b)
  = match scan st a with
    | None => None
    | Some (ta, st') => option_map (fun p => (ta ++ fst p, snd p)) (scan st' b)
    end.
Proof.
  revert st. induction a as [|c a IH]; intros st.
  - cbn. destruct (scan st b) as [[tb st']|]; reflexivity.
  - cbn [scan append]. destruct (lstep st c) as [[ts st1]|]; [|reflexivity].
    rewrite IH. destruct (scan st1 a) as [[ta st2]|]; [|reflexivity].
    cbn. destruct (scan st2 b) as [[tb st3]|]; [|reflexivity].
    cbn. now rewrite app_assoc.
Qed.

Lemma idle_start c :
  is_start c = true -> idle_step c = Some ([], LName (String c "")).
Proof.
  destruct c as [[] [] [] [] [] [] [] []]; intro H;
    solve [discriminate H | reflexivity].
Qed.

Lemma idle_digit c :
  is_digit c = true -> idle_step c = Some ([], LNum (String c "")).
Proof.
  destruct c as [[] [] [] [] [] [] [] []]; intro H;
    solve [discriminate H | reflexivity].
Qed.

Lemma digit_not_start c : is_digit c = true -> is_start c = false.
Proof.
  destruct c as [[] [] [] [] [] [] [] []]; intro H;
    solve [discriminate H | reflexivity].
Qed.

Lemma scan_name_part s acc :
  all_chars is_part s = true ->
  scan (LName acc) s = Some ([], LName (acc ++ s)%string).
Proof.
  revert acc. induction s as [|c s IH]; intros acc H.
  - cbn. now rewrite string_app_nil_r.
  - cbn in H. apply andb_prop in H as [Hc Hs].
    cbn [scan lstep]. rewrite Hc. rewrite (IH _ Hs). cbn.
    unfold snoc. rewrite string_app_assoc. reflexivity.
Qed.

Lemma scan_digits s acc :
  all_chars is_digit s = true ->
  scan (LNum acc) s = Some ([], LNum (acc ++ s)%string).
Proof.
  revert acc. induction s as [|c s IH]; intros acc H.
  - cbn. now rewrite string_app_nil_r.
  - cbn in H. apply andb_prop in H as [Hc Hs].
    cbn [scan lstep]. rewrite Hc. rewrite (IH _ Hs). cbn.
    unfold snoc. rewrite string_app_assoc. reflexivity.
Qed.

Lemma scan_identifier k :
  is_identifier k = true ->
  scan LIdle k = Some ([], LName k) /\ name_token k = TNAME k.
Proof.
  unfold is_identifier. intro H. apply andb_prop in H as [H Hkw].
  destruct k as [|c s]; [discriminate H|].
  apply andb_prop in H as [Hc Hs]. split.
  - cbn [scan lstep]. rewrite (idle_start _ Hc).
    rewrite (scan_name_part _ _ Hs). reflexivity.
  - unfold name_token. apply negb_true_iff in Hkw. now rewrite Hkw.
Qed.

Lemma digits_of_uint d : all_chars is_digit (NilEmpty.string_of_uint d) = true.
Proof. induction d; cbn [NilEmpty.string_of_uint all_chars]; try rewrite IHd; reflexivity. Qed.

Lemma scan_number i :
  scan LIdle (fmt_d i) = Some ([], LNum (fmt_d i))
  /\ num_token (fmt_d i) = Some (TNUM i).
Proof.
  unfold fmt_d. split.
  - pose proof (digits_of_uint (Nat.to_uint i)) as H.
    destruct (NilEmpty.string_of_uint (Nat.to_uint i)) as [|c s] eqn:E.
    + exfalso. apply (DecimalFacts.unorm_nonnil (Nat.to_uint i)).
      rewrite <- DecimalNat.Unsigned.to_of, DecimalNat.Unsigned.of_to.
      destruct (Nat.to_uint i); try discriminate E. reflexivity.
    + cbn in H. apply andb_prop in H as [Hc Hs].
      cbn [scan lstep]. rewrite (idle_digit _ Hc), (scan_digits _ _ Hs).
      reflexivity.
  - unfold num_token. rewrite NilEmpty.usu. cbn.
    now rewrite DecimalNat.Unsigned.of_to.
Qed.

(** The tokens of one comparison. *)
Definition body_tokens (k : string) (i : nat) : list token :=
  [TNAME "ics_stack"; TDOT; TNAME k; TNEQ; TNAME "ii_var"; TLBRACK; TNUM i;
   TRBRACK; TRPAR].

Fixpoint rest_tokens (L : list (string * cell)) (i : nat) : list token :=
  match L with
  | [] => []
  | kv :: t => [TBAR; TLPAR] ++ body_tokens (fst kv) i ++ rest_tokens t (S i)
  end.

Lemma scan_app_some st a b ta st' :
  scan st a = Some (ta, st') ->
  scan st (a ++ b) = option_map (fun p => (ta ++ fst p, snd p)) (scan st' b).
Proof. intro H. now rewrite scan_app, H. Qed.

Lemma scan_body k i :
  is_identifier k = true ->
  scan LIdle (body k i) = Some (body_tokens k i, LIdle).
Proof.
  intro Hk. destruct (scan_identifier _ Hk) as [Hs Hn].
  destruct (scan_number i) as [Hd Hnum].
  unfold body.
  rewrite (@scan_app_some LIdle "ics_stack." _
             [TNAME "ics_stack"; TDOT] LIdle eq_refl).
  rewrite (@scan_app_some _ _ _ _ _ Hs).
  rewrite (@scan_app_some (LName k) "!=ii_var[" _
             [name_token k; TNEQ; TNAME "ii_var"; TLBRACK] LIdle eq_refl).
  rewrite (@scan_app_some _ _ _ _ _ Hd).
  assert (Hend : scan (LNum (fmt_d i)) "])" = Some ([TNUM i; TRBRACK; TRPAR], LIdle)).
  { cbn. rewrite Hnum. reflexivity. }
  rewrite Hend, Hn. reflexivity.
Qed.

Lemma scan_rest L i :
  Forall (fun kv => is_identifier (fst kv) = true) L ->
  scan LIdle (rest L i) = Some (rest_tokens L i, LIdle).
Proof.
  revert i. induction L as [|kv t IH]; intros i H; [reflexivity|].
  inversion H as [|? ? Hk Ht]; subst.
  cbn [rest rest_tokens].
  rewrite (@scan_app_some LIdle " | (" _ [TBAR; TLPAR] LIdle eq_refl).
  rewrite (@scan_app_some _ _ _ _ _ (@scan_body _ i Hk)), (IH _ Ht). reflexivity.
Qed.

Lemma lex_text kv t :
  Forall (fun kv => is_identifier (fst kv) = true) (kv :: t) ->
  lex ("(" ++ body (fst kv) 0 ++ rest t 1)
  = Some (TLPAR :: body_tokens (fst kv) 0 ++ rest_tokens t 1).
Proof.
  intro H. inversion H as [|? ? Hk Ht]; subst.
  unfold lex.
  rewrite (@scan_app_some LIdle "(" _ [TLPAR] LIdle eq_refl).
  rewrite (@scan_app_some _ _ _ _ _ (@scan_body _ 0 Hk)), (@scan_rest _ 1 Ht). cbn.
  now rewrite app_nil_r.
Qed.

(** ** Parsing *)

Lemma psteps_app st a b :
  psteps st (a ++ b)
  = match psteps st a with Some st' => psteps st' b | None => None end.
Proof.
  revert st. induction a as [|t a IH]; intros st; [reflexivity|].
  cbn [psteps app]. destruct (pstep st t); [apply IH | reflexivity].
Qed.

(** One comparison as an expression. *)
Definition comparison (k : string) (i : nat) : expr :=
  ENeq (EAttr (EName "ics_stack") k) (EIndex (EName "ii_var") (ENum i)).

(** The disjunction grown to the left, as Python associates [|]. *)
Fixpoint disjunction (acc : expr) (L : list (string * cell)) (i : nat) : expr :=
  match L with
  | [] => acc
  | kv :: t => disjunction (EOr acc (comparison (fst kv) i)) t (S i)
  end.

(** The parser between two comparisons of the top level. *)
Definition between (ol : option expr) (e : expr) : pstate :=
  mkPS (mkL None ol (Some e) false) [].

Lemma psteps_body c k i enc :
  psteps (mkPS fresh ((Paren, c) :: enc)) (body_tokens k i)
  = Some (mkPS (with_cur c (Some (comparison k i))) enc).
Proof. reflexivity. Qed.

Lemma psteps_rest L i ol e :
  exists ol' e',
    psteps (between ol e) (rest_tokens L i) = Some (between ol' e')
    /\ mk_or ol' e' = disjunction (mk_or ol e) L i.
Proof.
  revert i ol e. induction L as [|kv t IH]; intros i ol e.
  - exists ol, e. split; reflexivity.
  - destruct (IH (S i) (Some (mk_or ol e)) (comparison (fst kv) i))
      as (ol' & e' & Hp & Hv).
    exists ol', e'. split; [|exact Hv].
    cbn [rest_tokens]. rewrite psteps_app. cbn [psteps pstep between top cur
      dotted cmp_left or_left enclosing].
    rewrite psteps_app, psteps_body. exact Hp.
Qed.

Lemma parse_text (kv : string * cell) t :
  parse (TLPAR :: body_tokens (fst kv) 0 ++ rest_tokens t 1)
  = Some (disjunction (comparison (fst kv) 0) t 1).
Proof.
  unfold parse.
  change (TLPAR :: body_tokens (fst kv) 0 ++ rest_tokens t 1)
    with ([TLPAR] ++ body_tokens (fst kv) 0 ++ rest_tokens t 1).
  rewrite psteps_app. cbn [psteps pstep top dotted cur fresh enclosing].
  rewrite psteps_app, psteps_body.
  destruct (psteps_rest t 1 None (comparison (fst kv) 0)) as (ol' & e' & Hp & Hv).
  change (mkPS (with_cur fresh (Some (comparison (fst kv) 0))) [])
    with (between None (comparison (fst kv) 0)).
  rewrite Hp. unfold between. cbn [close dotted cur cmp_left or_left].
  f_equal. exact Hv.
Qed.

(** ** Evaluation *)

Lemma eval_comparison ics_stack vars k i v :
  has_col ics_stack k = true ->
  nth_error vars i = Some v ->
  eval_expr ics_stack vars (comparison k i)
  = Ret (VMask (map (fun r => cell_neq (cell_of k r) v) (rows ics_stack))).
Proof.
  intros Hk Hv. cbn. rewrite Hk. cbn. rewrite Hv. cbn.
  now rewrite map_map.
Qed.

Lemma map2_orb_map {A} (f g : A -> bool) (l : list A) :
  map2 orb (map f l) (map g l) = map (fun x => f x || g x) l.
Proof. induction l as [|x l IH]; cbn; [reflexivity | now rewrite IH]. Qed.

Lemma eval_disjunction ics_stack pre L acc m :
  Forall (fun kv => has_col ics_stack (fst kv) = true) L ->
  eval_expr ics_stack (pre ++ map snd L) acc = Ret (VMask (map m (rows ics_stack))) ->
  eval_expr ics_stack (pre ++ map snd L) (disjunction acc L (List.length pre))
  = Ret (VMask (map (fun r => m r || differs L r) (rows ics_stack))).
Proof.
  revert pre acc m. induction L as [|kv t IH]; intros pre acc m HL Hacc.
  - cbn [disjunction]. rewrite Hacc. f_equal. f_equal. apply map_ext.
    intro r. cbn. now rewrite orb_false_r.
  - inversion HL as [|? ? Hk Ht]; subst.
    cbn [disjunction differs existsb map].
    specialize (IH (pre ++ [snd kv]) (EOr acc (comparison (fst kv) (List.length pre)))
                   (fun r => m r || cell_neq (cell_of (fst kv) r) (snd kv)) Ht).
    rewrite <- app_assoc in IH. cbn [app] in IH.
    rewrite length_app in IH. cbn [List.length] in IH.
    replace (List.length pre + 1) with (S (List.length pre)) in IH by lia.
    rewrite IH.
    + f_equal. f_equal. apply map_ext. intro r. now rewrite orb_assoc.
    + cbn [eval_expr]. cbn [map] in Hacc. rewrite Hacc.
      rewrite (@eval_comparison ics_stack _ (fst kv) (List.length pre) (snd kv) Hk).
      * cbn. now rewrite map2_orb_map.
      * rewrite nth_error_app2 by lia. now rewrite Nat.sub_diag.
Qed.

Lemma keep_map {A} (f : A -> bool) (l : list A) : keep (map f l) l = filter f l.
Proof.
  induction l as [|x l IH]; cbn; [reflexivity|].
  destruct (f x); now rewrite IH.
Qed.

Lemma usable_has_col ics_stack variable_dict :
  Forall (fun kv => has_col ics_stack (fst kv) = true) (usable ics_stack variable_dict).
Proof.
  unfold usable. apply Forall_forall. intros kv H.
  apply filter_In in H. apply H.
Qed.

(** What [delete_profile] returns when a key at least is a column and the
    keys that are columns are identifiers. *)
Lemma delete_profile_filter ics_stack variable_dict :
  usable ics_stack variable_dict <> [] ->
  Forall (fun kv => is_identifier (fst kv) = true) (usable ics_stack variable_dict) ->
  delete_profile ics_stack variable_dict
  = Ret (mkFrame (columns ics_stack)
                 (filter (differs (usable ics_stack variable_dict)) (rows ics_stack))).
Proof.
  intros Hne Hid. unfold delete_profile.
  rewrite delete_profile_loop. cbn [str_select ii_var ii].
  pose proof (usable_has_col ics_stack variable_dict) as Hcols.
  destruct (usable ics_stack variable_dict) as [|kv t] eqn:E; [congruence|].
  rewrite bodies_rest. rewrite <- string_app_assoc, drop_last4_sep.
  unfold py_eval. rewrite (lex_text Hid), parse_text.
  inversion Hcols as [|? ? Hk Ht]; subst.
  pose proof (@eval_disjunction ics_stack [snd kv] t (comparison (fst kv) 0)
                (fun r => cell_neq (cell_of (fst kv) r) (snd kv)) Ht) as Hev.
  cbn [app map List.length] in Hev |- *.
  rewrite Hev.
  - cbn. f_equal. f_equal. apply keep_map.
  - apply eval_comparison; [exact Hk | reflexivity].
Qed.

End ExprFacts.

(* ================================================================== *)
(** * set_profile_orientation, group after group *)

Module OrientFacts.

Import Num Py Frame Ops Cases.
Local Open Scope string_scope.
Local Open Scope list_scope.
Local Open Scope nat_scope.

Lemma mem_In x l : mem x l = true <-> In x l.
Proof.
  unfold mem. rewrite existsb_exists. split.
  - intros (y & Hy & E). apply String.eqb_eq in E. now subst.
  - intro H. exists x. split; [exact H | apply String.eqb_refl].
Qed.

Lemma mem_false x l : mem x l = false <-> ~ In x l.
Proof.
  rewrite <- mem_In. destruct (mem x l); split; intro H;
    solve [discriminate H | reflexivity | intro H'; discriminate H'
          | exfalso; apply H; reflexivity].
Qed.

Lemma unique_In x l : In x (unique l) <-> In x l.
Proof.
  induction l as [|y l IH]; cbn; [tauto|].
  rewrite filter_In, IH, negb_true_iff, String.eqb_neq.
  destruct (string_dec y x) as [->|Hne]; [tauto|].
  split; [tauto|]. intros [H|H]; [congruence|]. right. split; [exact H|].
  intro E. apply Hne. now subst.
Qed.

Lemma unique_NoDup l : NoDup (unique l).
Proof.
  induction l as [|y l IH]; cbn; [constructor|].
  constructor.
  - rewrite filter_In, String.eqb_refl. cbn. intros [_ H]. discriminate H.
  - now apply NoDup_filter.
Qed.

Lemma unique_hd l : hd_error (unique l) = hd_error l.
Proof. destruct l; reflexivity. Qed.

Lemma dropna_hd (l : list fl) :
  forallb isnan l = false -> exists q, hd_error (Discretize.dropna l) = Some q.
Proof.
  induction l as [|[q|] l IH]; cbn; intro H.
  - discriminate H.
  - now exists q.
  - apply IH, H.
Qed.

Lemma dropna_map_hd {A} (f : A -> fl) (l : list A) :
  forallb (fun r => isnan (f r)) l = false ->
  exists q, hd_error (Discretize.dropna (map f l)) = Some q.
Proof.
  intro H. apply dropna_hd. rewrite <- H. clear H.
  induction l as [|x l IH]; cbn; [reflexivity | now rewrite IH].
Qed.

(** The length of a group is missing exactly when the code finds none. *)
Lemma core_len_none profile g :
  core_len profile (group_rows g (rows profile)) = None
  <-> lacks_length profile g = true.
Proof.
  unfold core_len, lacks_length.
  destruct (has_col profile "ice_thickness"); cbn [negb andb orb].
  - destruct (forallb (fun r => isnan (ice_thickness r))
                      (group_rows g (rows profile))) eqn:E1; cbn [negb andb orb].
    + destruct (has_col profile "length"); cbn [negb andb orb]; [|tauto].
      destruct (forallb (fun r => isnan (core_length r))
                        (group_rows g (rows profile))) eqn:E2; cbn [negb]; [tauto|].
      destruct (dropna_map_hd _ _ E2) as [q ->]. split; discriminate.
    + destruct (dropna_map_hd _ _ E1) as [q ->]. split; discriminate.
  - destruct (has_col profile "length"); cbn [negb andb orb]; [|tauto].
    destruct (forallb (fun r => isnan (core_length r))
                      (group_rows g (rows profile))) eqn:E2; cbn [negb]; [tauto|].
    destruct (dropna_map_hd _ _ E2) as [q ->]. split; discriminate.
Qed.

Lemma flat_map_flat_map {A B C} (f : B -> list C) (g : A -> list B) (l : list A) :
  flat_map f (flat_map g l) = flat_map (fun x => flat_map f (g x)) l.
Proof.
  induction l as [|x l IH]; cbn; [reflexivity|].
  now rewrite flat_map_app, IH.
Qed.

Lemma flat_map_pointwise {A B} (f g : A -> list B) (l : list A) :
  (forall x, In x l -> f x = g x) -> flat_map f l = flat_map g l.
Proof.
  induction l as [|x l IH]; intro H; cbn; [reflexivity|].
  rewrite (H x) by (left; reflexivity). f_equal. apply IH.
  intros y Hy. apply H. right. exact Hy.
Qed.

Lemma filter_none {A} (p : A -> bool) (l : list A) :
  (forall x, In x l -> p x = false) -> filter p l = [].
Proof.
  induction l as [|x l IH]; intro H; cbn; [reflexivity|].
  rewrite (H x) by (left; reflexivity). apply IH.
  intros y Hy. apply H. right. exact Hy.
Qed.

Lemma flat_map_singleton {A} (l : list A) : flat_map (fun x => [x]) l = l.
Proof. induction l as [|x l IH]; cbn; [reflexivity | now rewrite IH]. Qed.

Lemma filter_as_flat_map {A} (p : A -> bool) (l : list A) :
  filter p l = flat_map (fun x => if p x then [x] else []) l.
Proof.
  induction l as [|x l IH]; cbn; [reflexivity|].
  destruct (p x); cbn; now rewrite IH.
Qed.

Lemma map_as_flat_map {A B} (f : A -> B) (l : list A) :
  map f l = flat_map (fun x => [f x]) l.
Proof. induction l as [|x l IH]; cbn; [reflexivity | now rewrite IH]. Qed.

Section Orientation.

Variable profile : DataFrame.
Variable target : string.
Hypothesis Hcols :
  Discretize.all_cols profile ["variable"; "v_ref"; "y_low"; "y_mid"; "y_sup"] = true.

(** What becomes of a row of the group [t] when the loop reaches the
    group. *)
Definition verdict (t : string) (r : Row) : list Row :=
  if must_reorient target t (rows profile) then
    match core_len profile (group_rows t (rows profile)) with
    | None => []
    | Some lc => [reorient lc r]
    end
  else [r].

(** The rows of the profile once the groups [done] have been treated. *)
Definition image (done : list string) : list Row :=
  flat_map (fun r => if mem (variable r) done then verdict (variable r) r else [r])
           (rows profile).

Definition frame (l : list Row) : DataFrame := mkFrame (columns profile) l.

Lemma verdict_tag t r r' : In r' (verdict t r) -> variable r' = variable r.
Proof.
  unfold verdict. destruct (must_reorient target t (rows profile)).
  - destruct (core_len profile (group_rows t (rows profile))); cbn; [|tauto].
    intros [<-|[]]. reflexivity.
  - cbn. intros [<-|[]]. reflexivity.
Qed.

Lemma image_tag done r' :
  In r' (image done) -> exists r, In r (rows profile) /\ variable r' = variable r.
Proof.
  unfold image. rewrite in_flat_map. intros (r & Hr & Hin). exists r.
  split; [exact Hr|]. destruct (mem (variable r) done).
  - now apply verdict_tag with (t := variable r).
  - destruct Hin as [<-|[]]. reflexivity.
Qed.

Lemma group_rows_flat_map g (T : Row -> list Row) (l : list Row) :
  (forall r r', In r' (T r) -> variable r' = variable r) ->
  (forall r, variable r = g -> T r = [r]) ->
  group_rows g (flat_map T l) = group_rows g l.
Proof.
  intros Htag Hid. unfold group_rows.
  induction l as [|r l IH]; cbn [flat_map filter]; [reflexivity|].
  rewrite filter_app, IH. destruct (String.eqb (variable r) g) eqn:E.
  - apply String.eqb_eq in E. rewrite (Hid r E). cbn.
    apply String.eqb_eq in E. now rewrite E.
  - replace (filter (fun r0 => String.eqb (variable r0) g) (T r)) with (@nil Row);
      [reflexivity|].
    symmetry. apply filter_none.
    intros r' Hr'. now rewrite (Htag _ _ Hr'), E.
Qed.

Lemma group_rows_image g done :
  mem g done = false ->
  group_rows g (image done) = group_rows g (rows profile).
Proof.
  intro Hg. unfold image. apply group_rows_flat_map.
  - intros r r'. destruct (mem (variable r) done).
    + apply verdict_tag.
    + intros [<-|[]]. reflexivity.
  - intros r <-. now rewrite Hg.
Qed.

(** The loop body on the group [g], as a map on rows. *)
Definition settle (g : string) (l : list Row) : list Row :=
  flat_map (fun r => if String.eqb (variable r) g then verdict g r else [r]) l.

Lemma settle_image g done :
  mem g done = false -> settle g (image done) = image (g :: done).
Proof.
  intro Hg. unfold settle, image. rewrite flat_map_flat_map.
  apply flat_map_pointwise. intros r _.
  cbn [mem existsb]. fold (mem (variable r) done).
  destruct (String.eqb (variable r) g) eqn:E.
  - apply String.eqb_eq in E. subst g. rewrite Hg. cbn.
    rewrite String.eqb_refl, app_nil_r. reflexivity.
  - cbn [orb]. transitivity
      (flat_map (fun x => [x])
         (if mem (variable r) done then verdict (variable r) r else [r])).
    + apply flat_map_pointwise. intros r' Hr'.
      assert (Ht : variable r' = variable r).
      { destruct (mem (variable r) done).
        - now apply verdict_tag with (t := variable r).
        - destruct Hr' as [<-|[]]. reflexivity. }
      now rewrite Ht, E.
    + apply flat_map_singleton.
Qed.

Lemma bind_ret {A B} (a : A) (f : A -> M B) : bind (ret a) f = f a.
Proof. unfold bind, ret. destruct (f a). reflexivity. Qed.

Lemma bind_logged {A B} (l : list record) (a : A) (f : A -> M B) :
  bind (l, Ret a) f = (l ++ fst (f a), snd (f a)).
Proof. unfold bind. destruct (f a). reflexivity. Qed.

Lemma cols_present :
  has_col profile "variable" = true /\ has_col profile "v_ref" = true
  /\ Discretize.all_cols profile ["y_low"; "y_mid"; "y_sup"] = true.
Proof.
  unfold Discretize.all_cols in *. cbn [forallb] in *.
  repeat (apply andb_prop in Hcols as [? Hcols]).
  repeat split; try assumption.
  repeat (apply andb_true_intro; split); assumption.
Qed.

Lemma delete_group g l :
  delete_profile (frame l) [("variable", Str g)]
  = Ret (frame (filter (fun r => negb (String.eqb (variable r) g)) l)).
Proof.
  destruct cols_present as (Hv & _).
  assert (Hu : usable (frame l) [("variable", Str g)] = [("variable", Str g)]).
  { unfold usable. cbn [filter fst]. change (has_col (frame l) "variable")
      with (has_col profile "variable"). now rewrite Hv. }
  rewrite ExprFacts.delete_profile_filter; rewrite Hu.
  - unfold frame. cbn [columns rows]. f_equal. f_equal.
    apply filter_ext. intro r. unfold differs. cbn. now rewrite orb_false_r.
  - discriminate.
  - repeat constructor.
Qed.

Lemma current_ref_first g r0 grp :
  group_rows g (rows profile) = r0 :: grp ->
  must_reorient target g (rows profile) = negb (String.eqb (v_ref r0) target).
Proof. intro E. unfold must_reorient, current_ref. now rewrite E. Qed.

Lemma orient_settle g l :
  group_rows g l = group_rows g (rows profile) ->
  group_rows g (rows profile) <> [] ->
  exists lg,
    orient_group target g (frame l) = (lg, Ret (frame (settle g l)))
    /\ (unorientable profile target g = true ->
        In (Log WARNING (missing_length_msg (frame l) target)) lg).
Proof.
  intros Hgrp Hne.
  destruct cols_present as (Hv & Hr & Hy).
  unfold orient_group. change (rows (frame l)) with l. rewrite Hgrp.
  change (has_col (frame l) "v_ref") with (has_col profile "v_ref").
  change (columns (frame l)) with (columns profile).
  rewrite Hr, bind_ret.
  destruct (group_rows g (rows profile)) as [|r0 grp] eqn:E; [contradiction|].
  pose proof (@current_ref_first g r0 grp E) as Hmust.
  set (elog := if Nat.ltb 1 (List.length (unique (map v_ref (r0 :: grp))))
               then error "vertical reference for profile are not consistent"
               else ret tt).
  assert (He : exists le, elog = (le, Ret tt)).
  { unfold elog. destruct (Nat.ltb 1 _); eexists; reflexivity. }
  destruct He as [le ->]. rewrite bind_logged.
  rewrite unique_hd. cbn [map hd_error from_option].
  change (lift (Ret (v_ref r0))) with (ret (A := string) (v_ref r0)).
  rewrite bind_ret.
  change (core_len (frame l) (r0 :: grp)) with (core_len profile (r0 :: grp)).
  change (Discretize.all_cols (frame l) ["y_low"; "y_mid"; "y_sup"])
    with (Discretize.all_cols profile ["y_low"; "y_mid"; "y_sup"]).
  rewrite Hy.
  assert (Hlen : lacks_length profile g = true <-> core_len profile (r0 :: grp) = None).
  { rewrite <- E. symmetry. apply core_len_none. }
  unfold unorientable. rewrite Hmust.
  assert (Hverdict : forall r, verdict g r =
            if negb (String.eqb (v_ref r0) target)
            then match core_len profile (r0 :: grp) with
                 | None => []
                 | Some lc => [reorient lc r]
                 end
            else [r]).
  { intro r. unfold verdict. now rewrite Hmust, E. }
  destruct (negb (String.eqb (v_ref r0) target)) eqn:Eref.
  - destruct (core_len profile (r0 :: grp)) as [lc|] eqn:Ecl.
    + eexists. split.
      * unfold ret. cbn [fst snd]. rewrite app_nil_r. unfold frame. do 3 f_equal.
        rewrite map_as_flat_map. unfold settle. apply flat_map_pointwise.
        intros r _. rewrite Hverdict. now destruct (String.eqb (variable r) g).
      * cbn [andb]. intro H. apply Hlen in H. discriminate H.
    + unfold warning. rewrite bind_logged, delete_group. cbn [fst snd lift].
      eexists. split.
      * unfold frame. do 3 f_equal. rewrite filter_as_flat_map. unfold settle.
        apply flat_map_pointwise. intros r _. rewrite Hverdict.
        now destruct (String.eqb (variable r) g).
      * intros _. apply in_or_app. right. left. reflexivity.
  - eexists. split.
    + unfold ret. cbn [fst snd]. rewrite app_nil_r. unfold frame. do 3 f_equal.
      unfold settle. rewrite <- (flat_map_singleton l) at 1.
      apply flat_map_pointwise. intros r _. rewrite Hverdict.
      now destruct (String.eqb (variable r) g).
    + cbn [andb]. discriminate.
Qed.

Lemma orient_loop gs : forall done,
  NoDup gs ->
  (forall g, In g gs -> mem g done = false /\ group_rows g (rows profile) <> []) ->
  exists lg,
    for_each gs (orient_group target) (frame (image done))
    = (lg, Ret (frame (image (rev gs ++ done))))
    /\ (forall g, In g gs -> unorientable profile target g = true ->
        exists p, In (Log WARNING (missing_length_msg p target)) lg).
Proof.
  induction gs as [|g t IH]; intros done Hnd Hgs.
  - exists []. split; [reflexivity|]. intros g [].
  - inversion Hnd as [|? ? Hnotin Hnd']; subst.
    destruct (Hgs g (or_introl eq_refl)) as [Hmem Hne].
    destruct (@orient_settle g (image done) (group_rows_image g done Hmem) Hne)
      as (lg1 & Hstep & Hwarn).
    rewrite (settle_image g done Hmem) in Hstep.
    destruct (IH (g :: done) Hnd') as (lg2 & Hloop & Hwarn2).
    { intros g' Hg'. destruct (Hgs g' (or_intror Hg')) as [Hm' Hne'].
      split; [|exact Hne']. cbn [mem existsb]. fold (mem g' done). rewrite Hm'.
      rewrite orb_false_r. apply String.eqb_neq. intro Heq. subst g'.
      exact (Hnotin Hg'). }
    exists (lg1 ++ lg2). split.
    + cbn [for_each]. rewrite Hstep, bind_logged, Hloop. cbn [fst snd rev].
      now rewrite <- app_assoc.
    + intros g' [<-|Hg'] Hun.
      * exists (frame (image done)). apply in_or_app. left. exact (Hwarn Hun).
      * destruct (Hwarn2 g' Hg' Hun) as [p Hp]. exists p.
        apply in_or_app. right. exact Hp.
Qed.

Lemma group_nonempty g :
  In g (groups profile) -> group_rows g (rows profile) <> [].
Proof.
  unfold groups. rewrite unique_In, in_map_iff. intros (r & <- & Hr) Hnil.
  assert (Hin : In r (group_rows (variable r) (rows profile))).
  { apply filter_In. split; [exact Hr | apply String.eqb_refl]. }
  rewrite Hnil in Hin. exact Hin.
Qed.

Lemma must_reorient_in_groups g :
  must_reorient target g (rows profile) = true -> In g (groups profile).
Proof.
  unfold must_reorient, current_ref, groups. rewrite unique_In.
  destruct (group_rows g (rows profile)) as [|r0 grp] eqn:E; [discriminate|].
  intros _. assert (Hin : In r0 (group_rows g (rows profile))) by (rewrite E; now left).
  apply filter_In in Hin as [Hin Htag]. apply String.eqb_eq in Htag. subst g.
  now apply in_map.
Qed.

(** The rows once every group has been treated. *)
Definition settled : list Row :=
  flat_map (fun r => verdict (variable r) r) (rows profile).

Lemma image_all : image (rev (groups profile) ++ []) = settled.
Proof.
  unfold image, settled. apply flat_map_pointwise. intros r Hr.
  replace (mem (variable r) (rev (groups profile) ++ [])) with true; [reflexivity|].
  symmetry. apply mem_In. rewrite app_nil_r, <- in_rev. unfold groups.
  apply unique_In. now apply in_map.
Qed.

Lemma orientation_result :
  exists lg,
    set_profile_orientation profile target = (lg, Ret (frame settled))
    /\ (forall g, unorientable profile target g = true ->
        exists p, In (Log WARNING (missing_length_msg p target)) lg).
Proof.
  destruct cols_present as (Hv & _).
  destruct (@orient_loop (groups profile) [] (unique_NoDup _)) as (lg & Hloop & Hwarn).
  { intros g Hg. split; [reflexivity | now apply group_nonempty]. }
  exists lg. split.
  - unfold set_profile_orientation. rewrite Hv, bind_ret.
    rewrite image_all in Hloop. rewrite <- Hloop. f_equal.
    unfold frame, image. cbn [mem existsb]. rewrite flat_map_singleton.
    now destruct profile.
  - intros g Hun. apply (Hwarn g); [|exact Hun].
    apply must_reorient_in_groups. unfold unorientable in Hun.
    now apply andb_prop in Hun as [? _].
Qed.

Lemma settled_without g :
  unorientable profile target g = true ->
  forall r, In r settled -> variable r <> g.
Proof.
  intros Hun r' Hr'. unfold settled in Hr'. apply in_flat_map in Hr' as (r & _ & Hin).
  rewrite (verdict_tag _ _ _ Hin). intro Heq. rewrite Heq in Hin.
  unfold unorientable in Hun. apply andb_prop in Hun as [Hm Hl].
  apply core_len_none in Hl. unfold verdict in Hin. rewrite Hm, Hl in Hin.
  exact Hin.
Qed.

Lemma verdict_kept g r :
  unorientable profile target g = false ->
  exists r', verdict g r = [r'] /\ identity r' = identity r.
Proof.
  unfold unorientable, verdict. intro Hun.
  destruct (must_reorient target g (rows profile)); [|now exists r].
  cbn [andb] in Hun.
  destruct (core_len profile (group_rows g (rows profile))) as [lc|] eqn:E.
  - exists (reorient lc r). split; reflexivity.
  - apply core_len_none in E. congruence.
Qed.

Lemma settled_keeps g :
  unorientable profile target g = false ->
  map identity (group_rows g settled) = map identity (group_rows g (rows profile)).
Proof.
  intro Hun. unfold settled. generalize (rows profile) as l.
  induction l as [|r l IH]; [reflexivity|].
  cbn [flat_map]. unfold group_rows in *. rewrite filter_app, map_app, IH.
  cbn [filter]. destruct (String.eqb (variable r) g) eqn:E.
  - apply String.eqb_eq in E. rewrite E.
    destruct (@verdict_kept g r Hun) as (r' & -> & Hid). cbn [filter].
    assert (Ht : variable r' = g).
    { unfold identity in Hid. injection Hid as _ Ht _ _ _. congruence. }
    rewrite Ht, String.eqb_refl. cbn. now rewrite Hid.
  - rewrite filter_none; [reflexivity|].
    intros r' Hr'. now rewrite (verdict_tag _ _ _ Hr'), E.
Qed.

End Orientation.
End OrientFacts.

(* ================================================================== *)
(** * Properties of the operations on stacks *)

Module OpsFacts.

Import Num Py Frame Ops Cases.
Local Open Scope string_scope.
Local Open Scope list_scope.
Local Open Scope Q_scope.

(** C4.  Asked to refer a bottom-referenced core of length 10 to the top,
    [set_profile_orientation] rewrites the depths 0, 5, 10 to 10, 5, 0 and
    leaves the tag at 'bottom': the tag written is the constant 'bottom',
    not the requested reference. *)
Theorem C4_target_top_is_tagged_bottom :
  exists r cols,
    set_profile_orientation bottom_core "top" = ([], Ret (mkFrame cols [r]))
    /\ fl_eq (y_low r) (Some 10) /\ fl_eq (y_mid r) (Some 5)
    /\ fl_eq (y_sup r) (Some 0)
    /\ v_ref r = "bottom" /\ v_ref r <> "top".
Proof.
  do 2 eexists. split; [vm_compute; reflexivity|].
  repeat split; try (vm_compute; reflexivity).
  cbn. discriminate.
Qed.

(** C7.  Deleting 'salinity' from a stack of a temperature group and a
    salinity group writes the emptied tag on every row: the temperature
    row loses its tag too. *)
Theorem C7_tag_written_on_every_row :
  exists df,
    delete_variables two_groups ["salinity"] = Ret df
    /\ map variable (rows df) = [""; ""]
    /\ map variable (rows df) <> ["temperature"; ""].
Proof.
  eexists. split; [vm_compute; reflexivity|].
  split; [reflexivity | cbn; discriminate].
Qed.

(** C8.  For a section [10, 20] without midpoint,
    [uniformize_section] derives the depth 10 + 20/2 = 20, for the target
    and for the source alike, and not the midpoint 15. *)
Theorem C8_derived_depth_is_low_plus_half_sup :
  (exists y, target_depths no_midpoint = Ret [y] /\ y == 20 /\ ~ y == 15)
  /\ (exists r, source_rows no_midpoint = Ret [r]
                /\ fl_eq (y_mid r) (Some 20) /\ ~ fl_eq (y_mid r) (Some 15)).
Proof.
  split.
  - eexists. split; [vm_compute; reflexivity|].
    split; [reflexivity | intro H; discriminate H].
  - eexists. split; [vm_compute; reflexivity|].
    split; [reflexivity | intro H; discriminate H].
Qed.

(** The loop of [delete_profile] leaves its variables as they are when no
    key is a column. *)
Lemma delete_profile_loop_no_column ics_stack variable_dict st :
  (forall k, In k (map fst variable_dict) -> has_col ics_stack k = false) ->
  fold_left (delete_profile_step ics_stack) variable_dict st = st.
Proof.
  revert st. induction variable_dict as [|kv t IH]; intros st H; [reflexivity|].
  cbn [fold_left]. unfold delete_profile_step at 2.
  rewrite (H (fst kv)) by (left; reflexivity).
  apply IH. intros k Hk. apply H. right. exact Hk.
Qed.

(** C10.  When no key of the dictionary is a column of the stack, the
    empty dictionary included, [delete_profile] raises: the text left for
    [eval] is empty, which is a syntax error. *)
Theorem C10_no_usable_key_raises :
  forall ics_stack variable_dict,
    (forall k, In k (map fst variable_dict) -> has_col ics_stack k = false) ->
    delete_profile ics_stack variable_dict = Raise SyntaxError.
Proof.
  intros ics_stack variable_dict H.
  unfold delete_profile.
  rewrite (delete_profile_loop_no_column _ _ _ H).
  reflexivity.
Qed.

Lemma C10_no_usable_key_raises_witness :
  (forall k, In k (map fst [("core", Str "core1")]) -> has_col two_groups k = false)
  /\ delete_profile two_groups [("core", Str "core1")] = Raise SyntaxError.
Proof.
  assert (H : forall k, In k (map fst [("core", Str "core1")]) ->
                        has_col two_groups k = false).
  { intros k [<-|[]]. reflexivity. }
  split; [exact H|].
  exact (C10_no_usable_key_raises two_groups [("core", Str "core1")] H).
Defined.




(** C5.  When a variable group must be reoriented and neither an ice
    thickness nor a length is available for it, the profile returned holds
    no row of the group and a warning is logged; the rows of every group
    that is not itself in this situation are kept, in order (their depths
    and reference may be rewritten). *)
Theorem C5_group_without_length_is_deleted :
  forall profile v_ref g,
    Discretize.all_cols profile ["variable"; "v_ref"; "y_low"; "y_mid"; "y_sup"]
    = true ->
    must_reorient v_ref g (rows profile) = true ->
    lacks_length profile g = true ->
    exists log df,
      set_profile_orientation profile v_ref = (log, Ret df)
      /\ (forall r, In r (rows df) -> variable r <> g)
      /\ (exists p, In (Log WARNING (missing_length_msg p v_ref)) log)
      /\ (forall g', unorientable profile v_ref g' = false ->
            map identity (group_rows g' (rows df))
            = map identity (group_rows g' (rows profile))).
Proof.
  intros profile v_ref g Hcols Hmust Hlack.
  assert (Hun : unorientable profile v_ref g = true).
  { unfold unorientable. now rewrite Hmust, Hlack. }
  destruct (@OrientFacts.orientation_result profile v_ref Hcols)
    as (lg & Hres & Hwarn).
  exists lg, (OrientFacts.frame profile (OrientFacts.settled profile v_ref)).
  split; [exact Hres|]. cbn [rows OrientFacts.frame]. repeat split.
  - exact (@OrientFacts.settled_without profile v_ref g Hun).
  - exact (Hwarn g Hun).
  - intros g' Hg'. exact (@OrientFacts.settled_keeps profile v_ref g' Hg').
Qed.

Lemma C5_group_without_length_is_deleted_witness :
  exists log df,
    set_profile_orientation half_measured "top" = (log, Ret df)
    /\ (forall r, In r (rows df) -> variable r <> "salinity")
    /\ (exists p, In (Log WARNING (missing_length_msg p "top")) log)
    /\ (forall g', unorientable half_measured "top" g' = false ->
          map identity (group_rows g' (rows df))
          = map identity (group_rows g' (rows half_measured))).
Proof.
  apply (C5_group_without_length_is_deleted half_measured "top" "salinity");
    reflexivity.
Defined.

End OpsFacts.

(* ================================================================== *)
(** * delete_profile and delete_variables, further properties *)

Module DeleteFacts.
Import Num Py Frame Expr Ops Cases.
Local Open Scope string_scope.
Local Open Scope list_scope.








(** The column of a subvariable.  The key
    ["conductivity measurement temperature"], the subvariable the module
    itself names, is not an identifier: the text handed to [eval] is not
    an expression, whatever the stack and the value. *)
Theorem delete_profile_on_subvariable :
  forall ics_stack v,
    has_col ics_stack "conductivity measurement temperature" = true ->
    delete_profile ics_stack [("conductivity measurement temperature", v)]
    = Raise SyntaxError.
Proof.
  intros ics_stack v H. unfold delete_profile. cbn [fold_left].
  unfold delete_profile_step. cbn [fst snd]. rewrite H.
  cbn [str_select ii_var ii].
  replace (py_eval _ ics_stack ([] ++ [v])) with (@Raise value SyntaxError);
    [reflexivity|].
  unfold py_eval. vm_compute. reflexivity.
Qed.

Lemma delete_profile_on_subvariable_witness :
  delete_profile
    (mkFrame ["variable"; "conductivity"; "conductivity measurement temperature"] [])
    [("conductivity measurement temperature", Num (Some 1%Q))]
  = Raise SyntaxError.
Proof.
  apply (@delete_profile_on_subvariable
           (mkFrame ["variable"; "conductivity"; "conductivity measurement temperature"] [])
           (Num (Some 1%Q))).
  reflexivity.
Defined.

(** ** delete_variables *)

(** What [delete_variables] does not touch in a row. *)
Definition fixed (r : Row) : string * string * fl * fl * fl * fl * fl :=
  (name r, v_ref r, ice_thickness r, core_length r, y_low r, y_mid r, y_sup r).

(** Same rows but for their tag and their properties, and no new
    column. *)
Definition trimmed (a b : DataFrame) : Prop :=
  map fixed (rows b) = map fixed (rows a) /\ incl (columns b) (columns a).

Lemma trimmed_refl a : trimmed a a.
Proof. split; [reflexivity | apply incl_refl]. Qed.

Lemma trimmed_trans a b c : trimmed a b -> trimmed b c -> trimmed a c.
Proof.
  intros [H1 H2] [H3 H4]. split; [congruence | eapply incl_tran; eassumption].
Qed.

Lemma drop_trimmed c a b : drop c a = Ret b -> trimmed a b.
Proof.
  unfold drop. destruct (has_col a c); [|discriminate]. intro H. injection H as <-.
  split; cbn [rows columns].
  - rewrite map_map. apply map_ext. reflexivity.
  - intros x Hx. apply filter_In in Hx. apply Hx.
Qed.

Lemma drops_trimmed cs : forall a b, ofor_each cs drop a = Ret b -> trimmed a b.
Proof.
  induction cs as [|c cs IH]; intros a b H; cbn [ofor_each] in H.
  - injection H as <-. apply trimmed_refl.
  - destruct (drop c a) as [a'|e] eqn:E; [|discriminate H]. cbn [obind] in H.
    exact (trimmed_trans (@drop_trimmed c a a' E) (IH a' b H)).
Qed.

Lemma retag_trimmed v a : trimmed a (retag v a).
Proof.
  unfold retag. generalize (groups a). intro gs.
  assert (H : forall b, trimmed a b ->
            trimmed a (fold_left
              (fun df group =>
                 let new_group := split group in
                 if mem v new_group
                 then mkFrame (columns df)
                        (map (set_variable (join (remove_first v new_group))) (rows df))
                 else df) gs b)).
  { induction gs as [|g gs IH]; intros b Hb; cbn [fold_left]; [exact Hb|].
    apply IH. cbv zeta. destruct (mem v (split g)); [|exact Hb].
    destruct Hb as [H1 H2]. split; cbn [rows columns]; [|exact H2].
    rewrite <- H1, map_map. apply map_ext. reflexivity. }
  apply H, trimmed_refl.
Qed.

Lemma delete_variable_trimmed v a b : delete_variable v a = Ret b -> trimmed a b.
Proof.
  unfold delete_variable.
  match goal with
  | |- obind ?x _ = _ -> _ => destruct x as [a'|e] eqn:E; [|discriminate]
  end.
  cbn [obind]. destruct (has_col a' "variable"); [|discriminate].
  intro H. injection H as <-.
  apply (@trimmed_trans a a'); [|apply retag_trimmed].
  destruct (has_col a v); [|injection E as <-; apply trimmed_refl].
  destruct (get_property a) as [ps|]; [|discriminate E]. cbn [from_option obind] in E.
  destruct (mem v ps); [|injection E as <-; apply trimmed_refl].
  destruct (drop v a) as [a1|e] eqn:E1; [|discriminate E]. cbn [obind] in E.
  exact (trimmed_trans (@drop_trimmed v a a1 E1) (@drops_trimmed _ a1 a' E)).
Qed.

(** What [delete_variables] leaves alone.  When it returns, the stack
    has the rows it had, in order, with their name, reference, lengths
    and depths; only tags and property columns changed, and no column
    was added. *)
Theorem delete_variables_keeps_the_rows :
  forall variables2del ics_stack df,
    delete_variables ics_stack variables2del = Ret df ->
    map fixed (rows df) = map fixed (rows ics_stack)
    /\ incl (columns df) (columns ics_stack).
Proof.
  unfold delete_variables.
  induction variables2del as [|v vs IH]; intros a b H; cbn [ofor_each] in H.
  - injection H as <-. apply trimmed_refl.
  - destruct (delete_variable v a) as [a'|e] eqn:E; [|discriminate H].
    cbn [obind] in H.
    exact (trimmed_trans (@delete_variable_trimmed v a a' E) (IH a' b H)).
Qed.

Lemma delete_variables_keeps_the_rows_witness :
  exists df,
    delete_variables two_groups ["salinity"] = Ret df
    /\ map fixed (rows df) = map fixed (rows two_groups)
    /\ incl (columns df) (columns two_groups).
Proof.
  eexists. split; [vm_compute; reflexivity|].
  apply (@delete_variables_keeps_the_rows ["salinity"] two_groups).
  vm_compute. reflexivity.
Defined.

(** Conductivity without its measurement temperature.  Deleting
    ["conductivity"] also drops the column of its subvariable; on a
    stack that has the property and its column but not the column
    ["conductivity measurement temperature"], the call raises a
    [KeyError]. *)
Theorem delete_conductivity_needs_its_subvariable :
  forall ics_stack properties rest,
    get_property ics_stack = Some properties ->
    In "conductivity" properties ->
    has_col ics_stack "conductivity" = true ->
    has_col ics_stack "conductivity measurement temperature" = false ->
    delete_variables ics_stack ("conductivity" :: rest) = Raise KeyError.
Proof.
  intros ics_stack ps rest Hp Hin Hc Hs.
  unfold delete_variables. cbn [ofor_each]. unfold delete_variable at 1.
  rewrite Hc, Hp. cbn [from_option obind].
  replace (mem "conductivity" ps) with true
    by (symmetry; now apply OrientFacts.mem_In).
  unfold drop at 1. rewrite Hc. cbn [obind].
  change (Discretize.subvariables "conductivity")
    with ["conductivity measurement temperature"].
  cbn [ofor_each]. unfold drop at 1.
  replace (has_col _ "conductivity measurement temperature") with false;
    [reflexivity|].
  symmetry. unfold has_col in *. cbn [columns].
  apply not_true_is_false. intro H. apply existsb_exists in H as (x & Hx & E).
  apply filter_In in Hx as [Hx _].
  assert (Ht : existsb (String.eqb "conductivity measurement temperature")
                       (columns ics_stack) = true)
    by (apply existsb_exists; eauto).
  congruence.
Qed.

Lemma delete_conductivity_needs_its_subvariable_witness :
  delete_variables
    (mkFrame ["variable"; "conductivity"]
       [mkRow "core1" "conductivity" "top" nan nan nan nan nan
              [("conductivity", Some 1%Q)]])
    ["conductivity"]
  = Raise KeyError.
Proof.
  apply (@delete_conductivity_needs_its_subvariable _ ["conductivity"] []).
  - reflexivity.
  - now left.
  - reflexivity.
  - reflexivity.
Defined.

End DeleteFacts.

(* ================================================================== *)
(** * The tag of a variable group *)

Module TagFacts.
Import Num Py Frame.
Local Open Scope list_scope.
Local Open Scope string_scope.

(** The text holds the separator [", "]. *)
Fixpoint has_sep (s : string) : bool :=
  match s with
  | EmptyString => false
  | String c rest =>
      (Ascii.eqb c "," && match rest with
                          | String c' _ => Ascii.eqb c' " "
                          | EmptyString => false
                          end)
      || has_sep rest
  end.

Lemma split_aux_step c rest acc :
  split_aux (String c rest) acc
  = if Ascii.eqb c ","
    then match rest with
         | String c' rest' =>
             if Ascii.eqb c' " " then acc :: split_aux rest' EmptyString
             else split_aux rest (acc ++ String c EmptyString)
         | EmptyString => split_aux rest (acc ++ String c EmptyString)
         end
    else split_aux rest (acc ++ String c EmptyString).
Proof.
  destruct (Ascii.eqb c ",") eqn:E.
  - apply Ascii.eqb_eq in E. subst c. destruct rest as [|c' rest']; [reflexivity|].
    destruct (Ascii.eqb c' " ") eqn:E'.
    + apply Ascii.eqb_eq in E'. subst c'. reflexivity.
    + destruct c' as [[] [] [] [] [] [] [] []]; try reflexivity; discriminate E'.
  - destruct c as [[] [] [] [] [] [] [] []]; try reflexivity; discriminate E.
Qed.

Lemma string_app_assoc' (a b c : string) : (a ++ b) ++ c = a ++ b ++ c.
Proof. induction a as [|x a IH]; cbn; [reflexivity | now rewrite IH]. Qed.

Lemma string_app_nil' (a : string) : a ++ EmptyString = a.
Proof. induction a as [|x a IH]; cbn; [reflexivity | now rewrite IH]. Qed.

(** The last name of a tag. *)
Lemma split_aux_last s : forall acc,
  has_sep s = false -> split_aux s acc = [acc ++ s].
Proof.
  induction s as [|c s IH]; intros acc H.
  - cbn. now rewrite string_app_nil'.
  - cbn [has_sep] in H. apply orb_false_iff in H as [H1 H2].
    rewrite split_aux_step.
    assert (E : acc ++ String c s = (acc ++ String c EmptyString) ++ s)
      by (now rewrite string_app_assoc').
    rewrite E. destruct (Ascii.eqb c ","); [|now apply IH].
    destruct s as [|c' s']; [now apply IH|].
    cbn [andb] in H1. rewrite H1. now apply IH.
Qed.

(** A name followed by the separator. *)
Lemma split_aux_name s : forall acc rest,
  has_sep s = false ->
  split_aux (s ++ ", " ++ rest) acc = (acc ++ s) :: split_aux rest EmptyString.
Proof.
  induction s as [|c s IH]; intros acc rest H.
  - cbn [String.append]. rewrite split_aux_step. cbn.
    now rewrite string_app_nil'.
  - cbn [has_sep] in H. apply orb_false_iff in H as [H1 H2].
    change (String c s ++ ", " ++ rest) with (String c (s ++ ", " ++ rest)).
    rewrite split_aux_step.
    assert (E : acc ++ String c s = (acc ++ String c EmptyString) ++ s)
      by (now rewrite string_app_assoc').
    rewrite E. destruct (Ascii.eqb c ","); [|now apply IH].
    destruct s as [|c' s'].
    + cbn [String.append]. cbn [Ascii.eqb Bool.eqb]. now apply (IH _ rest).
    + cbn [andb] in H1. cbn [String.append]. rewrite H1.
      now apply (IH _ rest).
Qed.

Lemma join_cons x y l : join (x :: y :: l) = x ++ ", " ++ join (y :: l).
Proof. reflexivity. Qed.

(** The names of a tag written with [', '.join] are the ones
    [split(', ')] reads, provided there is a name at least and no name
    holds the separator. *)
Lemma tag_round_trip :
  forall l,
    l <> [] -> Forall (fun s => has_sep s = false) l ->
    split (join l) = l.
Proof.
  unfold split. intros l Hne Hl.
  induction Hl as [|x l Hx Hl IH]; [congruence|].
  destruct l as [|y l].
  - cbn [join String.concat]. now rewrite split_aux_last.
  - rewrite join_cons, split_aux_name by exact Hx. cbn [String.append].
    f_equal. apply IH. discriminate.
Qed.

Lemma unique_constant (x : string) l :
  Forall (fun y => y = x) l -> l <> [] -> unique l = [x].
Proof.
  induction 1 as [|y l -> Hl IH]; intro Hne; [congruence|].
  cbn [unique]. f_equal. destruct l as [|z l]; [reflexivity|].
  rewrite IH by discriminate. cbn [filter]. now rewrite String.eqb_refl.
Qed.

(** A profile of two rows tagged with two properties. *)
Definition two_properties : DataFrame :=
  mkFrame ["name"; "variable"; "y_mid"; "temperature"; "salinity"]
    [ mkRow "core1" "temperature, salinity" "top" nan nan nan (Some 5%Q) nan
            [("temperature", Some (-5)%Q); ("salinity", Some 5%Q)];
      mkRow "core1" "temperature, salinity" "top" nan nan nan (Some 15%Q) nan
            [("temperature", Some (-4)%Q); ("salinity", Some 6%Q)] ].

(** Writing the tag, reading it back.  On a profile whose rows all carry
    the tag [', '.join(l)], as [delete_variables], [delete_property] and
    [discretize_profile] write it, [get_property] returns [l], provided
    no name of [l] holds the separator; for the empty list the tag is
    the empty text, and [get_property] returns one empty name. *)
Theorem get_property_reads_the_tag :
  forall df l,
    has_col df "variable" = true -> rows df <> [] ->
    Forall (fun r => variable r = join l) (rows df) ->
    Forall (fun s => has_sep s = false) l ->
    get_property df = Some (match l with [] => [EmptyString] | _ => l end).
Proof.
  intros df l Hc Hne Hr Hl. unfold get_property, groups. rewrite Hc.
  rewrite (@unique_constant (join l)).
  - cbn [flat_map]. rewrite app_nil_r. destruct l as [|x l]; [reflexivity|].
    f_equal. apply tag_round_trip; [discriminate | exact Hl].
  - apply Forall_forall. intros y Hy. apply in_map_iff in Hy as (r & <- & Hin).
    rewrite Forall_forall in Hr. now apply Hr.
  - destruct (rows df); [congruence | discriminate].
Qed.

Lemma get_property_reads_the_tag_witness :
  get_property two_properties = Some ["temperature"; "salinity"].
Proof.
  apply (@get_property_reads_the_tag two_properties ["temperature"; "salinity"]).
  - reflexivity.
  - discriminate.
  - repeat constructor.
  - repeat constructor.
Defined.

End TagFacts.

(* ================================================================== *)
(** * s_nan *)

Module GapFacts.
Import Num Py Methods.
Local Open Scope list_scope.

Section Gap.
Variable col : list fl.

Lemma scan_down_finds l : forall m,
  (l <= m)%nat ->
  (forall k, (l < k <= m)%nat -> isnan (at_2 col k) = true) ->
  ((0 < l)%nat -> isnan (at_2 col l) = false) ->
  scan_down col m = l.
Proof.
  induction m as [|m IH]; intros Hle Hnan Hval.
  - cbn. lia.
  - cbn [scan_down]. destruct (Nat.eq_dec l (S m)) as [->|Hne].
    + rewrite Hval by lia. reflexivity.
    + rewrite Hnan by lia. apply IH; [lia | | exact Hval].
      intros k Hk. apply Hnan. lia.
Qed.

Lemma scan_up_finds u : forall fuel s,
  (s <= u)%nat -> (u - s <= fuel)%nat ->
  (forall k, (s <= k < u)%nat -> isnan (at_2 col k) = true) ->
  (u < List.length col)%nat ->
  ((u < List.length col - 1)%nat -> isnan (at_2 col u) = false) ->
  scan_up col fuel s = u.
Proof.
  induction fuel as [|fuel IH]; intros s Hle Hfuel Hnan Hu Hval.
  - cbn. lia.
  - cbn [scan_up]. destruct (Nat.eq_dec s u) as [->|Hne].
    + destruct (Nat.ltb u (List.length col - 1)) eqn:E; [|reflexivity].
      apply Nat.ltb_lt in E. rewrite (Hval E). reflexivity.
    + replace (Nat.ltb s (List.length col - 1)) with true
        by (symmetry; apply Nat.ltb_lt; lia).
      rewrite Hnan by lia. cbn [andb]. apply IH; try lia; try assumption.
      intros k Hk. apply Hnan. lia.
Qed.

(** A gap between two values.  At an index that holds NaN, with
    [fill_gap] set, when the nearest value below is at an index [l]
    other than 0 and the nearest value above at an index [u], [s_nan]
    returns the mean of these two values. *)
Theorem s_nan_between_neighbours :
  forall ii_yx l u a b,
    (0 < l < ii_yx)%nat -> (ii_yx < u < List.length col)%nat ->
    (forall k, (l < k < u)%nat -> at_2 col k = nan) ->
    at_2 col l = Some a -> at_2 col u = Some b ->
    s_nan col ii_yx true = Ret (Some ((b + a) / 2)%Q).
Proof.
  intros ii l u a b Hl Hu Hnan Ha Hb. unfold s_nan.
  replace (Nat.ltb ii (List.length col)) with true
    by (symmetry; apply Nat.ltb_lt; lia).
  cbn [negb]. rewrite (Hnan ii) by lia. cbn [isnan andb].
  rewrite (@scan_down_finds l (ii - 1)%nat); try lia.
  - rewrite (@scan_up_finds u (List.length col) ii); try lia.
    + replace (Nat.ltb 0 l) with true by (symmetry; apply Nat.ltb_lt; lia).
      rewrite Ha, Hb. reflexivity.
    + intros k Hk. rewrite Hnan by lia. reflexivity.
    + intros _. rewrite Hb. reflexivity.
  - intros k Hk. rewrite Hnan by lia. reflexivity.
  - intros _. rewrite Ha. reflexivity.
Qed.

(** No value below but the first.  At an index that holds NaN, with
    [fill_gap] set, when every index from 1 to the one before holds NaN,
    [s_nan] returns NaN, whatever the index 0 and the indices above
    hold: the first loop stops before the index 0, which never serves as
    the value below. *)
Theorem s_nan_ignores_the_first_value :
  forall ii_yx,
    (ii_yx < List.length col)%nat -> at_2 col ii_yx = nan ->
    (forall k, (0 < k < ii_yx)%nat -> at_2 col k = nan) ->
    s_nan col ii_yx true = Ret nan.
Proof.
  intros ii Hlen Hii Hnan. unfold s_nan.
  replace (Nat.ltb ii (List.length col)) with true
    by (symmetry; apply Nat.ltb_lt; lia).
  cbn [negb]. rewrite Hii. cbn [isnan andb].
  rewrite (@scan_down_finds 0%nat (ii - 1)%nat); try lia.
  - cbn [Nat.ltb Nat.leb]. destruct (at_2 col (scan_up col (List.length col) ii));
      reflexivity.
  - intros k Hk. rewrite Hnan by lia. reflexivity.
Qed.

End Gap.

Lemma s_nan_between_neighbours_witness :
  s_nan [Some 1; Some 4; nan; nan; Some 8]%Q 2 true = Ret (Some ((8 + 4) / 2)%Q).
Proof.
  apply (@s_nan_between_neighbours [Some 1; Some 4; nan; nan; Some 8]%Q
           2%nat 1%nat 4%nat 4%Q 8%Q); try (cbn; lia); try reflexivity.
  intros k Hk. assert (k = 2 \/ k = 3)%nat as [-> | ->] by lia; reflexivity.
Defined.

Lemma s_nan_ignores_the_first_value_witness :
  s_nan [Some 4; nan; Some 8]%Q 1 true = Ret nan.
Proof.
  apply (@s_nan_ignores_the_first_value [Some 4; nan; Some 8]%Q 1%nat).
  - cbn. lia.
  - reflexivity.
  - intros k Hk. lia.
Defined.

End GapFacts.

(* ================================================================== *)
(** * Methods of Profile and select_variable, properties *)

Module MethodFacts.
Import Num Py Frame Ops Methods.
Local Open Scope string_scope.
Local Open Scope list_scope.

(** ** set_vertical_reference *)

Lemma group_has_rows g l : In g (unique (map variable l)) -> group_rows g l <> [].
Proof.
  rewrite OrientFacts.unique_In, in_map_iff. intros (r & <- & Hr) Hnil.
  assert (Hin : In r (group_rows (variable r) l)).
  { apply filter_In. split; [exact Hr | apply String.eqb_refl]. }
  rewrite Hnil in Hin. exact Hin.
Qed.

Lemma oriented_group v g profile :
  has_col profile "v_ref" = true ->
  Forall (fun r => v_ref r = v) (rows profile) ->
  In g (groups profile) ->
  orient_group v g profile = ([], Ret profile).
Proof.
  intros Hc Hv Hg. unfold orient_group. rewrite Hc.
  assert (Hu : unique (map v_ref (group_rows g (rows profile))) = [v]).
  { apply TagFacts.unique_constant.
    - apply Forall_forall. intros y Hy. apply in_map_iff in Hy as (r & <- & Hr).
      apply filter_In in Hr as [Hr _]. rewrite Forall_forall in Hv. now apply Hv.
    - pose proof (group_has_rows _ _ Hg) as Hne.
      destruct (group_rows g (rows profile)); [congruence | discriminate]. }
  rewrite Hu. cbn [List.length Nat.ltb Nat.leb hd_error from_option lift].
  unfold bind, ret, lift. rewrite String.eqb_refl. reflexivity.
Qed.

Lemma oriented_profile v profile :
  has_col profile "variable" = true -> has_col profile "v_ref" = true ->
  Forall (fun r => v_ref r = v) (rows profile) ->
  set_profile_orientation profile v = ([], Ret profile).
Proof.
  intros Hvar Hc Hv. unfold set_profile_orientation. rewrite Hvar.
  assert (H : forall gs, incl gs (groups profile) ->
            for_each gs (orient_group v) profile = ([], Ret profile)).
  { induction gs as [|g gs IH]; intro Hin; [reflexivity|].
    cbn [for_each]. rewrite (@oriented_group v g profile Hc Hv) by (apply Hin; now left).
    unfold bind. rewrite IH by (intros x Hx; apply Hin; now right). reflexivity. }
  unfold bind, ret. rewrite (H _ (incl_refl _)). reflexivity.
Qed.

(** A profile whose references agree.  Without [new_v_ref], on a profile
    whose rows all have the same reference, [set_vertical_reference]
    keeps the orientation and logs nothing: it returns the profile
    itself when [h_ref] is not given, and otherwise the profile with
    every depth lowered by [h_ref], the depths that are NaN staying
    NaN. *)
Theorem set_vertical_reference_keeps_orientation :
  forall profile h_ref v,
    Discretize.all_cols profile ["variable"; "v_ref"; "y_low"; "y_mid"; "y_sup"] = true ->
    rows profile <> [] ->
    Forall (fun r => v_ref r = v) (rows profile) ->
    set_vertical_reference profile h_ref None
    = ([], Ret (match h_ref with
                | None => profile
                | Some h => mkFrame (columns profile) (map (shift h) (rows profile))
                end)).
Proof.
  intros profile h_ref v Hcols Hne Hv.
  unfold Discretize.all_cols in Hcols. cbn [forallb] in Hcols.
  apply andb_true_iff in Hcols as [Hvar Hcols].
  apply andb_true_iff in Hcols as [Hc Hdepth].
  unfold set_vertical_reference. rewrite Hc. cbn [negb].
  assert (Hu : unique (map v_ref (rows profile)) = [v]).
  { apply TagFacts.unique_constant.
    - apply Forall_forall. intros y Hy. apply in_map_iff in Hy as (r & <- & Hr).
      rewrite Forall_forall in Hv. now apply Hv.
    - destruct (rows profile); [congruence | discriminate]. }
  rewrite Hu. cbn [List.length Nat.ltb Nat.leb hd_error from_option lift].
  unfold bind, ret, lift. cbv beta iota.
  rewrite (@oriented_profile v profile Hvar Hc Hv).
  destruct h_ref as [h|]; [|reflexivity].
  unfold Discretize.all_cols. cbn [forallb]. rewrite Hdepth.
  reflexivity.
Qed.

Lemma set_vertical_reference_keeps_orientation_witness :
  set_vertical_reference Cases.two_groups (Some 2%Q) None
  = ([], Ret (mkFrame (columns Cases.two_groups)
                      (map (shift 2) (rows Cases.two_groups)))).
Proof.
  apply (@set_vertical_reference_keeps_orientation Cases.two_groups (Some 2%Q) "top").
  - reflexivity.
  - discriminate.
  - repeat constructor.
Defined.

(** A profile referenced to the top on every row is left as it is by
    [set_profile_orientation] to the top. *)
Theorem orientation_already_set :
  forall profile v,
    has_col profile "variable" = true -> has_col profile "v_ref" = true ->
    Forall (fun r => v_ref r = v) (rows profile) ->
    set_profile_orientation profile v = ([], Ret profile).
Proof. intros profile v. apply oriented_profile. Qed.

Lemma orientation_already_set_witness :
  set_profile_orientation Cases.two_groups "top" = ([], Ret Cases.two_groups).
Proof.
  apply (@orientation_already_set Cases.two_groups "top").
  - reflexivity.
  - reflexivity.
  - repeat constructor.
Defined.

(** ** select_variable *)

Lemma select_steps_skip variable gs : forall ics_stack,
  Forall (fun g => mem variable (split g) = false) gs ->
  ofor_each gs (select_variable_step variable) ics_stack = Ret ics_stack.
Proof.
  induction gs as [|g gs IH]; intros ics_stack H; [reflexivity|].
  inversion H as [|? ? Hg Hgs]; subst. cbn [ofor_each].
  unfold select_variable_step at 1. rewrite Hg. cbn [obind]. now apply IH.
Qed.

(** A variable no group holds.  When the tag of no group names the
    variable, [select_variable] returns the stack as it is; it does not
    return an empty stack. *)
Theorem select_variable_without_match :
  forall ics_stack variable,
    has_col ics_stack "variable" = true ->
    Forall (fun g => ~ In variable (split g)) (groups ics_stack) ->
    select_variable ics_stack variable = Ret ics_stack.
Proof.
  intros ics_stack variable Hc H. unfold select_variable. rewrite Hc.
  apply select_steps_skip. eapply Forall_impl; [|exact H].
  cbn beta. intros g Hg. now apply OrientFacts.mem_false.
Qed.

Lemma select_variable_without_match_witness :
  select_variable Cases.two_groups "conductivity" = Ret Cases.two_groups.
Proof.
  apply (@select_variable_without_match Cases.two_groups "conductivity").
  - reflexivity.
  - repeat constructor; cbn; intuition discriminate.
Defined.

Lemma split_single s : TagFacts.has_sep s = false -> split s = [s].
Proof. intro H. unfold split. now rewrite TagFacts.split_aux_last. Qed.

Lemma ofor_each_app {A St} (body : A -> St -> outcome St) l1 : forall l2 st st',
  ofor_each l1 body st = Ret st' ->
  ofor_each (l1 ++ l2) body st = ofor_each l2 body st'.
Proof.
  induction l1 as [|x l1 IH]; intros l2 st st' H; cbn [ofor_each app] in *.
  - now injection H as <-.
  - destruct (body x st) as [s1|e]; [|discriminate H]. cbn [obind] in *.
    now apply IH.
Qed.

Lemma select_step_hit variable ics_stack :
  has_col ics_stack "variable" = true ->
  TagFacts.has_sep variable = false ->
  select_variable_step variable variable ics_stack
  = Ret (mkFrame (columns ics_stack) (group_rows variable (rows ics_stack))).
Proof.
  intros Hc Hs. unfold select_variable_step. rewrite (@split_single variable Hs).
  cbn [mem existsb]. rewrite String.eqb_refl. cbn [orb]. rewrite Hc. cbn [negb].
  set (grp := group_rows variable (rows ics_stack)).
  assert (Hp : get_property (mkFrame (columns ics_stack) grp)
               = Some (match grp with [] => [] | _ => [variable] end)).
  { unfold get_property, has_col. cbn [columns]. fold (has_col ics_stack "variable").
    rewrite Hc. unfold groups. cbn [rows]. destruct grp as [|r grp'] eqn:E; [reflexivity|].
    rewrite (@TagFacts.unique_constant variable).
    - cbn [flat_map]. now rewrite (@split_single variable Hs).
    - apply Forall_forall. intros y Hy. apply in_map_iff in Hy as (x & <- & Hx).
      rewrite <- E in Hx. apply filter_In in Hx as [_ Hx]. now apply String.eqb_eq.
    - discriminate. }
  rewrite Hp. cbn [from_option obind].
  destruct grp; cbn [filter]; [reflexivity|].
  rewrite String.eqb_refl. reflexivity.
Qed.

(** A stack of three rows in two single-property groups. *)
Definition three_rows : DataFrame :=
  mkFrame ["name"; "variable"; "v_ref"; "y_low"; "y_mid"; "y_sup";
           "temperature"; "salinity"]
    [ mkRow "core1" "salinity" "top" nan nan (Some 0%Q) (Some 5%Q) (Some 10%Q)
            [("salinity", Some 5%Q)];
      mkRow "core1" "temperature" "top" nan nan nan (Some 5%Q) nan
            [("temperature", Some (-5)%Q)];
      mkRow "core1" "salinity" "top" nan nan (Some 10%Q) (Some 15%Q) (Some 20%Q)
            [("salinity", Some 7%Q)] ].

(** Groups of one property.  On a stack whose tags each name a single
    property, [select_variable] returns the rows tagged with the
    variable, in order and unchanged, under the columns of the stack:
    the columns of the other properties are not removed. *)
Theorem select_variable_of_single_tags :
  forall ics_stack variable,
    has_col ics_stack "variable" = true ->
    Forall (fun r => TagFacts.has_sep (Frame.variable r) = false) (rows ics_stack) ->
    In variable (groups ics_stack) ->
    select_variable ics_stack variable
    = Ret (mkFrame (columns ics_stack) (group_rows variable (rows ics_stack))).
Proof.
  intros ics_stack variable Hc Hs Hin. unfold select_variable. rewrite Hc.
  assert (Hgs : Forall (fun g => TagFacts.has_sep g = false) (groups ics_stack)).
  { apply Forall_forall. intros g Hg. unfold groups in Hg.
    apply OrientFacts.unique_In, in_map_iff in Hg as (r & <- & Hr).
    rewrite Forall_forall in Hs. now apply Hs. }
  pose proof (OrientFacts.unique_NoDup (map Frame.variable (rows ics_stack))) as Hnd.
  fold (groups ics_stack) in Hnd.
  destruct (in_split _ _ Hin) as (l1 & l2 & E). rewrite E in Hnd, Hgs |- *.
  apply NoDup_remove_2 in Hnd.
  apply Forall_app in Hgs as [Hg1 Hg2]. inversion Hg2 as [|? ? Hv Hg2']; subst.
  assert (Hskip : forall l, Forall (fun g => TagFacts.has_sep g = false) l ->
            (forall g, In g l -> In g (l1 ++ l2)) ->
            Forall (fun g => mem variable (split g) = false) l).
  { intros l Hl Hsub. apply Forall_forall. intros g Hg.
    rewrite Forall_forall in Hl. rewrite (@split_single g (Hl g Hg)).
    cbn [mem existsb]. rewrite orb_false_r. apply String.eqb_neq.
    intros ->. apply Hnd. now apply Hsub. }
  rewrite (@ofor_each_app _ _ _ l1 (variable :: l2) ics_stack ics_stack).
  - cbn [ofor_each]. rewrite (@select_step_hit variable ics_stack Hc Hv). cbn [obind].
    apply select_steps_skip. apply (Hskip l2 Hg2').
    intros g Hg. apply in_or_app. now right.
  - apply select_steps_skip. apply (Hskip l1 Hg1).
    intros g Hg. apply in_or_app. now left.
Qed.

Lemma select_variable_of_single_tags_witness :
  select_variable three_rows "salinity"
  = Ret (mkFrame (columns three_rows) (group_rows "salinity" (rows three_rows))).
Proof.
  apply (@select_variable_of_single_tags three_rows "salinity").
  - reflexivity.
  - repeat constructor.
  - cbn. tauto.
Defined.

(** ** delete_property and drop_empty_property *)

Lemma tag_read df l :
  has_col df "variable" = true -> rows df <> [] ->
  Forall (fun r => variable r = join l) (rows df) ->
  Forall (fun s => TagFacts.has_sep s = false) l ->
  get_property df = Some (match l with [] => [EmptyString] | _ => l end).
Proof.
  intros Hc Hne Hr Hl. unfold get_property, groups. rewrite Hc.
  rewrite (@TagFacts.unique_constant (join l)).
  - cbn [flat_map]. rewrite app_nil_r. destruct l as [|x l]; [reflexivity|].
    f_equal. apply TagFacts.tag_round_trip; [discriminate | exact Hl].
  - apply Forall_forall. intros y Hy. apply in_map_iff in Hy as (r & <- & Hin).
    rewrite Forall_forall in Hr. now apply Hr.
  - destruct (rows df); [congruence | discriminate].
Qed.

Lemma get_property_has_col df ps :
  get_property df = Some ps -> has_col df "variable" = true.
Proof. unfold get_property. destruct (has_col df "variable"); [reflexivity | discriminate]. Qed.

Lemma remove_first_incl p l x : In x (remove_first p l) -> In x l.
Proof.
  induction l as [|y l IH]; cbn [remove_first]; [tauto|].
  destruct (String.eqb y p); [now right|].
  intros [H|H]; [now left | right; now apply IH].
Qed.

Lemma has_col_filter df p c :
  existsb (String.eqb c) (filter (fun c' => negb (String.eqb c' p)) (columns df))
  = has_col df c && negb (String.eqb c p).
Proof.
  unfold has_col. induction (columns df) as [|x l IH]; [reflexivity|].
  cbn [filter existsb]. destruct (String.eqb x p) eqn:E1; cbn [negb].
  - rewrite IH. apply String.eqb_eq in E1. subst x.
    destruct (String.eqb c p) eqn:E2; cbn [negb orb];
      [now rewrite !andb_false_r | reflexivity].
  - cbn [existsb]. rewrite IH. destruct (String.eqb c x) eqn:E2; [|reflexivity].
    apply String.eqb_eq in E2. subst x. cbn [orb]. rewrite E1. reflexivity.
Qed.

(** Deleting a property, reading the properties.  On a profile with
    rows, whose properties [ps] hold no separator: after
    [delete_property(p)], for [p] one of them with its column (other
    than ["conductivity"] and ["variable"]), the column [p] is gone and
    [get_property] returns [ps] less the first [p]; when [p] was the
    only property it returns one empty name. *)
Theorem delete_property_then_get_property :
  forall self ps p,
    get_property self = Some ps -> In p ps -> has_col self p = true ->
    p <> "variable" -> p <> "conductivity" ->
    rows self <> [] -> Forall (fun s => TagFacts.has_sep s = false) ps ->
    exists df,
      delete_property self [p] = Ret df
      /\ has_col df p = false
      /\ get_property df
         = Some (match remove_first p ps with
                 | [] => [EmptyString]
                 | _ => remove_first p ps
                 end).
Proof.
  intros self ps p Hp Hin Hc Hv Hcond Hne Hsep.
  pose proof (get_property_has_col _ Hp) as Hvar.
  assert (Hsub : Discretize.subvariables p = []).
  { unfold Discretize.subvariables, Discretize.subvariable_dict. cbn [find fst].
    replace (String.eqb p "conductivity") with false; [reflexivity|].
    symmetry. now apply String.eqb_neq. }
  unfold delete_property. rewrite Hp. cbn [ofor_each].
  unfold delete_property_step. rewrite Hp. cbn [from_option obind].
  replace (mem p ps) with true by (symmetry; now apply OrientFacts.mem_In).
  unfold drop. rewrite Hc. cbn [obind negb]. rewrite Hsub. cbn [ofor_each obind fst snd].
  eexists. split; [reflexivity|].
  set (self1 := mkFrame _ _).
  assert (Hvar1 : has_col self1 "variable" = true).
  { unfold has_col, self1. cbn [columns]. rewrite has_col_filter, Hvar.
    replace (String.eqb "variable" p) with false; [reflexivity|].
    symmetry. apply String.eqb_neq. congruence. }
  assert (Hp1 : has_col self1 p = false).
  { unfold has_col, self1. cbn [columns]. rewrite has_col_filter, String.eqb_refl.
    apply andb_false_r. }
  unfold write_variable. rewrite Hvar1. split.
  - exact Hp1.
  - apply (@tag_read _ (remove_first p ps)).
    + exact Hvar1.
    + cbn [rows]. unfold self1. cbn [rows]. destruct (rows self); [congruence | discriminate].
    + cbn [rows]. apply Forall_forall. intros r Hr.
      apply in_map_iff in Hr as (x & <- & _). reflexivity.
    + apply Forall_forall. intros s Hs. rewrite Forall_forall in Hsep.
      apply Hsep. now apply (remove_first_incl p).
Qed.

Lemma delete_property_then_get_property_witness :
  exists df,
    delete_property TagFacts.two_properties ["salinity"] = Ret df
    /\ has_col df "salinity" = false
    /\ get_property df = Some ["temperature"].
Proof.
  apply (@delete_property_then_get_property TagFacts.two_properties
           ["temperature"; "salinity"] "salinity").
  - reflexivity.
  - right. now left.
  - reflexivity.
  - discriminate.
  - discriminate.
  - discriminate.
  - repeat constructor.
Defined.

Lemma has_col_without (l cs : list string) c :
  existsb (String.eqb c) (filter (fun x => negb (mem x cs)) l)
  = existsb (String.eqb c) l && negb (mem c cs).
Proof.
  induction l as [|x l IH]; [reflexivity|]. cbn [filter existsb].
  destruct (mem x cs) eqn:Ex; cbn [negb existsb]; rewrite IH;
    destruct (String.eqb c x) eqn:E; cbn [orb]; try reflexivity;
    apply String.eqb_eq in E; subst x; rewrite Ex; cbn [negb];
    [now rewrite andb_false_r | reflexivity].
Qed.

(** Empty properties.  When [drop_empty_property] returns, the columns
    of the profile are those it had, less the properties whose column
    holds NaN on every row; every row is tagged with the properties
    that are left. *)
Theorem drop_empty_property_columns :
  forall self ps df,
    get_property self = Some ps ->
    drop_empty_property self = Ret df ->
    (forall c, has_col df c = true
               <-> has_col self c = true /\ ~ (In c ps /\ all_null c self = true))
    /\ Forall (fun r => variable r
                        = join (filter (fun p => negb (all_null p self)) ps))
              (rows df).
Proof.
  intros self ps df Hp H.
  pose proof (get_property_has_col _ Hp) as Hvar.
  unfold drop_empty_property in H. rewrite Hp in H. cbn [from_option obind] in H.
  destruct (forallb (has_col self) ps) eqn:Hcols; [|discriminate H].
  cbn [negb] in H. unfold drop_columns, write_variable in H. rewrite Hvar in H.
  match type of H with
  | (if ?b then _ else _) = _ => destruct b; [|discriminate H]
  end.
  injection H as <-.
  assert (Hmem : forall c, mem c (filter (fun prop => all_null prop self) ps) = true
                           <-> In c ps /\ all_null c self = true).
  { intro c. rewrite OrientFacts.mem_In, filter_In. tauto. }
  split.
  - intro c. unfold has_col at 1. cbn [columns]. rewrite has_col_without.
    fold (has_col self c). rewrite andb_true_iff, negb_true_iff.
    rewrite <- Hmem. destruct (mem c _); split; intros [H1 H2];
      (split; [exact H1|]); congruence.
  - cbn [rows]. apply Forall_forall. intros r Hr.
    apply in_map_iff in Hr as (x & <- & Hx).
    apply in_map_iff in Hx as (y & <- & _). cbn [variable set_props set_variable].
    f_equal. apply filter_ext_in. intros p Hin. f_equal.
    destruct (all_null p self) eqn:E.
    + apply Hmem. now split.
    + apply not_true_is_false. intro Hm. apply Hmem in Hm as [_ Hm]. congruence.
Qed.

(** A profile whose salinity was not measured. *)
Definition no_salinity : DataFrame :=
  mkFrame ["name"; "variable"; "y_mid"; "temperature"; "salinity"]
    [ mkRow "core1" "temperature, salinity" "top" nan nan nan (Some 5%Q) nan
            [("temperature", Some (-5)%Q); ("salinity", nan)];
      mkRow "core1" "temperature, salinity" "top" nan nan nan (Some 15%Q) nan
            [("temperature", Some (-4)%Q); ("salinity", nan)] ].

Lemma drop_empty_property_columns_witness :
  exists df,
    drop_empty_property no_salinity = Ret df
    /\ (forall c, has_col df c = true
                  <-> has_col no_salinity c = true
                      /\ ~ (In c ["temperature"; "salinity"]
                            /\ all_null c no_salinity = true))
    /\ Forall (fun r => variable r
                        = join (filter (fun p => negb (all_null p no_salinity))
                                       ["temperature"; "salinity"]))
              (rows df).
Proof.
  eexists. split; [vm_compute; reflexivity|].
  apply (@drop_empty_property_columns no_salinity ["temperature"; "salinity"]).
  - reflexivity.
  - vm_compute. reflexivity.
Defined.

End MethodFacts.

(* ================================================================== *)
(** * The continuous resampling, further properties *)

Module InterpFacts.
Import Num Py Cont NumFacts ContFacts.
Local Open Scope list_scope.
Local Open Scope Q_scope.

(** The value at [x] on the segment from [(x0, f0)] to [(x1, f1)], as
    [numpy.interp] computes it. *)
Definition linear (x0 : Q) (f0 : fl) (x1 : Q) (f1 : fl) (x : Q) : fl :=
  fadd (fmulq (fdiv (fsub f1 f0) (Some (x1 - x0))) (x - x0)) f0.

(** Depths in strictly ascending order. *)
Definition ascending {A} (l : list (Q * A)) : Prop :=
  StronglySorted (fun a b => fst a < fst b) l.

Lemma ascending_app_inv {A} (l1 l2 : list (Q * A)) :
  ascending (l1 ++ l2) ->
  ascending l1 /\ ascending l2
  /\ forall a b, In a l1 -> In b l2 -> fst a < fst b.
Proof.
  unfold ascending. induction l1 as [|x l1 IH]; cbn [app]; intro H.
  - repeat split; [constructor | exact H | intros a b []].
  - inversion H as [|? ? Hs Hf]; subst. destruct (IH Hs) as (H1 & H2 & H3).
    rewrite Forall_forall in Hf. repeat split.
    + constructor; [exact H1|]. apply Forall_forall. intros y Hy.
      apply Hf, in_or_app. now left.
    + exact H2.
    + intros a b [<-|Ha] Hb; [apply Hf, in_or_app; now right | now apply H3].
Qed.

Lemma interp_in_between (l1 : list (Q * fl)) : forall x0 f0 x1 f1 l2 x,
  ascending (l1 ++ (x0, f0) :: (x1, f1) :: l2) -> x0 < x -> x < x1 ->
  interp_in x (l1 ++ (x0, f0) :: (x1, f1) :: l2) = linear x0 f0 x1 f1 x.
Proof.
  induction l1 as [|[xa fa] l1 IH]; intros x0 f0 x1 f1 l2 x Hs H0 H1.
  - cbn [app interp_in].
    replace (Qltb x x1) with true by (symmetry; now apply Qltb_lt).
    destruct (Qeq_bool x x0) eqn:E; [|reflexivity].
    apply Qeq_bool_iff in E. lra.
  - destruct (ascending_app_inv _ _ Hs) as (_ & _ & Hlt).
    assert (Ha : xa < x0).
    { apply (Hlt (xa, fa) (x0, f0)); now left. }
    assert (Hs' : ascending (l1 ++ (x0, f0) :: (x1, f1) :: l2)).
    { inversion Hs; assumption. }
    specialize (IH x0 f0 x1 f1 l2 x Hs' H0 H1). cbn [app].
    destruct l1 as [|[xb fb] l1'].
    + cbn [app] in *. cbn [interp_in].
      replace (Qltb x x0) with false by (symmetry; apply Qltb_ge; lra).
      exact IH.
    + cbn [app] in *.
      assert (Hb : xb < x0).
      { apply (Hlt (xb, fb) (x0, f0)); [right|]; now left. }
      change (interp_in x ((xa, fa) :: (xb, fb) :: l1' ++ (x0, f0) :: (x1, f1) :: l2))
        with (if Qltb x xb
              then if Qeq_bool x xa then fa
                   else fadd (fmulq (fdiv (fsub fb fa) (Some (xb - xa))) (x - xa)) fa
              else interp_in x ((xb, fb) :: l1' ++ (x0, f0) :: (x1, f1) :: l2)).
      replace (Qltb x xb) with false by (symmetry; apply Qltb_ge; lra).
      exact IH.
Qed.

Lemma last_app_cons {A} (l1 : list A) x l2 d : last (l1 ++ x :: l2) d = last (x :: l2) d.
Proof.
  induction l1 as [|y l1 IH]; [reflexivity|].
  cbn [app]. destruct (l1 ++ x :: l2) eqn:E.
  - destruct l1; discriminate E.
  - exact IH.
Qed.

Lemma ascending_last {A} (l : list (Q * A)) : forall x d,
  ascending (x :: l) -> fst x <= fst (last (x :: l) d).
Proof.
  induction l as [|y l IH]; intros x d H; [cbn; lra|].
  change (last (x :: y :: l) d) with (last (y :: l) d).
  inversion H as [|? ? Hs Hf]; subst. inversion Hf; subst.
  specialize (IH y d Hs). lra.
Qed.

Lemma np_interp_between (l1 : list (Q * fl)) x0 f0 x1 f1 l2 x :
  ascending (l1 ++ (x0, f0) :: (x1, f1) :: l2) -> x0 < x -> x < x1 ->
  np_interp x (l1 ++ (x0, f0) :: (x1, f1) :: l2) = linear x0 f0 x1 f1 x.
Proof.
  intros Hs H0 H1. unfold np_interp.
  destruct (ascending_app_inv _ _ Hs) as (_ & Hs2 & Hlt).
  assert (Hfirst : first_x (l1 ++ (x0, f0) :: (x1, f1) :: l2) <= x0).
  { unfold first_x. destruct l1 as [|a l1]; [cbn; lra|]. cbn [app hd].
    apply Qlt_le_weak. apply (Hlt a (x0, f0)); now left. }
  assert (Hlast : x1 <= last_x (l1 ++ (x0, f0) :: (x1, f1) :: l2)).
  { unfold last_x. rewrite last_app_cons.
    change (last ((x0, f0) :: (x1, f1) :: l2) (0, nan))
      with (last ((x1, f1) :: l2) (0, nan)).
    inversion Hs2 as [|? ? Hs3 _]; subst.
    exact (ascending_last (0, nan) Hs3). }
  replace (Qltb x (first_x _)) with false by (symmetry; apply Qltb_ge; lra).
  replace (Qltb (last_x _) x) with false by (symmetry; apply Qltb_ge; lra).
  now apply interp_in_between.
Qed.

Lemma column_ascending j (yx : list line) : ascending yx -> ascending (column j yx).
Proof.
  unfold ascending, column. induction 1 as [|x l Hs IH Hf]; cbn [map]; constructor.
  - exact IH.
  - rewrite Forall_forall in *. intros y Hy. apply in_map_iff in Hy as (z & <- & Hz).
    cbn [fst]. now apply Hf.
Qed.

Lemma nth_map_seq {B} (f : nat -> B) n j d :
  (j < n)%nat -> nth j (map f (seq 0 n)) d = f j.
Proof.
  intro H. rewrite (nth_indep _ d (f 0%nat)) by (now rewrite length_map, length_seq).
  rewrite map_nth. now rewrite seq_nth.
Qed.

(** A temperature profile measured at the depths 0, 10 and 20, in
    order. *)
Definition three_sorted : list line :=
  [(0, [Some (-2)]); (10, [Some (-4)]); (20, [Some (-6)])].

(** Between two measurements.  In the continuous resampling of a source
    in strictly ascending order of depth, a target depth that lies
    between two consecutive source depths, at the tolerance or more
    from both, has its point in the output, and this point holds for
    every variable the value of the straight line through the two
    measurements. *)
Theorem continuous_value_is_interpolated :
  forall n_var yx y_mid pts l1 a b l2 y,
    resample n_var yx y_mid = Ret pts ->
    yx = l1 ++ a :: b :: l2 -> ascending yx ->
    In y y_mid -> fst a + TOL <= y -> y <= fst b - TOL ->
    exists p,
      In p pts /\ p_y p = y
      /\ forall j, (j < n_var)%nat ->
           nth j (p_x p) nan
           = linear (fst a) (nth j (snd a) nan) (fst b) (nth j (snd b) nan) y.
Proof.
  intros n_var yx y_mid pts l1 a b l2 y Hres Eyx Hs Hy Ha Hb.
  apply resample_parts in Hres as (T & A & Z & HT & HA & HZ & Hpts).
  rewrite interpolate_lines in HT.
  destruct (@target_points _ _ (weight_of yx) y_mid T HT) as [_ Hto].
  destruct (Hto y Hy) as (t & [Hfst Hkeep] & Hin). cbn [fst] in Hfst, Hkeep.
  exists (point_of t (weight_of yx y)).
  split; [apply Hpts, in_or_app; now left|].
  split; [symmetry; exact Hfst|].
  intros j Hj. rewrite <- Hkeep.
  - cbn [point_of p_x snd]. rewrite (nth_map_seq _ nan Hj).
    pose proof (column_ascending j Hs) as Hc. subst yx.
    unfold column in *. rewrite map_app in *. cbn [map] in *.
    apply np_interp_between; [exact Hc | |]; unfold TOL in *; lra.
  - intros idx Hidx. apply near_false. subst yx.
    destruct (ascending_app_inv _ _ Hs) as (_ & Hs2 & Hlt).
    assert (Hab : fst a < fst b).
    { inversion Hs2 as [|? ? _ Hf]; subst. now inversion Hf. }
    assert (Hside : idx <= fst a \/ fst b <= idx).
    { apply in_map_iff in Hidx as (z & <- & Hz).
      apply in_app_or in Hz as [Hz|[<-|[<-|Hz]]].
      - left. apply Qlt_le_weak. apply (Hlt z a Hz). now left.
      - left. lra.
      - right. lra.
      - right. apply Qlt_le_weak. inversion Hs2 as [|? ? Hs3 _]; subst.
        inversion Hs3 as [|? ? _ Hf]; subst. rewrite Forall_forall in Hf.
        now apply Hf. }
    unfold TOL in *. apply Qabs_case; intro; lra.
Qed.

Lemma continuous_value_is_interpolated_witness :
  exists pts,
    resample 1 three_sorted [5] = Ret pts
    /\ exists p,
         In p pts /\ p_y p = 5
         /\ forall j, (j < 1)%nat ->
              nth j (p_x p) nan
              = linear 0 (nth j [Some (-2)] nan) 10 (nth j [Some (-4)] nan) 5.
Proof.
  eexists. split; [vm_compute; reflexivity|].
  apply (@continuous_value_is_interpolated 1%nat three_sorted [5] _
           [] (0, [Some (-2)]) (10, [Some (-4)]) [(20, [Some (-6)])] 5).
  - vm_compute. reflexivity.
  - reflexivity.
  - repeat constructor.
  - now left.
  - unfold TOL. cbn. lra.
  - unfold TOL. cbn. lra.
Defined.

(** ** The extremes of the source *)

Lemma far_not_near y2 d : far y2 d -> existsb (near d) y2 = false.
Proof.
  intro H. apply not_true_is_false. intro E.
  apply existsb_exists in E as (y & Hy & Hn). rewrite (H y Hy) in Hn. discriminate Hn.
Qed.

Lemma far_not_equal y2 d (T : list line) :
  far y2 d -> (forall t, In t T -> In (fst t) y2) ->
  existsb (fun l => Qeq_bool (fst l) d) T = false.
Proof.
  intros Hfar HT. apply not_true_is_false. intro E.
  apply existsb_exists in E as (t & Ht & Eq). apply Qeq_near in Eq.
  rewrite (Hfar _ (HT t Ht)) in Eq. discriminate Eq.
Qed.

Lemma values_at_first (x : line) yx :
  ascending (x :: yx) -> values_at (fst x) (x :: yx) = [snd x].
Proof.
  intro H. unfold values_at. cbn [filter].
  replace (Qeq_bool (fst x) (fst x)) with true
    by (symmetry; apply Qeq_bool_iff; reflexivity).
  cbn [map]. f_equal. inversion H as [|? ? _ Hf]; subst.
  replace (filter (fun l => Qeq_bool (fst l) (fst x)) yx) with (@nil line);
    [reflexivity|].
  symmetry. apply BinFacts.filter_nil_iff. eapply Forall_impl; [|exact Hf].
  cbn beta. intros l Hl. apply not_true_is_false. intro E.
  apply Qeq_bool_iff in E. lra.
Qed.

Lemma values_at_last (yx : list line) : forall x,
  ascending (x :: yx) ->
  values_at (last_depth (x :: yx)) (x :: yx) = [snd (last (x :: yx) (0, []))].
Proof.
  unfold last_depth. induction yx as [|y yx IH]; intros x H.
  - cbn [last]. now apply values_at_first.
  - change (last (x :: y :: yx) (0, [])) with (last (y :: yx) (0, [])).
    inversion H as [|? ? Hs Hf]; subst. inversion Hf as [|? ? Hxy _]; subst.
    pose proof (ascending_last (0, []) Hs) as Hl.
    unfold values_at at 1. cbn [filter].
    replace (Qeq_bool (fst x) (fst (last (y :: yx) (0, [])))) with false.
    + exact (IH y Hs).
    + symmetry. apply not_true_is_false. intro E. apply Qeq_bool_iff in E.
      exact (Qlt_not_eq _ _ (Qlt_le_trans _ _ _ Hxy Hl) E).
Qed.

Lemma add_extremum_appends yx y2 index y2x w v :
  far y2 index ->
  existsb (fun l => Qeq_bool (fst l) index) y2x = false ->
  values_at index yx = [v] ->
  add_extremum yx y2 index (y2x, w) = Ret (y2x ++ [(index, v)], w ++ [0]).
Proof.
  intros Hfar Hne Hv. unfold add_extremum.
  rewrite (@far_not_near y2 index Hfar), Hne, Hv. reflexivity.
Qed.

Lemma in_map2_tail {A B C} (f : A -> B -> C) l1 l2 m1 m2 p :
  List.length l1 = List.length m1 ->
  In p (map2 f l2 m2) -> In p (map2 f (l1 ++ l2) (m1 ++ m2)).
Proof.
  intros Hlen Hp. rewrite map2_app by exact Hlen. apply in_or_app. now right.
Qed.

(** The extremes of the source.  In the continuous resampling of a
    source in strictly ascending order of depth, when it returns: if no
    target depth is within the tolerance of the least source depth, the
    output holds a point at that depth, with the values measured there
    and the weight 0; and the same for the greatest source depth. *)
Theorem source_extremes_are_appended :
  forall n_var yx y_mid pts,
    resample n_var yx y_mid = Ret pts -> ascending yx ->
    (far y_mid (first_depth yx) ->
       In (mkP (first_depth yx) (snd (hd (0, []) yx)) 0) pts)
    /\ (far y_mid (last_depth yx) ->
       In (mkP (last_depth yx) (snd (last yx (0, []))) 0) pts).
Proof.
  intros n_var yx y_mid pts H Hs. unfold resample in H.
  destruct yx as [|x0 yx0] eqn:Eyx; [discriminate|].
  assert (Hv0 : values_at (first_depth yx) yx = [snd (hd (0, []) yx)]).
  { subst yx. now apply values_at_first. }
  assert (Hvl : values_at (last_depth yx) yx = [snd (last yx (0, []))]).
  { subst yx. now apply values_at_last. }
  rewrite <- Eyx in *. clear Eyx x0 yx0.
  destruct (copy_exact yx (interpolate n_var yx y_mid)) as [T|e] eqn:Ecopy;
    [|discriminate].
  cbn [obind] in H. apply copy_kept in Ecopy.
  assert (HT : forall t, In t T -> In (fst t) y_mid).
  { clear - Ecopy. rewrite interpolate_lines in Ecopy.
    revert T Ecopy. induction y_mid as [|y y2 IH]; intros T H; cbn [map] in H.
    - inversion H. intros t [].
    - inversion H as [|? t0 ? T' [Hfst _] HT']; subst. intros t [<-|Ht].
      + left. exact Hfst.
      + right. now apply (IH T'). }
  assert (Hlen : List.length T = List.length (map (weight_of yx) y_mid)).
  { apply Forall2_length in Ecopy. rewrite <- Ecopy.
    unfold interpolate. now rewrite !length_map. }
  set (w := map (weight_of yx) y_mid) in *.
  set (lo := first_depth yx) in *. set (hi := last_depth yx) in *.
  set (v0 := snd (hd (0, []) yx)) in *. set (vl := snd (last yx (0, []))) in *.
  assert (E1 : exists A1 Z1,
             add_extremum yx y_mid lo (T, w) = Ret (T ++ A1, w ++ Z1)
             /\ ((A1 = [] /\ Z1 = [] /\ existsb (near lo) y_mid = true)
                 \/ (A1 = [(lo, v0)] /\ Z1 = [0] /\ far y_mid lo))).
  { destruct (existsb (near lo) y_mid) eqn:N1.
    - exists [], []. split; [|left; repeat split].
      unfold add_extremum. rewrite N1, !app_nil_r. reflexivity.
    - apply far_existsb in N1. exists [(lo, v0)], [0]. split; [|right; repeat split; exact N1].
      apply add_extremum_appends; [exact N1 | | exact Hv0].
      exact (@far_not_equal y_mid lo T N1 HT). }
  destruct E1 as (A1 & Z1 & E1 & HA1). rewrite E1 in H. cbn [obind] in H.
  assert (Hlen1 : List.length A1 = List.length Z1).
  { destruct HA1 as [(-> & -> & _)|(-> & -> & _)]; reflexivity. }
  assert (Hfirst : far y_mid lo -> A1 = [(lo, v0)] /\ Z1 = [0]).
  { intro Hfar. destruct HA1 as [(_ & _ & N)|(-> & -> & _)]; [|now split].
    rewrite (@far_not_near y_mid lo Hfar) in N. discriminate N. }
  assert (Hlen' : List.length (T ++ A1) = List.length (w ++ Z1)).
  { rewrite !length_app. lia. }
  destruct (existsb (near hi) y_mid) eqn:N2.
  - assert (E2 : add_extremum yx y_mid hi (T ++ A1, w ++ Z1) = Ret (T ++ A1, w ++ Z1)).
    { unfold add_extremum. now rewrite N2. }
    rewrite E2 in H. cbn [obind] in H.
    rewrite Hlen', Nat.eqb_refl in H. injection H as <-. split.
    + intro Hfar. destruct (Hfirst Hfar) as [-> ->].
      apply sort_by_In. apply in_map2_tail; [exact Hlen | now left].
    + intro Hfar. rewrite (@far_not_near y_mid hi Hfar) in N2. discriminate N2.
  - apply far_existsb in N2.
    destruct (existsb (fun l => Qeq_bool (fst l) hi) (T ++ A1)) eqn:Eq.
    + exfalso. unfold add_extremum in H. rewrite (@far_not_near y_mid hi N2), Eq in H.
      cbn [negb] in H.
      destruct (set_lines (fun y => Qeq_bool y hi) (values_at hi yx) (T ++ A1))
        as [l1|e] eqn:Es; [|discriminate H].
      cbn [obind] in H. apply set_lines_kept, Forall2_length in Es.
      replace (Nat.eqb (List.length ((w ++ Z1) ++ [0])) (List.length l1))
        with false in H; [discriminate H|].
      symmetry. apply Nat.eqb_neq. rewrite <- Es, Hlen', !length_app. cbn. lia.
    + assert (E2 : add_extremum yx y_mid hi (T ++ A1, w ++ Z1)
                   = Ret ((T ++ A1) ++ [(hi, vl)], (w ++ Z1) ++ [0]))
        by (apply add_extremum_appends; assumption).
      rewrite E2 in H.
      cbn [obind] in H.
      replace (Nat.eqb (List.length ((w ++ Z1) ++ [0]))
                       (List.length ((T ++ A1) ++ [(hi, vl)]))) with true in H
        by (symmetry; apply Nat.eqb_eq; rewrite !length_app; cbn; lia).
      injection H as <-. split.
      * intro Hfar. destruct (Hfirst Hfar) as [-> ->].
        apply sort_by_In. rewrite <- !app_assoc.
        apply in_map2_tail; [exact Hlen | now left].
      * intros _. apply sort_by_In.
        apply in_map2_tail; [symmetry in Hlen'; now symmetry | now left].
Qed.

Lemma source_extremes_are_appended_witness :
  exists pts,
    resample 1 three_sorted [5] = Ret pts
    /\ In (mkP 0 [Some (-2)] 0) pts /\ In (mkP 20 [Some (-6)] 0) pts.
Proof.
  eexists. split; [vm_compute; reflexivity|].
  destruct (@source_extremes_are_appended 1%nat three_sorted [5] _ eq_refl) as [H1 H2].
  - repeat constructor.
  - split.
    + apply H1. intros y [<-|[]]. vm_compute. reflexivity.
    + apply H2. intros y [<-|[]]. vm_compute. reflexivity.
Defined.

End InterpFacts.

(* ================================================================== *)
(** * uniformize_section beyond the source *)

Module UniformFacts.
Import Num Py Frame Ops NumFacts.
Local Open Scope string_scope.
Local Open Scope list_scope.
Local Open Scope Q_scope.

Lemma dropna_In (l : list fl) d : In d (Discretize.dropna l) <-> In (Some d) l.
Proof.
  induction l as [|[q|] l IH]; cbn [Discretize.dropna In].
  - tauto.
  - rewrite IH. split; intros [H|H]; auto; left; congruence.
  - rewrite IH. split; [auto|]. intros [H|H]; [discriminate H | exact H].
Qed.

Lemma sort_fl_In key l r : In r (sort_fl key l) -> In r l.
Proof.
  unfold sort_fl. intro H. apply in_app_or in H as [H|H].
  - apply ContFacts.sort_by_In, filter_In in H. apply H.
  - apply filter_In in H. apply H.
Qed.

Lemma map2_fst_In {A B} (xp : list Q) (src : list A) (f : A -> B) p :
  In p (map2 (fun x r => (x, f r)) xp src) -> In (fst p) xp.
Proof.
  revert src. induction xp as [|x xp IH]; intros [|s src] H; cbn [map2] in H;
    try contradiction.
  destruct H as [<-|H]; [now left | right; now apply (IH src)].
Qed.

Lemma hd_In {A} (l : list A) d : l <> [] -> In (hd d l) l.
Proof. destruct l; [congruence | now left]. Qed.

Lemma last_In {A} (l : list A) d : l <> [] -> In (last l d) l.
Proof.
  induction l as [|x l IH]; intro H; [congruence|].
  destruct l as [|y l]; [now left|]. right. apply IH. discriminate.
Qed.

(** A temperature profile measured at the depths 10 and 20. *)
Definition two_depths : DataFrame :=
  mkFrame ["name"; "variable"; "y_mid"; "temperature"]
    [ mkRow "core1" "temperature" "top" nan nan nan (Some 10) nan
            [("temperature", Some (-4))];
      mkRow "core1" "temperature" "top" nan nan nan (Some 20) nan
            [("temperature", Some (-6))] ].

(** The depths 5 and 15 of a target. *)
Definition two_targets : DataFrame :=
  mkFrame ["name"; "variable"; "y_mid"; "temperature"]
    [ mkRow "core2" "temperature" "top" nan nan nan (Some 5) nan [];
      mkRow "core2" "temperature" "top" nan nan nan (Some 15) nan [] ].

(** Beyond the source.  When [uniformize_section] returns for a profile
    sampled at points, a target depth that lies above every depth of the
    profile, or below every one, gets NaN: nothing is extrapolated. *)
Theorem uniformized_outside_is_nan :
  forall profile profile_target rs r,
    Discretize.is_continuous profile = true ->
    uniformize_section profile profile_target = Ret rs ->
    In r rs ->
    (forall s d, In s (rows profile) -> y_mid s = Some d -> u_y_mid r < d)
    \/ (forall s d, In s (rows profile) -> y_mid s = Some d -> d < u_y_mid r) ->
    u_value r = nan.
Proof.
  intros profile profile_target rs r Hc H Hr Hout.
  unfold uniformize_section in H.
  destruct (target_depths profile_target) as [ys|e]; [|discriminate H].
  cbn [obind] in H. unfold source_rows in H. rewrite Hc in H.
  destruct (has_col profile "y_mid"); [|discriminate H]. cbn [obind] in H.
  set (source := sort_fl y_mid (rows profile)) in *.
  destruct (has_col profile "variable"); [|discriminate H]. cbn [negb] in H.
  destruct (hd_error (unique (map variable source))) as [v|]; [|discriminate H].
  cbn [from_option obind] in H.
  destruct (has_col profile v); [|discriminate H]. cbn [negb] in H.
  destruct source as [|s0 src] eqn:Es; [discriminate H|]. rewrite <- Es in *.
  set (xp := Discretize.dropna (map y_mid source)) in *.
  destruct (Nat.eqb (List.length xp) (List.length source) && increasing xp) eqn:Ex;
    [|discriminate H].
  cbn [negb] in H. injection H as <-.
  apply andb_true_iff in Ex as [Elen _]. apply Nat.eqb_eq in Elen.
  set (pts := map2 (fun x r => (x, prop v r)) xp source) in *.
  apply in_map_iff in Hr as (y & <- & Hy). cbn [u_y_mid u_value] in *.
  assert (Hpts : pts <> []).
  { unfold pts. rewrite Es in *. destruct xp; [discriminate Elen | discriminate]. }
  assert (Hdepth : forall p, In p pts ->
            exists s, In s (rows profile) /\ y_mid s = Some (fst p)).
  { intros p Hp. apply map2_fst_In in Hp. apply dropna_In in Hp.
    apply in_map_iff in Hp as (s & E & Hs). exists s. split; [|exact E].
    now apply (sort_fl_In y_mid). }
  unfold Cont.np_interp, Cont.first_x, Cont.last_x.
  destruct Hout as [Hlow|Hhigh].
  - destruct (Hdepth _ (hd_In (0, nan) Hpts)) as (s & Hs & E).
    replace (Qltb y (fst (hd (0, nan) pts))) with true; [reflexivity|].
    symmetry. apply Qltb_lt. exact (Hlow s _ Hs E).
  - destruct (Hdepth _ (last_In (0, nan) Hpts)) as (s & Hs & E).
    destruct (Qltb y (fst (hd (0, nan) pts))); [reflexivity|].
    replace (Qltb (fst (last pts (0, nan))) y) with true; [reflexivity|].
    symmetry. apply Qltb_lt. exact (Hhigh s _ Hs E).
Qed.

Lemma uniformized_outside_is_nan_witness :
  exists rs,
    uniformize_section two_depths two_targets = Ret rs
    /\ forall r, In r rs -> u_y_mid r < 10 -> u_value r = nan.
Proof.
  eexists. split; [vm_compute; reflexivity|]. intros r Hr Hlt.
  refine (@uniformized_outside_is_nan two_depths two_targets _ r eq_refl _ Hr _).
  - vm_compute. reflexivity.
  - left. intros s d [<-|[<-|[]]] E; injection E as <-; lra.
Defined.

End UniformFacts.

(* ================================================================== *)
(** * Target edges made from midpoints *)

Module TargetFacts.
Import Num Py Frame Discretize NumFacts.
Local Open Scope list_scope.
Local Open Scope Q_scope.

(** Every depth lies in its bin: between the edge of its rank and the
    next one. *)
Fixpoint brackets (y_bins y_mid : list Q) : Prop :=
  match y_bins, y_mid with
  | b :: ((b' :: _) as t), m :: y_mid' => b <= m <= b' /\ brackets t y_mid'
  | [_], [] => True
  | _, _ => False
  end.

(** The edges after the first one (line 217). *)
Definition upper_edges (y_mid : list Q) : list Q :=
  map2 Qplus (removelast y_mid) (halves (Step.diff y_mid))
  ++ [last y_mid 0 + last (halves (Step.diff y_mid)) 0].

Lemma upper_edges_two m0 m1 :
  upper_edges [m0; m1] = [m0 + (m1 - m0) / 2; m1 + (m1 - m0) / 2].
Proof. reflexivity. Qed.

Lemma upper_edges_cons m0 m1 m2 r :
  upper_edges (m0 :: m1 :: m2 :: r)
  = (m0 + (m1 - m0) / 2) :: upper_edges (m1 :: m2 :: r).
Proof. reflexivity. Qed.

Lemma half_between a b : a <= b -> a <= a + (b - a) / 2 <= b.
Proof.
  intro H. assert (E : a + (b - a) / 2 == (a + b) / 2) by field.
  rewrite E. split.
  - apply Qle_shift_div_l; lra.
  - apply Qle_shift_div_r; lra.
Qed.

Lemma upper_edges_bracket r : forall b m0 m1,
  b <= m0 ->
  StronglySorted Qle (m0 :: m1 :: r) ->
  brackets (b :: upper_edges (m0 :: m1 :: r)) (m0 :: m1 :: r).
Proof.
  induction r as [|m2 r IH]; intros b m0 m1 Hb Hs.
  - rewrite upper_edges_two. inversion Hs as [|? ? _ Hf]; subst.
    inversion Hf as [|? ? H01 _]; subst.
    destruct (half_between H01) as [H1 H2]. cbn [brackets].
    repeat split; try assumption.
    assert (0 <= (m1 - m0) / 2) by (apply Qle_shift_div_l; lra). lra.
  - rewrite upper_edges_cons. inversion Hs as [|? ? Hs' Hf]; subst.
    inversion Hf as [|? ? H01 _]; subst.
    destruct (half_between H01) as [H1 H2].
    specialize (IH (m0 + (m1 - m0) / 2) m1 m2 H2 Hs').
    cbn [brackets] in *. repeat split; try assumption; apply IH.
Qed.

Lemma insert_by_length {A} (key : A -> Q) x l :
  List.length (Cont.insert_by key x l) = S (List.length l).
Proof.
  induction l as [|y l IH]; [reflexivity|]. cbn [Cont.insert_by].
  destruct (Qltb (key x) (key y)); cbn [List.length]; [reflexivity | now rewrite IH].
Qed.

Lemma sort_by_length {A} (key : A -> Q) l :
  List.length (Cont.sort_by key l) = List.length l.
Proof.
  unfold Cont.sort_by. rewrite <- (length_rev l).
  induction (rev l) as [|x t IH]; [reflexivity|].
  cbn [fold_right]. now rewrite insert_by_length, IH.
Qed.

Lemma targets_from_midpoints profile y_mid m0 m1 r :
  Cont.sort_by (fun y => y) y_mid = m0 :: m1 :: r ->
  targets profile None (Some y_mid)
  = Ret ((if Qltb (m0 - (m1 - m0) / 2) 0 then 0 else m0 - (m1 - m0) / 2)
           :: upper_edges (m0 :: m1 :: r),
         m0 :: m1 :: r).
Proof.
  intro E. unfold targets. rewrite E. cbv zeta.
  destruct (Qltb (m0 - (m1 - m0) / 2) 0) eqn:C;
    cbn [Step.diff halves map app]; rewrite C; reflexivity.
Qed.

(** Edges made from midpoints.  Given two target depths or more, none
    negative, and no edges, [discretize_profile] takes the depths in
    ascending order and builds one edge more than there are depths, such
    that every depth lies in its bin. *)
Theorem midpoints_lie_in_their_bins :
  forall profile y_mid,
    (2 <= List.length y_mid)%nat -> Forall (fun m => 0 <= m) y_mid ->
    exists y_bins,
      targets profile None (Some y_mid)
      = Ret (y_bins, Cont.sort_by (fun y => y) y_mid)
      /\ brackets y_bins (Cont.sort_by (fun y => y) y_mid).
Proof.
  intros profile y_mid Hlen Hpos.
  pose proof (sort_by_length (fun y => y) y_mid) as Hl.
  pose proof (ContFacts.sort_by_sorted (fun y => y) y_mid) as Hs.
  assert (Hin : forall m, In m (Cont.sort_by (fun y => y) y_mid) -> 0 <= m).
  { intros m Hm. apply ContFacts.sort_by_In in Hm.
    rewrite Forall_forall in Hpos. now apply Hpos. }
  destruct (Cont.sort_by (fun y => y) y_mid) as [|m0 [|m1 r]] eqn:E;
    try (cbn [List.length] in Hl; lia).
  change (StronglySorted Qle (m0 :: m1 :: r)) in Hs.
  assert (H01 : m0 <= m1).
  { inversion Hs as [|? ? _ Hf]; subst. now inversion Hf. }
  assert (Hd : 0 <= (m1 - m0) / 2) by (apply Qle_shift_div_l; lra).
  eexists. split; [exact (@targets_from_midpoints profile y_mid m0 m1 r E)|].
  apply upper_edges_bracket; [|exact Hs].
  destruct (Qltb (m0 - (m1 - m0) / 2) 0); [apply Hin; now left | lra].
Qed.

Lemma midpoints_lie_in_their_bins_witness :
  exists y_bins,
    targets (mkFrame [] []) None (Some [15; 5; 30])
    = Ret (y_bins, Cont.sort_by (fun y => y) [15; 5; 30])
    /\ brackets y_bins (Cont.sort_by (fun y => y) [15; 5; 30]).
Proof.
  apply (@midpoints_lie_in_their_bins (mkFrame [] []) [15; 5; 30]).
  - cbn. lia.
  - repeat constructor; discriminate.
Defined.

End TargetFacts.

(* ================================================================== *)
(** * What fill_extremity changes *)

Module EdgeFacts.
Import Num Py Step.
Local Open Scope list_scope.
Local Open Scope Q_scope.

(** What [fill_extremity] changes.  Whether [fill_extremity] is set or
    not, the same bins emit a row, with the same values and the same
    weights; only the boundaries pushed on [y_step] may differ, and
    with [fill_extremity] set they are the edges of the bin. *)
Theorem fill_extremity_moves_boundaries_only :
  forall yx y_bins n_var ii_bin,
    option_map x_e (bin_step yx y_bins n_var true ii_bin)
    = option_map x_e (bin_step yx y_bins n_var false ii_bin)
    /\ option_map w_e (bin_step yx y_bins n_var true ii_bin)
       = option_map w_e (bin_step yx y_bins n_var false ii_bin)
    /\ forall e, bin_step yx y_bins n_var true ii_bin = Some e ->
         lo_e e = nth ii_bin y_bins 0 /\ hi_e e = nth (ii_bin + 1) y_bins 0.
Proof.
  intros yx y_bins n_var ii_bin. unfold bin_step.
  destruct (select yx (nth ii_bin y_bins 0) (nth (ii_bin + 1) y_bins 0)) as [|i a];
    [split; [reflexivity | split; [reflexivity | intros e H; discriminate H]]|].
  cbn [option_map]. unfold bin_body. cbv zeta. rewrite !andb_false_r.
  split; [|split].
  - f_equal.
    match goal with
    | |- x_e _ = x_e (if ?c then _ else if ?c' then _ else _) => destruct c, c'
    end; reflexivity.
  - f_equal.
    match goal with
    | |- w_e _ = w_e (if ?c then _ else if ?c' then _ else _) => destruct c, c'
    end; reflexivity.
  - intros e H. injection H as <-. split; reflexivity.
Qed.

End EdgeFacts.

(* ================================================================== *)
(** * A bin that is a source section *)

Module SectionBinFacts.
Import Num Py Step NumFacts StepFacts BinFacts Cases.
Local Open Scope list_scope.
Local Open Scope Q_scope.

Lemma covered_valid_app j b0 b1 l1 l2 :
  covered_valid j b0 b1 (l1 ++ l2)
  == covered_valid j b0 b1 l1 + covered_valid j b0 b1 l2.
Proof.
  induction l1 as [|r l1 IH]; cbn [app]; [cbn; ring|].
  rewrite !covered_valid_cons, IH. ring.
Qed.

Lemma weighted_app j b0 b1 l1 l2 :
  weighted b0 b1 j (l1 ++ l2) == weighted b0 b1 j l1 + weighted b0 b1 j l2.
Proof.
  induction l1 as [|r l1 IH]; cbn [app]; [cbn; ring|].
  rewrite !weighted_cons, IH. ring.
Qed.

Lemma nothing_shared j b0 b1 l :
  Forall (fun r => overlap b0 b1 r == 0) l ->
  covered_valid j b0 b1 l == 0 /\ weighted b0 b1 j l == 0.
Proof.
  induction 1 as [|r l Hr _ [IH1 IH2]]; [split; reflexivity|].
  rewrite covered_valid_cons, weighted_cons, IH1, IH2. unfold counted.
  destruct (valid j r); rewrite Hr; split; ring.
Qed.

(** A bin on a section.  Under the conditions on the sections of the
    value of a bin, a bin whose edges are the bounds of a source section
    that holds the value [v] emits [v] with the weight 1. *)
Theorem bin_on_a_section :
  forall yx y_bins n_var fill_extremity ii_bin j r v,
    let b0 := nth ii_bin y_bins 0 in
    let b1 := nth (ii_bin + 1) y_bins 0 in
    (ii_bin + 1 < List.length y_bins)%nat ->
    regular_all b0 b1 n_var yx ->
    In r yx -> c0 r == b0 -> c1 r == b1 ->
    nth_error (vals r) j = Some (Some v) ->
    exists e w x,
      bin_step yx y_bins n_var fill_extremity ii_bin = Some e
      /\ nth j (w_e e) nan = Some w /\ w == 1
      /\ nth j (x_e e) nan = Some x /\ x == v.
Proof.
  intros yx y_bins n_var fe ii_bin j r v b0 b1 Hlen Hreg Hin H0 H1 Hv.
  pose proof Hreg as (Hs & Hr). rewrite Forall_forall in Hr.
  destruct (Hr r Hin) as (Hl & _ & _ & Hn).
  assert (Hb : b0 < b1) by lra.
  assert (Hj : (j < n_var)%nat).
  { rewrite <- Hn. apply nth_error_Some. congruence. }
  assert (Hov : overlap b0 b1 r == b1 - b0).
  { rewrite (@overlap_inner b0 b1 r); lra. }
  assert (He : Exists (fun r => 0 < overlap b0 b1 r) yx).
  { apply Exists_exists. exists r. split; [exact Hin | lra]. }
  destruct (@bin_emits yx y_bins n_var fe ii_bin j Hlen Hb Hreg He Hj)
    as (e & w & E1 & E2 & E3 & E4).
  fold b0 b1 in E3, E4.
  assert (Hsums : covered_valid j b0 b1 yx == b1 - b0
                  /\ weighted b0 b1 j yx == v * (b1 - b0)).
  { destruct (in_split _ _ Hin) as (l1 & l2 & E). rewrite E in Hs |- *.
    destruct (@sorted_split _ before l1 r l2 Hs) as [Hbefore Hafter].
    assert (Z1 : Forall (fun x => overlap b0 b1 x == 0) l1).
    { rewrite Forall_forall in *. intros x Hx.
      destruct (Hr x) as (Hlx & _); [rewrite E; apply in_or_app; now left|].
      specialize (Hbefore x Hx). unfold before in Hbefore.
      apply overlap_none; lra. }
    assert (Z2 : Forall (fun x => overlap b0 b1 x == 0) l2).
    { rewrite Forall_forall in *. intros x Hx.
      destruct (Hr x) as (Hlx & _); [rewrite E; apply in_or_app; right; now right|].
      specialize (Hafter x Hx). unfold before in Hafter.
      apply overlap_none; lra. }
    destruct (@nothing_shared j b0 b1 l1 Z1) as [A1 A2].
    destruct (@nothing_shared j b0 b1 l2 Z2) as [B1 B2].
    rewrite covered_valid_app, weighted_app, covered_valid_cons, weighted_cons.
    rewrite A1, A2, B1, B2. unfold counted, valid, held.
    rewrite (nth_error_nth _ _ nan Hv). cbn [isnan negb nz].
    rewrite Hov. split; ring. }
  destruct Hsums as [Hcv Hw].
  assert (Hnz : Qeq_bool (covered_valid j b0 b1 yx) 0 = false).
  { apply not_true_is_false. intro F. apply Qeq_bool_iff in F. lra. }
  unfold mean_over in E4. rewrite Hnz in E4.
  destruct (nth j (x_e e) nan) as [x|] eqn:Ex; [|destruct E4].
  cbn [fl_eq] in E4.
  exists e, w, x. repeat split; try assumption.
  - rewrite E3, Hcv. field. lra.
  - rewrite E4, Hw, Hcv. field. lra.
Qed.

Lemma bin_on_a_section_witness :
  exists e w x,
    bin_step two_values [10; 20] 1 false 0 = Some e
    /\ nth 0 (w_e e) nan = Some w /\ w == 1
    /\ nth 0 (x_e e) nan = Some x /\ x == 8.
Proof.
  apply (@bin_on_a_section two_values [10; 20] 1%nat false 0%nat 0%nat
           (mkS 10 20 [Some 8]) 8).
  - cbn. lia.
  - unfold regular_all, two_values, aligned, clear_of, TOL. split.
    + repeat constructor. unfold before. cbn. lra.
    + cbn [nth Nat.add].
      repeat (constructor; [cbn [c0 c1 vals List.length]; repeat split; lra|]).
      constructor.
  - right. now left.
  - reflexivity.
  - reflexivity.
  - reflexivity.
Defined.

End SectionBinFacts.
